(** * crownsegmentr: rasters, filtered point iteration and kernel helpers

    A shallow embedding of the C++ headers of the crownsegmentr package
    (spatial_raster.h, spatial_index_creation.h, spatial_util.h, ams3d.h)
    together with the properties of the specification that concern them.

    Coordinates are IEEE-754 binary64 values.  They are represented by
    [spec_float] with precision 53 and maximal exponent 1024, so that NaN,
    the infinities, signed zeros and rounding are those of the C++ program. *)

From Stdlib Require Import ZArith Bool List Permutation Lia String.
From Stdlib Require Import SpecFloat.
From Stdlib Require Import Rbase Rfunctions Lra Psatz.
Import ListNotations.
Local Open Scope Z_scope.

(** ** binary64 arithmetic *)

Module Double.

Definition prec : Z := 53.
Definition emax : Z := 1024.

Definition double : Type := spec_float.

(** A [spec_float] is a binary64 value when its mantissa and exponent are
    canonical for the format. *)
Definition well_formed (x : double) : Prop := valid_binary prec emax x = true.

Definition add : double -> double -> double := SFadd prec emax.
Definition sub : double -> double -> double := SFsub prec emax.
Definition mul : double -> double -> double := SFmul prec emax.
Definition div : double -> double -> double := SFdiv prec emax.
Definition sqrt : double -> double := SFsqrt prec emax.
Definition ltb : double -> double -> bool := SFltb.
Definition leb : double -> double -> bool := SFleb.

(** Literals of the program. *)
Definition zero : double := S754_zero false.
Definition one : double := S754_finite false 4503599627370496 (-52).
Definition two : double := S754_finite false 4503599627370496 (-51).
Definition quarter : double := S754_finite false 4503599627370496 (-54).
Definition minus_five : double := S754_finite true 5629499534213120 (-50).
Definition quiet_NaN : double := S754_nan.

(** [std::isnan] and [std::isfinite]. *)
Definition isnan (x : double) : bool :=
  match x with S754_nan => true | _ => false end.

Definition isfinite (x : double) : bool :=
  match x with
  | S754_zero _ | S754_finite _ _ _ => true
  | S754_infinity _ | S754_nan => false
  end.

(** [std::size_t] is a 64-bit unsigned integer, kept as a [Z] in
    [0, 2^64) with the wrap-around of its arithmetic written out. *)
Definition size_t_modulus : Z := 2 ^ 64.
Definition is_size_t (n : Z) : Prop := 0 <= n < size_t_modulus.
Definition size_t_wrap (n : Z) : Z := n mod size_t_modulus.

(** Implicit conversion of a [std::size_t] to [double]: the nearest
    binary64 value, ties to even. *)
Definition of_size_t (n : Z) : double := binary_normalize prec emax n 0 false.

(** The integer obtained by discarding the fractional part (rounding
    towards zero); NaN and the infinities have none. *)
Definition truncate (x : double) : option Z :=
  match x with
  | S754_zero _ => Some 0
  | S754_finite s m e =>
      Some (cond_Zopp s
              (match e with
               | Z0 => Zpos m
               | Zpos _ => Zpos m * 2 ^ e
               | Zneg k => Zpos m / 2 ^ Zpos k
               end))
  | S754_infinity _ | S754_nan => None
  end.

(** The largest integer not above the value. *)
Definition floor (x : double) : option Z :=
  match x with
  | S754_zero _ => Some 0
  | S754_finite s m e =>
      Some (match e with
            | Z0 => cond_Zopp s (Zpos m)
            | Zpos _ => cond_Zopp s (Zpos m) * 2 ^ e
            | Zneg k => cond_Zopp s (Zpos m) / 2 ^ Zpos k
            end)
  | S754_infinity _ | S754_nan => None
  end.

(** [static_cast< std::size_t >( x )]: the fractional part is discarded,
    and the behaviour is undefined ([None]) when the truncated value is
    not representable in [std::size_t]. *)
Definition to_size_t (x : double) : option Z :=
  match truncate x with
  | Some z => if (0 <=? z) && (z <? size_t_modulus) then Some z else None
  | None => None
  end.

End Double.

Declare Scope double_scope.
Delimit Scope double_scope with dbl.
Notation "x + y" := (Double.add x y) : double_scope.
Notation "x - y" := (Double.sub x y) : double_scope.
Notation "x * y" := (Double.mul x y) : double_scope.
Notation "x / y" := (Double.div x y) : double_scope.
Notation "x <? y" := (Double.ltb x y) : double_scope.
Notation "x <=? y" := (Double.leb x y) : double_scope.

(** ** Results of C++ calls

    A call returns a value, throws an exception, or has undefined
    behaviour (an access outside a vector, a conversion whose result is not
    representable, a dereferenced past-the-end pointer). *)

Inductive exception : Type :=
| runtime_error (what : string)
| out_of_range (what : string).

Inductive outcome (A : Type) : Type :=
| Returns (a : A)
| Throws (e : exception)
| Undefined.

Arguments Returns {A} a.
Arguments Throws {A} e.
Arguments Undefined {A}.

Definition bind {A B : Type} (c : outcome A) (k : A -> outcome B) : outcome B :=
  match c with
  | Returns a => k a
  | Throws e => Throws e
  | Undefined => Undefined
  end.

Definition of_option {A : Type} (o : option A) : outcome A :=
  match o with
  | Some a => Returns a
  | None => Undefined
  end.

Notation "x <- c ;; k" := (bind c (fun x => k))
  (at level 61, c at next level, right associativity).

(** [v.size()] and [v[i]] of a [std::vector]. *)
Definition size {A : Type} (v : list A) : Z := Z.of_nat (List.length v).

Definition at_index {A : Type} (v : list A) (i : Z) : outcome A :=
  if i <? 0 then Undefined else of_option (nth_error v (Z.to_nat i)).

(** [filter] with a test that may itself fail: every element is tested, in
    order, and the first failing test decides the outcome. *)
Fixpoint filter_outcome {A : Type} (keep : A -> outcome bool) (l : list A)
  : outcome (list A) :=
  match l with
  | [] => Returns []
  | a :: rest =>
      b <- keep a ;;
      kept <- filter_outcome keep rest ;;
      Returns (if b then a :: kept else kept)
  end.

(** ** namespace spatial *)

Module spatial.

Import Double.
Local Open Scope double_scope.

(** *** spatial_types.h *)

Definition coordinate_t : Type := double.
Definition distance_t : Type := double.

Record point_2d_t : Type := { x_of : coordinate_t; y_of : coordinate_t }.

Record point_3d_t : Type :=
  { get_x : coordinate_t; get_y : coordinate_t; get_z : coordinate_t }.

(** An R*-tree is observed through the points it stores only: the index is
    the sequence of points handed to its constructor. *)
Definition index_for_3d_points_t : Type := list point_3d_t.

(** *** spatial_util.h *)

Definition has_non_finite_coordinate_value (point : point_3d_t) : bool :=
  negb (isfinite (get_z point)) ||
  negb (isfinite (get_x point)) ||
  negb (isfinite (get_y point)).

Definition nan_point : point_3d_t :=
  {| get_x := quiet_NaN; get_y := quiet_NaN; get_z := quiet_NaN |}.

Definition get_xy_point (point_3d : point_3d_t) : point_2d_t :=
  {| x_of := get_x point_3d; y_of := get_y point_3d |}.

(** Modelled from the spec: [boost::geometry::comparable_distance] of two
    2D points is their squared Euclidean distance.  The library sums the
    squared coordinate differences from the last dimension down to the
    first, starting from 0. *)
Definition comparable_distance (p1 p2 : point_2d_t) : distance_t :=
  let dy := y_of p1 - y_of p2 in
  let dx := x_of p1 - x_of p2 in
  dy * dy + (dx * dx + zero).

Module _within_xy_distance_functor.

Record t : Type :=
  { _xy_point : point_2d_t; _comparable_distance : distance_t }.

Definition new (xy_point : point_2d_t) (distance : distance_t) : t :=
  {| _xy_point := xy_point;
     _comparable_distance :=
       comparable_distance {| x_of := zero; y_of := zero |}
                           {| x_of := zero; y_of := distance |} |}.

(** [operator()] *)
Definition call (f : t) (point : point_3d_t) : bool :=
  comparable_distance (get_xy_point point) (_xy_point f)
    <=? _comparable_distance f.

End _within_xy_distance_functor.

(** Modelled from the spec: [boost::geometry::distance] of two 3D points,
    the Euclidean distance, i.e. the square root of the squared coordinate
    differences summed as in [comparable_distance]. *)
Definition distance (p1 p2 : point_3d_t) : distance_t :=
  let dz := get_z p1 - get_z p2 in
  let dy := get_y p1 - get_y p2 in
  let dx := get_x p1 - get_x p2 in
  sqrt (dz * dz + (dy * dy + (dx * dx + zero))).

(** Modelled from the spec: [get_points_intersecting_vertical_cylinder] is
    declared in spatial_util.h and defined elsewhere.  It returns the
    indexed points with z in [bottom_height, top_height], both bounds
    included, and with a horizontal squared distance to [xy_center] of at
    most the squared radius. *)
Definition get_points_intersecting_vertical_cylinder
    (point_cloud : index_for_3d_points_t) (xy_center : point_2d_t)
    (radius bottom_height top_height : distance_t) : list point_3d_t :=
  filter
    (fun p =>
       (bottom_height <=? get_z p) && (get_z p <=? top_height) &&
       _within_xy_distance_functor.call
         (_within_xy_distance_functor.new xy_center radius) p)
    point_cloud.

Definition sum_of (l : list double) : double := fold_left add l zero.

(** Modelled from the spec: [weighted_mean_of] is declared in
    spatial_util.h and defined elsewhere.  It returns the componentwise
    quotient of the weighted coordinate sums by the sum of the weights. *)
Definition weighted_mean_of (points : list point_3d_t) (weights : list double)
  : point_3d_t :=
  let weighted (coordinate : point_3d_t -> coordinate_t) :=
    sum_of (map (fun pw => snd pw * coordinate (fst pw)) (combine points weights)) in
  let total := sum_of weights in
  {| get_x := weighted get_x / total;
     get_y := weighted get_y / total;
     get_z := weighted get_z / total |}.

(** *** spatial_raster.h *)

Definition wrong_number_of_new_values : string :=
  "Tried to copy-create a raster with the wrong number of new values.".
Definition nan_xy_coordinates : string :=
  "Tried to access raster value with NaN xy-coordinates.".
Definition outside_of_raster_extent : string :=
  "Tried to access raster value outside of raster extent.".

Module Single_value_pseudo_raster.

Record t (T_value : Type) : Type :=
  { _value : T_value; _values : list T_value }.
Arguments _value {T_value} _.
Arguments _values {T_value} _.

Definition new {T_value : Type} (value : T_value) : t T_value :=
  {| _value := value; _values := [value] |}.

Definition values {T_value : Type} (r : t T_value) : list T_value :=
  _values r.

Definition copy_w_new_values {T_value : Type} (r : t T_value)
    (new_values : list T_value) : outcome (t T_value) :=
  if negb (size new_values =? 1)%Z
  then Throws (runtime_error wrong_number_of_new_values)
  else v <- at_index new_values 0 ;; Returns (new v).

Definition has_value_at_xy_of {T_value : Type} (r : t T_value)
    (point : point_3d_t) : bool := true.

Definition value_at_xy_of {T_value : Type} (r : t T_value)
    (point : point_3d_t) : outcome T_value := Returns (_value r).

Definition no_throw_value_at_xy_of {T_value : Type} (r : t T_value)
    (point : point_3d_t) : outcome T_value := Returns (_value r).

End Single_value_pseudo_raster.

Module Raster.

Record t (T_value : Type) : Type :=
  { _values : list T_value;
    _num_rows : Z;
    _num_cols : Z;
    _x_min : coordinate_t;
    _x_max : coordinate_t;
    _y_min : coordinate_t;
    _y_max : coordinate_t;
    _row_height : coordinate_t;
    _col_width : coordinate_t }.
Arguments _values {T_value} _.
Arguments _num_rows {T_value} _.
Arguments _num_cols {T_value} _.
Arguments _x_min {T_value} _.
Arguments _x_max {T_value} _.
Arguments _y_min {T_value} _.
Arguments _y_max {T_value} _.
Arguments _row_height {T_value} _.
Arguments _col_width {T_value} _.

Definition new {T_value : Type} (values : list T_value)
    (num_rows num_cols : Z) (x_min x_max y_min y_max : coordinate_t)
  : t T_value :=
  {| _values := values;
     _num_rows := num_rows;
     _num_cols := num_cols;
     _x_min := x_min;
     _x_max := x_max;
     _y_min := y_min;
     _y_max := y_max;
     _row_height := (y_max - y_min) / of_size_t num_rows;
     _col_width := (x_max - x_min) / of_size_t num_cols |}.

Definition values {T_value : Type} (r : t T_value) : list T_value :=
  _values r.

Definition copy_w_new_values {T_value : Type} (r : t T_value)
    (new_values : list T_value) : outcome (t T_value) :=
  if negb (size new_values =? size (_values r))%Z
  then Throws (runtime_error wrong_number_of_new_values)
  else Returns (new new_values (_num_rows r) (_num_cols r)
                    (_x_min r) (_x_max r) (_y_min r) (_y_max r)).

Definition has_value_at_xy_of {T_value : Type} (r : t T_value)
    (point : point_3d_t) : bool :=
  (_x_min r <=? get_x point) && (get_x point <=? _x_max r) &&
  (_y_min r <=? get_y point) && (get_y point <=? _y_max r).

(** The row and column of the cell under [point], after the two
    corrections for the lower and the right edge. *)
Definition _cell_of {T_value : Type} (r : t T_value) (point : point_3d_t)
  : outcome (Z * Z) :=
  row_index <- of_option (to_size_t ((_y_max r - get_y point) / _row_height r)) ;;
  let row_index :=
    if (row_index =? _num_rows r)%Z then size_t_wrap (row_index - 1)
    else row_index in
  col_index <- of_option (to_size_t ((get_x point - _x_min r) / _col_width r)) ;;
  let col_index :=
    if (col_index =? _num_cols r)%Z then size_t_wrap (col_index - 1)
    else col_index in
  Returns (row_index, col_index).

(** The position in [_values] that [no_throw_value_at_xy_of] reads. *)
Definition _flat_index {T_value : Type} (r : t T_value) (point : point_3d_t)
  : outcome Z :=
  cell <- _cell_of r point ;;
  Returns (size_t_wrap (_num_cols r * fst cell + snd cell)).

Definition no_throw_value_at_xy_of {T_value : Type} (r : t T_value)
    (point : point_3d_t) : outcome T_value :=
  i <- _flat_index r point ;;
  at_index (_values r) i.

Definition value_at_xy_of {T_value : Type} (r : t T_value)
    (point : point_3d_t) : outcome T_value :=
  if isnan (get_x point) || isnan (get_y point)
  then Throws (runtime_error nan_xy_coordinates)
  else if negb (has_value_at_xy_of r point)
  then Throws (out_of_range outside_of_raster_extent)
  else no_throw_value_at_xy_of r point.

End Raster.

(** The interface [I_Raster] with its two implementations; a call through
    the interface dispatches on the implementation. *)
Inductive I_Raster (T_value : Type) : Type :=
| Grid (r : Raster.t T_value)
| Constant (r : Single_value_pseudo_raster.t T_value).
Arguments Grid {T_value} r.
Arguments Constant {T_value} r.

Module I_Raster_calls.

Definition values {T_value : Type} (r : I_Raster T_value) : list T_value :=
  match r with
  | Grid g => Raster.values g
  | Constant c => Single_value_pseudo_raster.values c
  end.

Definition copy_w_new_values {T_value : Type} (r : I_Raster T_value)
    (new_values : list T_value) : outcome (I_Raster T_value) :=
  match r with
  | Grid g =>
      g' <- Raster.copy_w_new_values g new_values ;; Returns (Grid g')
  | Constant c =>
      c' <- Single_value_pseudo_raster.copy_w_new_values c new_values ;;
      Returns (Constant c')
  end.

Definition has_value_at_xy_of {T_value : Type} (r : I_Raster T_value)
    (point : point_3d_t) : bool :=
  match r with
  | Grid g => Raster.has_value_at_xy_of g point
  | Constant c => Single_value_pseudo_raster.has_value_at_xy_of c point
  end.

Definition value_at_xy_of {T_value : Type} (r : I_Raster T_value)
    (point : point_3d_t) : outcome T_value :=
  match r with
  | Grid g => Raster.value_at_xy_of g point
  | Constant c => Single_value_pseudo_raster.value_at_xy_of c point
  end.

Definition no_throw_value_at_xy_of {T_value : Type} (r : I_Raster T_value)
    (point : point_3d_t) : outcome T_value :=
  match r with
  | Grid g => Raster.no_throw_value_at_xy_of g point
  | Constant c => Single_value_pseudo_raster.no_throw_value_at_xy_of c point
  end.

End I_Raster_calls.

(** *** spatial_index_creation.h *)

(** A pointer into the storage of a vector of points: the vector it points
    into and an offset from its first element.  The past-the-end pointer
    has the length of the vector as its offset. *)
Record pointer : Type := { block : list point_3d_t; offset : nat }.

Definition pointer_to_begin (points : list point_3d_t) : pointer :=
  {| block := points; offset := 0 |}.

Definition pointer_to_end (points : list point_3d_t) : pointer :=
  {| block := points; offset := List.length points |}.

Definition pointer_deref (p : pointer) : outcome point_3d_t :=
  of_option (nth_error (block p) (offset p)).

Definition pointer_succ (p : pointer) : pointer :=
  {| block := block p; offset := S (offset p) |}.

Definition pointer_eqb (p q : pointer) : bool :=
  Nat.eqb (offset p) (offset q).

(** The address of the dereferenced iterator [it], for [it] one of
    [points.cbegin()] and [points.cend()]: the reference to the element is
    formed and its address taken, the element is not read.  A vector
    without elements has nothing to refer to (its two iterators hold the
    null pointer where it has no storage), and forming the reference is
    undefined behaviour.  On a vector with elements the address is the
    pointer the iterator holds, for [cend()] the one past the last
    element. *)
Definition address_of_dereferenced (points : list point_3d_t) (ptr : pointer)
  : outcome pointer :=
  match points with
  | [] => Undefined
  | _ :: _ => Returns ptr
  end.

(** A shared pointer to a raster; [None] is [nullptr]. *)
Definition shared_ptr (A : Type) : Type := option A.

Definition shared_ptr_deref {A : Type} (p : shared_ptr A) : outcome A :=
  of_option p.

(** The loop [while (_skip_current_point()) { _ptr++; }].  It stops at
    the end pointer at the latest, so the distance to the end pointer
    plus one bounds the number of tests. *)
Section Skip_loop.
Context {Iterator : Type}.
Variable _skip_current_point : Iterator -> outcome bool.
Variable _ptr_succ : Iterator -> Iterator.

Fixpoint skip_loop (fuel : nat) (it : Iterator) : outcome Iterator :=
  match fuel with
  | O => Undefined
  | S fuel' =>
      skip <- _skip_current_point it ;;
      if skip then skip_loop fuel' (_ptr_succ it) else Returns it
  end.
End Skip_loop.

Definition distance_to (p end_p : pointer) : nat := offset end_p - offset p.

Module _Finite_points_above_height_iterator.

Record t : Type :=
  { _ptr : pointer; _end_ptr : pointer; _min_height : coordinate_t }.

Definition _skip_current_point (it : t) : outcome bool :=
  if pointer_eqb (_ptr it) (_end_ptr it) then Returns false
  else
    p <- pointer_deref (_ptr it) ;;
    if has_non_finite_coordinate_value p then Returns true
    else Returns (get_z p <? _min_height it).

Definition _ptr_succ (it : t) : t :=
  {| _ptr := pointer_succ (_ptr it);
     _end_ptr := _end_ptr it;
     _min_height := _min_height it |}.

Definition _skip_points (it : t) : outcome t :=
  skip_loop _skip_current_point _ptr_succ
            (S (distance_to (_ptr it) (_end_ptr it))) it.

Definition new (ptr end_ptr : pointer) (min_height : coordinate_t)
  : outcome t :=
  _skip_points
    {| _ptr := ptr; _end_ptr := end_ptr; _min_height := min_height |}.

Definition cbegin (points : list point_3d_t) (min_height : coordinate_t)
  : outcome t :=
  ptr <- address_of_dereferenced points (pointer_to_begin points) ;;
  end_ptr <- address_of_dereferenced points (pointer_to_end points) ;;
  new ptr end_ptr min_height.

Definition cend (points : list point_3d_t) (min_height : coordinate_t)
  : outcome t :=
  ptr <- address_of_dereferenced points (pointer_to_end points) ;;
  end_ptr <- address_of_dereferenced points (pointer_to_end points) ;;
  new ptr end_ptr min_height.

Definition dereference (it : t) : outcome point_3d_t :=
  pointer_deref (_ptr it).

Definition increment (it : t) : outcome t := _skip_points (_ptr_succ it).

Definition eqb (a b : t) : bool := pointer_eqb (_ptr a) (_ptr b).

End _Finite_points_above_height_iterator.

Module _Finite_points_above_ground_iterator.

Record t : Type :=
  { _ptr : pointer;
    _end_ptr : pointer;
    _min_height_above_ground : coordinate_t;
    _ground_height_grid_ptr : shared_ptr (Raster.t coordinate_t) }.

Definition _skip_current_point (it : t) : outcome bool :=
  if pointer_eqb (_ptr it) (_end_ptr it) then Returns false
  else
    p <- pointer_deref (_ptr it) ;;
    if has_non_finite_coordinate_value p then Returns true
    else
      ground_height_grid <- shared_ptr_deref (_ground_height_grid_ptr it) ;;
      ground_height <- Raster.no_throw_value_at_xy_of ground_height_grid p ;;
      let point_height_above_ground := get_z p - ground_height in
      Returns (negb (isfinite point_height_above_ground) ||
               (point_height_above_ground <? _min_height_above_ground it)).

Definition _ptr_succ (it : t) : t :=
  {| _ptr := pointer_succ (_ptr it);
     _end_ptr := _end_ptr it;
     _min_height_above_ground := _min_height_above_ground it;
     _ground_height_grid_ptr := _ground_height_grid_ptr it |}.

Definition _skip_points (it : t) : outcome t :=
  skip_loop _skip_current_point _ptr_succ
            (S (distance_to (_ptr it) (_end_ptr it))) it.

Definition new (ptr end_ptr : pointer)
    (min_height_above_ground : coordinate_t)
    (ground_height_grid_ptr : shared_ptr (Raster.t coordinate_t))
  : outcome t :=
  _skip_points
    {| _ptr := ptr;
       _end_ptr := end_ptr;
       _min_height_above_ground := min_height_above_ground;
       _ground_height_grid_ptr := ground_height_grid_ptr |}.

Definition cbegin (points : list point_3d_t)
    (min_height_above_ground : coordinate_t)
    (ground_height_grid_ptr : shared_ptr (Raster.t coordinate_t))
  : outcome t :=
  ptr <- address_of_dereferenced points (pointer_to_begin points) ;;
  end_ptr <- address_of_dereferenced points (pointer_to_end points) ;;
  new ptr end_ptr min_height_above_ground ground_height_grid_ptr.

Definition cend (points : list point_3d_t) : outcome t :=
  ptr <- address_of_dereferenced points (pointer_to_end points) ;;
  end_ptr <- address_of_dereferenced points (pointer_to_end points) ;;
  new ptr end_ptr zero None.

Definition dereference (it : t) : outcome point_3d_t :=
  pointer_deref (_ptr it).

Definition increment (it : t) : outcome t := _skip_points (_ptr_succ it).

Definition eqb (a b : t) : bool := pointer_eqb (_ptr a) (_ptr b).

End _Finite_points_above_ground_iterator.

Module _Finite_points_above_height_grid_iterator.

Record t : Type :=
  { _ptr : pointer;
    _end_ptr : pointer;
    _min_height_above_ground_grid : shared_ptr (I_Raster coordinate_t);
    _ground_height_grid_ptr : shared_ptr (I_Raster coordinate_t) }.

Definition _skip_current_point (it : t) : outcome bool :=
  if pointer_eqb (_ptr it) (_end_ptr it) then Returns false
  else
    p <- pointer_deref (_ptr it) ;;
    if has_non_finite_coordinate_value p then Returns true
    else
      ground_height_grid <- shared_ptr_deref (_ground_height_grid_ptr it) ;;
      ground_height <-
        I_Raster_calls.no_throw_value_at_xy_of ground_height_grid p ;;
      let point_height_above_ground := get_z p - ground_height in
      min_height_grid <-
        shared_ptr_deref (_min_height_above_ground_grid it) ;;
      min_height_above_ground <-
        I_Raster_calls.no_throw_value_at_xy_of min_height_grid p ;;
      Returns (negb (isfinite point_height_above_ground) ||
               negb (isfinite min_height_above_ground) ||
               (point_height_above_ground <? min_height_above_ground)).

Definition _ptr_succ (it : t) : t :=
  {| _ptr := pointer_succ (_ptr it);
     _end_ptr := _end_ptr it;
     _min_height_above_ground_grid := _min_height_above_ground_grid it;
     _ground_height_grid_ptr := _ground_height_grid_ptr it |}.

Definition _skip_points (it : t) : outcome t :=
  skip_loop _skip_current_point _ptr_succ
            (S (distance_to (_ptr it) (_end_ptr it))) it.

Definition new (ptr end_ptr : pointer)
    (min_height_above_ground_grid_ptr : shared_ptr (I_Raster coordinate_t))
    (ground_height_grid_ptr : shared_ptr (I_Raster coordinate_t))
  : outcome t :=
  _skip_points
    {| _ptr := ptr;
       _end_ptr := end_ptr;
       _min_height_above_ground_grid := min_height_above_ground_grid_ptr;
       _ground_height_grid_ptr := ground_height_grid_ptr |}.

Definition cbegin (points : list point_3d_t)
    (min_height_above_ground_grid_ptr : shared_ptr (I_Raster coordinate_t))
    (ground_height_grid_ptr : shared_ptr (I_Raster coordinate_t))
  : outcome t :=
  ptr <- address_of_dereferenced points (pointer_to_begin points) ;;
  end_ptr <- address_of_dereferenced points (pointer_to_end points) ;;
  new ptr end_ptr min_height_above_ground_grid_ptr ground_height_grid_ptr.

Definition cend (points : list point_3d_t) : outcome t :=
  ptr <- address_of_dereferenced points (pointer_to_end points) ;;
  end_ptr <- address_of_dereferenced points (pointer_to_end points) ;;
  new ptr end_ptr None None.

Definition dereference (it : t) : outcome point_3d_t :=
  pointer_deref (_ptr it).

Definition increment (it : t) : outcome t := _skip_points (_ptr_succ it).

Definition eqb (a b : t) : bool := pointer_eqb (_ptr a) (_ptr b).

End _Finite_points_above_height_grid_iterator.

(** The operations the R*-tree constructor uses of an iterator. *)
Class Input_iterator (Iterator : Type) : Type :=
  { dereference : Iterator -> outcome point_3d_t;
    increment : Iterator -> outcome Iterator;
    iterator_eqb : Iterator -> Iterator -> bool }.

#[export] Instance above_height_iterator
  : Input_iterator _Finite_points_above_height_iterator.t :=
  {| dereference := _Finite_points_above_height_iterator.dereference;
     increment := _Finite_points_above_height_iterator.increment;
     iterator_eqb := _Finite_points_above_height_iterator.eqb |}.

#[export] Instance above_ground_iterator
  : Input_iterator _Finite_points_above_ground_iterator.t :=
  {| dereference := _Finite_points_above_ground_iterator.dereference;
     increment := _Finite_points_above_ground_iterator.increment;
     iterator_eqb := _Finite_points_above_ground_iterator.eqb |}.

#[export] Instance above_height_grid_iterator
  : Input_iterator _Finite_points_above_height_grid_iterator.t :=
  {| dereference := _Finite_points_above_height_grid_iterator.dereference;
     increment := _Finite_points_above_height_grid_iterator.increment;
     iterator_eqb := _Finite_points_above_height_grid_iterator.eqb |}.

(** The range constructor of the R*-tree: it stores [*it] for every
    iterator [it] of the range [first, last).  [fuel] bounds the number of
    increments. *)
Fixpoint index_of_range {Iterator : Type} `{Input_iterator Iterator}
    (fuel : nat) (first last : Iterator) : outcome index_for_3d_points_t :=
  match fuel with
  | O => Undefined
  | S fuel' =>
      if iterator_eqb first last then Returns []
      else
        p <- dereference first ;;
        next <- increment first ;;
        rest <- index_of_range fuel' next last ;;
        Returns (p :: rest)
  end.

(** A range over a vector has at most as many elements as the vector. *)
Definition create_index_of_finite (points : list point_3d_t)
    (min_height : coordinate_t) : outcome index_for_3d_points_t :=
  first <- _Finite_points_above_height_iterator.cbegin points min_height ;;
  last <- _Finite_points_above_height_iterator.cend points min_height ;;
  index_of_range (S (List.length points)) first last.

Definition create_index_of_above_ground (points : list point_3d_t)
    (min_height_above_ground : coordinate_t)
    (ground_height_grid_ptr : shared_ptr (Raster.t coordinate_t))
  : outcome index_for_3d_points_t :=
  first <- _Finite_points_above_ground_iterator.cbegin
             points min_height_above_ground ground_height_grid_ptr ;;
  last <- _Finite_points_above_ground_iterator.cend points ;;
  index_of_range (S (List.length points)) first last.

Definition create_index_of_above_ground_grid (points : list point_3d_t)
    (min_height_above_ground_grid_ptr : shared_ptr (I_Raster coordinate_t))
    (ground_height_grid_ptr : shared_ptr (I_Raster coordinate_t))
  : outcome index_for_3d_points_t :=
  first <- _Finite_points_above_height_grid_iterator.cbegin
             points min_height_above_ground_grid_ptr ground_height_grid_ptr ;;
  last <- _Finite_points_above_height_grid_iterator.cend points ;;
  index_of_range (S (List.length points)) first last.

End spatial.

(** ** namespace ams3d *)

Module ams3d.

Import Double.
Import spatial.
Local Open Scope double_scope.

(** *** namespace _math_functions *)

Module _math_functions.

Definition gaussian_gamma : double := minus_five.

Section With_exp.

(** [std::exp] of the C++ standard library; its results are not fixed by
    the language standard. *)
Variable exp : double -> double.

Definition gauss_unsquared (x : double) : double := exp (gaussian_gamma * x).

End With_exp.

Definition epanechnikov_unsquared (x : double) : double := one - x.

End _math_functions.

(** *** class _Kernel *)

Module _Kernel.

Definition bottom_height_above_ground_with
    (point_height_above_ground : coordinate_t)
    (crown_height_to_tree_height : double) : coordinate_t :=
  let bottom_height_above_ground :=
    point_height_above_ground -
    point_height_above_ground * crown_height_to_tree_height * quarter in
  if bottom_height_above_ground <? zero then zero
  else bottom_height_above_ground.

Definition bottom_height_above_ground_grid_with
    (point_height_above_ground : coordinate_t)
    (crown_height_to_tree_height_grid : I_Raster double)
  : outcome (I_Raster coordinate_t) :=
  let bottom_heights :=
    map (fun crown_height_to_tree_height =>
           let bottom_height_above_ground :=
             point_height_above_ground -
             point_height_above_ground * crown_height_to_tree_height * quarter in
           if bottom_height_above_ground <? zero then zero
           else bottom_height_above_ground)
        (I_Raster_calls.values crown_height_to_tree_height_grid) in
  I_Raster_calls.copy_w_new_values crown_height_to_tree_height_grid
                                   bottom_heights.

Record t : Type :=
  { _xy_center : point_2d_t;
    _center_height_initial : coordinate_t;
    _radius : distance_t;
    _height : distance_t;
    _half_height : distance_t;
    _half_height_squared : distance_t;
    _radius_squared : distance_t;
    _top_height : coordinate_t;
    _center_height : coordinate_t;
    _bottom_height : coordinate_t }.

(** Modelled from the spec: the constructors of [_Kernel] are declared in
    ams3d.h and defined elsewhere.  With h the height of [center] above the
    ground, the kernel has height h * crown_height_to_tree_height and
    radius (h * crown_diameter_to_tree_height) / 2; its bottom lies one
    quarter of the kernel height below [center] but not below the ground,
    its top one kernel height above its bottom, and its center half a
    kernel height above its bottom. *)
Definition new_above (center : point_3d_t)
    (ground_height_at_center : coordinate_t)
    (crown_diameter_to_tree_height crown_height_to_tree_height : double) : t :=
  let height_above_ground := get_z center - ground_height_at_center in
  let height := height_above_ground * crown_height_to_tree_height in
  let radius := height_above_ground * crown_diameter_to_tree_height / two in
  let half_height := height / two in
  let bottom :=
    bottom_height_above_ground_with height_above_ground
                                    crown_height_to_tree_height
    + ground_height_at_center in
  {| _xy_center := get_xy_point center;
     _center_height_initial := get_z center;
     _radius := radius;
     _height := height;
     _half_height := half_height;
     _half_height_squared := half_height * half_height;
     _radius_squared := radius * radius;
     _top_height := bottom + height;
     _center_height := bottom + half_height;
     _bottom_height := bottom |}.

(** Modelled from the spec: in the normalized-height surface the ground
    is 0. *)
Definition new (center : point_3d_t)
    (crown_diameter_to_tree_height crown_height_to_tree_height : double) : t :=
  new_above center zero crown_diameter_to_tree_height
            crown_height_to_tree_height.

Section With_exp.

Variable exp : double -> double.

(** Modelled from the spec: the private members of [_Kernel] are declared
    in ams3d.h and defined elsewhere. *)
Definition _find_intersecting_points_in (k : t)
    (point_cloud : index_for_3d_points_t) : list point_3d_t :=
  get_points_intersecting_vertical_cylinder
    point_cloud (_xy_center k) (_radius k) (_bottom_height k) (_top_height k).

Definition _calculate_squared_relative_horizontal_distance_of_center_to
    (k : t) (point : point_3d_t) : distance_t :=
  comparable_distance (get_xy_point point) (_xy_center k) / _radius_squared k.

Definition _calculate_squared_relative_vertical_distance_of_center_to
    (k : t) (point : point_3d_t) : distance_t :=
  let dz := get_z point - _center_height k in
  dz * dz / _half_height_squared k.

Definition _calculate_point_weight_of (k : t) (point : point_3d_t) : double :=
  _math_functions.epanechnikov_unsquared
    (_calculate_squared_relative_horizontal_distance_of_center_to k point)
  * _math_functions.gauss_unsquared exp
      (_calculate_squared_relative_vertical_distance_of_center_to k point).

(** Modelled from the spec: the weighted centroid of the points inside the
    kernel; there is none when no point is inside the kernel or when the
    weights sum to zero. *)
Definition calculate_centroid_in (k : t)
    (point_cloud : index_for_3d_points_t) : option point_3d_t :=
  let points := _find_intersecting_points_in k point_cloud in
  let weights := map (_calculate_point_weight_of k) points in
  match points with
  | [] => None
  | _ :: _ =>
      match sum_of weights with
      | S754_zero _ => None
      | _ => Some (weighted_mean_of points weights)
      end
  end.

End With_exp.

End _Kernel.

(** *** The mean-shift driver, normalized heights *)

Section With_exp.

Variable exp : double -> double.

Section Driver.

Variable indexed_point_cloud : index_for_3d_points_t.
Variable crown_diameter_to_tree_height : double.
Variable crown_height_to_tree_height : double.
Variable centroid_convergence_distance : distance_t.
Variable max_num_centroids_per_mode : Z.

(** Modelled from the spec: the iteration of section 4.6.  [s] is the
    current kernel center, [i] the number of centroids computed so far and
    [trace] these centroids in order.  The cap bounds the number of
    centroids, so [fuel] is taken from it. *)
Fixpoint _mean_shift (fuel : nat) (i : Z) (s : point_3d_t)
    (trace : list point_3d_t) : outcome (point_3d_t * list point_3d_t) :=
  match fuel with
  | O => Undefined
  | S fuel' =>
      let kernel :=
        _Kernel.new s crown_diameter_to_tree_height
                    crown_height_to_tree_height in
      match _Kernel.calculate_centroid_in exp kernel indexed_point_cloud with
      | None => Returns (if (i =? 0)%Z then nan_point else s, trace)
      | Some centroid =>
          let trace := trace ++ [centroid] in
          if distance centroid s <=? centroid_convergence_distance
          then Returns (centroid, trace)
          else if (i + 1 =? max_num_centroids_per_mode)%Z
          then Returns (centroid, trace)
          else _mean_shift fuel' (i + 1)%Z centroid trace
      end
  end.

End Driver.

(** Modelled from the spec: [calculate_a_single_mode_plus_centroids] is
    declared in ams3d.h and defined elsewhere.  A point with a non-finite
    coordinate or below the minimum height is rejected before the
    iteration starts. *)
Definition calculate_a_single_mode_plus_centroids
    (point : point_3d_t)
    (indexed_point_cloud : index_for_3d_points_t)
    (min_point_height_above_ground : coordinate_t)
    (crown_diameter_to_tree_height crown_height_to_tree_height : double)
    (centroid_convergence_distance : distance_t)
    (max_num_centroids_per_mode : Z)
  : outcome (point_3d_t * list point_3d_t) :=
  if has_non_finite_coordinate_value point then Returns (nan_point, [])
  else if get_z point <? min_point_height_above_ground
  then Returns (nan_point, [])
  else
    _mean_shift indexed_point_cloud
                crown_diameter_to_tree_height crown_height_to_tree_height
                centroid_convergence_distance max_num_centroids_per_mode
                (Z.to_nat max_num_centroids_per_mode) 0%Z point [].

(** Modelled from the spec: [calculate_a_single_mode] is declared in
    ams3d.h and defined elsewhere; it is the same computation without the
    trace of centroids. *)
Definition calculate_a_single_mode
    (point : point_3d_t)
    (indexed_point_cloud : index_for_3d_points_t)
    (min_point_height_above_ground : coordinate_t)
    (crown_diameter_to_tree_height crown_height_to_tree_height : double)
    (centroid_convergence_distance : distance_t)
    (max_num_centroids_per_mode : Z)
  : outcome point_3d_t :=
  if has_non_finite_coordinate_value point then Returns nan_point
  else if get_z point <? min_point_height_above_ground
  then Returns nan_point
  else
    result <- _mean_shift indexed_point_cloud
                crown_diameter_to_tree_height crown_height_to_tree_height
                centroid_convergence_distance max_num_centroids_per_mode
                (Z.to_nat max_num_centroids_per_mode) 0%Z point [] ;;
    Returns (fst result).

End With_exp.

End ams3d.

(** ** Vocabulary of the properties *)

Module Spec.

Import Double.
Import spatial.
Local Open Scope double_scope.

(** The order of binary64 values; NaN is comparable with nothing. *)
Definition le (x y : double) : Prop :=
  SFcompare x y = Some Lt \/ SFcompare x y = Some Eq.

Definition lt (x y : double) : Prop := SFcompare x y = Some Lt.

Definition finite (x : double) : Prop := isfinite x = true.

Definition all_finite (p : point_3d_t) : Prop :=
  finite (get_x p) /\ finite (get_y p) /\ finite (get_z p).

(** [m] is the larger of [x] and [y]. *)
Definition is_max_of (x y m : double) : Prop :=
  le x m /\ le y m /\ (m = x \/ m = y).

(** (p.x, p.y) lies in the closed rectangle [x_min, x_max] x [y_min, y_max]. *)
Definition in_closed_extent {T_value : Type} (r : Raster.t T_value)
    (p : point_3d_t) : Prop :=
  le (Raster._x_min r) (get_x p) /\ le (get_x p) (Raster._x_max r) /\
  le (Raster._y_min r) (get_y p) /\ le (get_y p) (Raster._y_max r).

(** The index along one axis in the words of the specification: the floor
    of the quotient, decremented by one exactly when it equals the number
    of cells along the axis.  Indices are of type [std::size_t]. *)
Definition axis_index (quotient : double) (num_cells : Z) : option Z :=
  match floor quotient with
  | Some q =>
      if (0 <=? q)%Z && (q <? size_t_modulus)%Z
      then Some (if (q =? num_cells)%Z then size_t_wrap (q - 1) else q)
      else None
  | None => None
  end.

(** The cell value in the words of the specification:
    values[num_cols * row_index + col_index]. *)
Definition cell_value {T_value : Type} (r : Raster.t T_value)
    (p : point_3d_t) : outcome T_value :=
  row_index <-
    of_option (axis_index ((Raster._y_max r - get_y p) / Raster._row_height r)
                          (Raster._num_rows r)) ;;
  col_index <-
    of_option (axis_index ((get_x p - Raster._x_min r) / Raster._col_width r)
                          (Raster._num_cols r)) ;;
  at_index (Raster._values r)
           (size_t_wrap (Raster._num_cols r * row_index + col_index)).

(** What the height filter of an iterator guarantees of a height [h]
    measured against a minimum [min]: [h] is not below [min], and it is at
    least [min] unless [min] is NaN. *)
Definition not_below (h min : double) : Prop :=
  ~ lt h min /\ (min <> S754_nan -> le min h).


(** (p.x, p.y) has a NaN coordinate. *)
Definition nan_xy (p : point_3d_t) : Prop :=
  get_x p = S754_nan \/ get_y p = S754_nan.

(** [bottom_height_above_ground_grid_with h g] returns a raster with as
    many values as [g], the i-th of which is
    [bottom_height_above_ground_with h] of the i-th value of [g]. *)
Definition elementwise_bottom_heights (h : coordinate_t)
    (g : I_Raster double) : Prop :=
  exists g' : I_Raster coordinate_t,
    ams3d._Kernel.bottom_height_above_ground_grid_with h g = Returns g' /\
    List.length (I_Raster_calls.values g')
      = List.length (I_Raster_calls.values g) /\
    forall (i : nat) (ratio : double),
      nth_error (I_Raster_calls.values g) i = Some ratio ->
      nth_error (I_Raster_calls.values g') i
        = Some (ams3d._Kernel.bottom_height_above_ground_with h ratio).

(** The test [_skip_current_point] applies to a dereferenced point, for
    each of the three iterators. *)
Definition above_height_skip_test (min_height : coordinate_t) (p : point_3d_t)
  : outcome bool :=
  if has_non_finite_coordinate_value p then Returns true
  else Returns (get_z p <? min_height).

Definition above_ground_skip_test (min_height_above_ground : coordinate_t)
    (ground_height_grid_ptr : shared_ptr (Raster.t coordinate_t))
    (p : point_3d_t) : outcome bool :=
  if has_non_finite_coordinate_value p then Returns true
  else
    ground_height_grid <- shared_ptr_deref ground_height_grid_ptr ;;
    ground_height <- Raster.no_throw_value_at_xy_of ground_height_grid p ;;
    let point_height_above_ground := get_z p - ground_height in
    Returns (negb (isfinite point_height_above_ground) ||
             (point_height_above_ground <? min_height_above_ground)).

Definition above_height_grid_skip_test
    (min_height_above_ground_grid ground_height_grid_ptr
       : shared_ptr (I_Raster coordinate_t))
    (p : point_3d_t) : outcome bool :=
  if has_non_finite_coordinate_value p then Returns true
  else
    ground_height_grid <- shared_ptr_deref ground_height_grid_ptr ;;
    ground_height <-
      I_Raster_calls.no_throw_value_at_xy_of ground_height_grid p ;;
    let point_height_above_ground := get_z p - ground_height in
    min_height_grid <- shared_ptr_deref min_height_above_ground_grid ;;
    min_height_above_ground <-
      I_Raster_calls.no_throw_value_at_xy_of min_height_grid p ;;
    Returns (negb (isfinite point_height_above_ground) ||
             negb (isfinite min_height_above_ground) ||
             (point_height_above_ground <? min_height_above_ground)).

(** What the three functions that build an index come to, for the test
    [keep] of their iterator: undefined behaviour on a vector without
    elements, and the points of the vector that pass the test otherwise. *)
Definition filtered_index (keep : point_3d_t -> outcome bool)
    (points : list point_3d_t) : outcome index_for_3d_points_t :=
  match points with
  | [] => Undefined
  | _ :: _ => filter_outcome keep points
  end.

(** The suffix of [l] that starts at its first element that is not
    skipped. *)
Fixpoint drop_skipped (skip_test : point_3d_t -> outcome bool)
    (l : list point_3d_t) : outcome (list point_3d_t) :=
  match l with
  | [] => Returns []
  | p :: rest =>
      skip <- skip_test p ;;
      if skip then drop_skipped skip_test rest else Returns l
  end.

Definition kept (skip_test : point_3d_t -> outcome bool) (p : point_3d_t)
  : outcome bool :=
  skip <- skip_test p ;; Returns (negb skip).

(** What each iterator guarantees of a point it yields. *)
Definition above_height_ok (min_height : coordinate_t) (p : point_3d_t)
  : Prop :=
  all_finite p /\ not_below (get_z p) min_height.

Definition above_ground_ok (min_height_above_ground : coordinate_t)
    (ground_height_grid : Raster.t coordinate_t) (p : point_3d_t) : Prop :=
  all_finite p /\
  exists ground_height,
    Raster.no_throw_value_at_xy_of ground_height_grid p = Returns ground_height /\
    finite (get_z p - ground_height) /\
    not_below (get_z p - ground_height) min_height_above_ground.

Definition above_height_grid_ok
    (min_height_above_ground_grid ground_height_grid : I_Raster coordinate_t)
    (p : point_3d_t) : Prop :=
  all_finite p /\
  exists ground_height min_height_above_ground,
    I_Raster_calls.no_throw_value_at_xy_of ground_height_grid p
      = Returns ground_height /\
    I_Raster_calls.no_throw_value_at_xy_of min_height_above_ground_grid p
      = Returns min_height_above_ground /\
    finite (get_z p - ground_height) /\
    finite min_height_above_ground /\
    le min_height_above_ground (get_z p - ground_height).

(** The smallest exponent of a binary64 number. *)
Definition emin : Z := -1074.

(** A bound above every finite binary64 value in units of 2^-1074. *)
Definition beyond_finite : Z := 2 ^ 2100.

(** The value of a binary64 number in units of 2^-1074, the smallest
    positive binary64 number; the infinities lie beyond all of them. *)
Definition scaled (x : double) : Z :=
  match x with
  | S754_zero _ => 0
  | S754_finite s m e => cond_Zopp s (Z.pos m * 2 ^ (e - emin))
  | S754_infinity s => cond_Zopp s beyond_finite
  | S754_nan => 0
  end.

Definition finite_negative (x : double) : Prop :=
  exists m e, x = S754_finite true m e.

Definition not_negative_zero (x : double) : Prop := x <> S754_zero true.

(** The number of places [shr_fexp] shifts a mantissa to the right. *)
Definition shift_of (m e : Z) : Z :=
  Z.max 0 (fexp prec emax (Zdigits2 m + e) - e).

Definition pow2 (e : Z) : R := powerRZ 2 e.

(** The real number a finite binary64 value stands for. *)
Definition value (x : double) : R :=
  match x with
  | S754_finite s m e => (IZR (cond_Zopp s (Z.pos m)) * pow2 e)%R
  | _ => 0%R
  end.

Definition eps : R := pow2 (-52).

Definition positive_value (m : positive) (e : Z) : R := (IZR (Z.pos m) * pow2 e)%R.

(** A positive normal number: finite, with a full 53-digit mantissa. *)
Definition positive_normal (x : double) : Prop :=
  exists m e, x = S754_finite false m e /\ 2 ^ 52 <= Z.pos m.

(** The location of a mantissa [k] places of which were shifted out, the
    places shifted out being [rem]: [rem] against half of 2^k. *)
Definition location_of (l : location) (rem k : Z) : Prop :=
  match l with
  | loc_Exact => rem = 0
  | loc_Inexact c => (0 < rem)%Z /\ (2 * rem ?= 2 ^ k)%Z = c
  end.

(** [mrs] is [m] shifted right by [k] places, with the location of what
    was shifted out. *)
Definition shifted (m k : Z) (mrs : shr_record) : Prop :=
  (0 <= shr_m mrs)%Z /\
  exists rem,
    m = (shr_m mrs * 2 ^ k + rem)%Z /\ (0 <= rem < 2 ^ k)%Z /\
    location_of (loc_of_shr_record mrs) rem k.

(** The threshold of overflow: halfway between the largest binary64 number
    and 2^1024. *)
Definition overflow_threshold : R := (pow2 1024 - pow2 970)%R.

(** Sample values. *)
Definition a_point (x y z : double) : point_3d_t :=
  {| get_x := x; get_y := y; get_z := z |}.

Definition half : double := S754_finite false 4503599627370496 (-53).

(** The unit square with a single cell holding [ground]. *)
Definition unit_cell (ground : double) : Raster.t coordinate_t :=
  Raster.new [ground] 1 1 zero one zero one.

(** 5 * 2^-1074, a subnormal number. *)
Definition five_tiny : double := S754_finite false 5 (-1074).

(** The test of a filter as a boolean, where it returns. *)
Definition returned_true (o : outcome bool) : bool :=
  match o with Returns b => b | _ => false end.

(** A zero of either sign, or NaN. *)
Definition zero_or_nan (x : double) : Prop :=
  (exists s, x = S754_zero s) \/ x = S754_nan.

(** A zero of either sign, a positive number or the positive infinity. *)
Definition not_negative (x : double) : Prop :=
  match x with
  | S754_zero _ => True
  | S754_infinity s | S754_finite s _ _ => s = false
  | S754_nan => False
  end.

End Spec.

(** ** Properties *)

Import Double.
Import spatial.
Import Spec.

(** *** The order of binary64 values *)

Lemma leb_le x y : Double.leb x y = true <-> le x y.
Proof.
  unfold Double.leb, SFleb, le.
  destruct (SFcompare x y) as [[ | | ]|]; intuition congruence.
Qed.

Lemma ltb_lt x y : Double.ltb x y = true <-> lt x y.
Proof.
  unfold Double.ltb, SFltb, lt.
  destruct (SFcompare x y) as [[ | | ]|]; intuition congruence.
Qed.

Lemma compare_antisym x y c :
  SFcompare x y = Some c -> SFcompare y x = Some (CompOpp c).
Proof.
  destruct x as [sx|sx| |sx mx ex], y as [sy|sy| |sy my ey]; simpl;
    try discriminate;
    try (destruct sx); try (destruct sy); intros [= <-]; try reflexivity;
    rewrite (Z.compare_antisym ex ey); destruct (ex ?= ey)%Z; simpl;
    try reflexivity;
    rewrite Pos.compare_cont_antisym; simpl;
    try rewrite CompOpp_involutive; reflexivity.
Qed.

Lemma compare_refl x : x <> S754_nan -> SFcompare x x = Some Eq.
Proof.
  destruct x as [s|s| |s m e]; simpl; try congruence; intros _.
  - destruct s; reflexivity.
  - destruct s; rewrite Z.compare_refl, Pos.compare_cont_refl; reflexivity.
Qed.

Lemma compare_defined x y :
  x <> S754_nan -> y <> S754_nan -> exists c, SFcompare x y = Some c.
Proof.
  destruct x as [sx|sx| |sx mx ex], y as [sy|sy| |sy my ey]; simpl;
    try congruence; eauto.
Qed.

Lemma not_lt_le x y : x <> S754_nan -> y <> S754_nan -> ~ lt x y -> le y x.
Proof.
  intros Hx Hy H. destruct (compare_defined x y Hx Hy) as [c Hc].
  unfold lt in H. apply compare_antisym in Hc as Hc'. unfold le.
  destruct c; simpl in Hc'; [right|congruence|left]; assumption.
Qed.

Lemma lt_le x y : lt x y -> le x y.
Proof. unfold lt, le; auto. Qed.

Lemma finite_not_nan x : finite x -> x <> S754_nan.
Proof. intros H ->; discriminate H. Qed.

Lemma has_non_finite_coordinate_value_spec p :
  has_non_finite_coordinate_value p = false <-> all_finite p.
Proof.
  unfold has_non_finite_coordinate_value, all_finite, finite.
  destruct (isfinite (get_x p)), (isfinite (get_y p)), (isfinite (get_z p));
    simpl; intuition congruence.
Qed.

(** *** Canonical mantissas *)

Lemma digits2_pos_bounds (m : positive) :
  2 ^ (Z.pos (digits2_pos m) - 1) <= Z.pos m < 2 ^ Z.pos (digits2_pos m).
Proof.
  induction m as [m IH|m IH|]; cbn [digits2_pos].
  - rewrite Pos2Z.inj_succ.
    replace (Z.succ (Z.pos (digits2_pos m)) - 1) with (Z.succ (Z.pos (digits2_pos m) - 1)) by lia.
    rewrite !Z.pow_succ_r by lia. lia.
  - rewrite Pos2Z.inj_succ.
    replace (Z.succ (Z.pos (digits2_pos m)) - 1) with (Z.succ (Z.pos (digits2_pos m) - 1)) by lia.
    rewrite !Z.pow_succ_r by lia. lia.
  - simpl. lia.
Qed.

Lemma bounded_spec (m : positive) (e : Z) :
  SpecFloat.bounded prec emax m e = true ->
  emin <= e <= 971 /\ Z.pos m < 2 ^ 53 /\ (emin < e -> 2 ^ 52 <= Z.pos m).
Proof.
  unfold SpecFloat.bounded, canonical_mantissa, fexp, SpecFloat.emin, prec, emax, emin.
  intros H. apply andb_true_iff in H as [Hc He].
  apply Z.eqb_eq in Hc. apply Z.leb_le in He.
  pose proof (digits2_pos_bounds m) as [Hlo Hhi].
  assert (Z.pos (digits2_pos m) <= 53) as Hd by lia.
  repeat split; try lia.
  - eapply Z.lt_le_trans; [exact Hhi|]. apply Z.pow_le_mono_r; lia.
  - intros Hlt. assert (Z.pos (digits2_pos m) = 53) as Hd' by lia.
    rewrite Hd' in Hlo. exact Hlo.
Qed.

Lemma scaled_finite_bound (s : bool) (m : positive) (e : Z) :
  SpecFloat.bounded prec emax m e = true ->
  0 < Z.pos m * 2 ^ (e - emin) < beyond_finite.
Proof.
  intros H. apply bounded_spec in H as (He & Hm & _).
  assert (0 < 2 ^ (e - emin)) as Hp by (apply Z.pow_pos_nonneg; unfold emin in *; lia).
  split; [lia|]. unfold beyond_finite.
  assert (2 ^ (e - emin) <= 2 ^ 2047) as Hq
    by (apply Z.pow_le_mono_r; unfold emin in *; lia).
  replace 2100 with (53 + 2047) by reflexivity. rewrite Z.pow_add_r by lia.
  generalize dependent (2 ^ 2047). generalize dependent (2 ^ (e - emin)).
  generalize dependent (2 ^ 53). intros B Hm P Hp Q Hq.
  apply Z.lt_le_trans with (B * P).
  - apply Z.mul_lt_mono_pos_r; assumption.
  - apply Z.mul_le_mono_nonneg_l; lia.
Qed.

Lemma scaled_mantissa_order m1 e1 m2 e2 :
  SpecFloat.bounded prec emax m1 e1 = true -> SpecFloat.bounded prec emax m2 e2 = true ->
  e1 < e2 -> Z.pos m1 * 2 ^ (e1 - emin) < Z.pos m2 * 2 ^ (e2 - emin).
Proof.
  intros H1 H2 Hlt.
  apply bounded_spec in H1 as (He1 & Hm1 & _).
  apply bounded_spec in H2 as (He2 & _ & Hm2).
  specialize (Hm2 ltac:(lia)).
  replace (e2 - emin) with ((e2 - e1 - 1) + 1 + (e1 - emin)) by lia.
  rewrite !Z.pow_add_r by lia.
  assert (0 < 2 ^ (e1 - emin)) by (apply Z.pow_pos_nonneg; lia).
  assert (0 < 2 ^ (e2 - e1 - 1)) by (apply Z.pow_pos_nonneg; lia).
  change (2 ^ 1) with 2. change (2 ^ 53) with (2 * 2 ^ 52) in Hm1.
  set (P := 2 ^ (e1 - emin)) in *. set (Q := 2 ^ (e2 - e1 - 1)) in *.
  set (B := 2 ^ 52) in *.
  assert (Z.pos m1 * P < 2 * B * P) by (apply Z.mul_lt_mono_pos_r; lia).
  assert (2 * B * P <= 2 * Z.pos m2 * P) by (apply Z.mul_le_mono_nonneg_r; lia).
  assert (2 * Z.pos m2 * P * 1 <= 2 * Z.pos m2 * P * Q) by (apply Z.mul_le_mono_nonneg_l; lia).
  lia.
Qed.

Lemma compare_scaled (x y : double) :
  well_formed x -> well_formed y -> x <> S754_nan -> y <> S754_nan ->
  SFcompare x y = Some (scaled x ?= scaled y).
Proof.
  unfold well_formed.
  destruct x as [sx|sx| |sx mx ex], y as [sy|sy| |sy my ey];
    cbn [valid_binary]; intros Hx Hy Nx Ny; try congruence; cbn [SFcompare scaled].
  - reflexivity.
  - destruct sy; reflexivity.
  - pose proof (scaled_finite_bound sy my ey Hy). destruct sy; cbn [cond_Zopp]; f_equal; symmetry.
    + apply Z.compare_gt_iff. lia.
    + apply Z.compare_lt_iff. lia.
  - destruct sx; reflexivity.
  - destruct sx, sy; reflexivity.
  - pose proof (scaled_finite_bound sy my ey Hy). destruct sx, sy; cbn [cond_Zopp]; f_equal; symmetry;
      first [apply Z.compare_gt_iff; lia | apply Z.compare_lt_iff; lia].
  - pose proof (scaled_finite_bound sx mx ex Hx). destruct sx; cbn [cond_Zopp]; f_equal; symmetry.
    + apply Z.compare_lt_iff. lia.
    + apply Z.compare_gt_iff. lia.
  - pose proof (scaled_finite_bound sx mx ex Hx). destruct sx, sy; cbn [cond_Zopp]; f_equal; symmetry;
      first [apply Z.compare_gt_iff; lia | apply Z.compare_lt_iff; lia].
  - pose proof (scaled_finite_bound sx mx ex Hx) as Bx.
    pose proof (scaled_finite_bound sy my ey Hy) as By.
    f_equal. destruct sx, sy; cbn [cond_Zopp].
    + destruct (Z.compare_spec ex ey) as [E|E|E].
      * subst ey. change (Pos.compare_cont Eq mx my) with (Pos.compare mx my).
        assert (0 < 2 ^ (ex - emin)) by (apply Z.pow_pos_nonneg; apply bounded_spec in Hx; lia).
        destruct (Pos.compare_spec mx my) as [F|F|F]; cbn [CompOpp]; symmetry.
        -- subst. apply Z.compare_refl.
        -- apply Z.compare_gt_iff. nia.
        -- apply Z.compare_lt_iff. nia.
      * pose proof (scaled_mantissa_order _ _ _ _ Hx Hy E). symmetry. apply Z.compare_gt_iff. lia.
      * pose proof (scaled_mantissa_order _ _ _ _ Hy Hx E). symmetry. apply Z.compare_lt_iff. lia.
    + symmetry. apply Z.compare_lt_iff. lia.
    + symmetry. apply Z.compare_gt_iff. lia.
    + destruct (Z.compare_spec ex ey) as [E|E|E].
      * subst ey. change (Pos.compare_cont Eq mx my) with (Pos.compare mx my).
        assert (0 < 2 ^ (ex - emin)) by (apply Z.pow_pos_nonneg; apply bounded_spec in Hx; lia).
        destruct (Pos.compare_spec mx my) as [F|F|F]; symmetry.
        -- subst. apply Z.compare_refl.
        -- apply Z.compare_lt_iff. nia.
        -- apply Z.compare_gt_iff. nia.
      * pose proof (scaled_mantissa_order _ _ _ _ Hx Hy E). symmetry. apply Z.compare_lt_iff. lia.
      * pose proof (scaled_mantissa_order _ _ _ _ Hy Hx E). symmetry. apply Z.compare_gt_iff. lia.
Qed.

Lemma le_scaled (x y : double) :
  well_formed x -> well_formed y -> le x y -> scaled x <= scaled y.
Proof.
  intros Hx Hy H. unfold le in H.
  assert (x <> S754_nan /\ y <> S754_nan) as [Nx Ny].
  { split; intros ->; destruct H as [H|H]; try discriminate H;
      destruct x; discriminate H. }
  rewrite (compare_scaled x y Hx Hy Nx Ny) in H.
  destruct H as [H|H]; injection H as H.
  - apply -> Z.compare_lt_iff in H. lia.
  - apply Z.compare_eq_iff in H. lia.
Qed.

(** *** Signs of rounded results *)

Lemma binary_round_aux_cases s m e l :
  binary_round_aux prec emax s m e l = S754_zero s \/
  binary_round_aux prec emax s m e l = S754_infinity s \/
  binary_round_aux prec emax s m e l = S754_nan \/
  exists m' e', binary_round_aux prec emax s m e l = S754_finite s m' e'.
Proof.
  unfold binary_round_aux.
  destruct (shr_fexp prec emax m e l) as [mrs' e'].
  destruct (shr_fexp prec emax _ e' loc_Exact) as [mrs'' e''].
  destruct (shr_m mrs''); [left; reflexivity| |right; right; left; reflexivity].
  destruct (e'' <=? emax - prec); [right; right; right; eauto|right; left; reflexivity].
Qed.

Lemma binary_round_aux_not_negative m e l :
  ~ finite_negative (binary_round_aux prec emax false m e l).
Proof.
  intros (m' & e' & H).
  destruct (binary_round_aux_cases false m e l) as [E|[E|[E|(m'' & e'' & E)]]];
    rewrite E in H; discriminate H.
Qed.

Lemma binary_normalize_not_negative (n e : Z) :
  0 <= n -> ~ finite_negative (binary_normalize prec emax n e false).
Proof.
  intros Hn. destruct n as [|n|n]; [| |lia]; cbn [binary_normalize].
  - intros (m' & e' & H). discriminate H.
  - unfold binary_round. destruct (shl_align _ _ _) as [mz ez].
    apply binary_round_aux_not_negative.
Qed.

Lemma of_size_t_not_negative (n : Z) : 0 <= n -> ~ finite_negative (of_size_t n).
Proof. apply binary_normalize_not_negative. Qed.

Lemma shl_align_fst (m : positive) (e e' : Z) :
  e' <= e -> Z.pos (fst (shl_align m e e')) = Z.pos m * 2 ^ (e - e').
Proof.
  intros Hle. unfold shl_align.
  destruct (e' - e) as [|d|d] eqn:E; try lia.
  - replace (e - e') with 0 by lia. simpl. lia.
  - cbn [fst]. replace (e - e') with (Z.pos d) by lia.
    clear E Hle. revert m.
    induction d using Pos.peano_ind; intros m.
    + cbn [Pos.iter]. rewrite Pos2Z.inj_xO. change (2 ^ 1) with 2. lia.
    + rewrite Pos.iter_succ, Pos2Z.inj_xO, IHd, Pos2Z.inj_succ, Z.pow_succ_r by lia.
      lia.
Qed.

Lemma sub_not_negative (x y : double) :
  well_formed x -> well_formed y -> le y x -> ~ finite_negative (Double.sub x y).
Proof.
  intros Hx Hy Hle. pose proof (le_scaled y x Hy Hx Hle) as Hs.
  destruct x as [sx|sx| |sx mx ex], y as [sy|sy| |sy my ey];
    try (destruct Hle as [Hle|Hle]; discriminate Hle);
    intros (m & e & H); cbn [Double.sub SFsub] in H;
    try discriminate H; try (destruct sx, sy; discriminate H);
    try (destruct sx; discriminate H); try (destruct sy; discriminate H).
  - injection H as H _ _. destruct sy; [discriminate H|].
    pose proof (scaled_finite_bound false my ey Hy). cbn [scaled cond_Zopp] in Hs. lia.
  - injection H as H _ _. subst sx.
    pose proof (scaled_finite_bound true mx ex Hx). cbn [scaled cond_Zopp] in Hs. lia.
  - unfold Double.sub, SFsub in H.
    apply (binary_normalize_not_negative
             (cond_Zopp sx (Z.pos (fst (shl_align mx ex (Z.min ex ey)))) -
              cond_Zopp sy (Z.pos (fst (shl_align my ey (Z.min ex ey)))))
             (Z.min ex ey)); [|exists m, e; exact H].
    rewrite !shl_align_fst by lia.
    cbn [scaled] in Hs.
    apply bounded_spec in Hx as (Hex & _). apply bounded_spec in Hy as (Hey & _).
    set (ez := Z.min ex ey) in *.
    assert (0 < 2 ^ (ez - emin)) as Hp by (apply Z.pow_pos_nonneg; lia).
    replace (ex - emin) with ((ex - ez) + (ez - emin)) in Hs by lia.
    replace (ey - emin) with ((ey - ez) + (ez - emin)) in Hs by lia.
    rewrite !Z.pow_add_r in Hs by lia.
    assert (cond_Zopp sy (Z.pos my * 2 ^ (ey - ez)) * 2 ^ (ez - emin)
            <= cond_Zopp sx (Z.pos mx * 2 ^ (ex - ez)) * 2 ^ (ez - emin)) as Hc.
    { destruct sx, sy; cbn [cond_Zopp] in *; lia. }
    apply Z.mul_le_mono_pos_r in Hc; [|exact Hp].
    destruct sx, sy; cbn [cond_Zopp] in *; lia.
Qed.

Lemma div_not_negative (x y : double) :
  ~ finite_negative x -> ~ finite_negative y -> ~ finite_negative (Double.div x y).
Proof.
  intros Hx Hy (m & e & H).
  destruct x as [sx|sx| |sx mx ex], y as [sy|sy| |sy my ey];
    cbn [Double.div SFdiv] in H; try discriminate H.
  unfold Double.div, SFdiv in H.
  destruct (SFdiv_core_binary prec emax (Z.pos mx) ex (Z.pos my) ey) as [[mz ez] lz].
  destruct sx; [apply Hx; eexists _, _; reflexivity|].
  destruct sy; [apply Hy; eexists _, _; reflexivity|].
  apply (binary_round_aux_not_negative mz ez lz). exists m, e. exact H.
Qed.

Lemma le_trans_wf (x y z : double) :
  well_formed x -> well_formed y -> well_formed z -> le x y -> le y z -> le x z.
Proof.
  intros Hx Hy Hz Hxy Hyz.
  pose proof (le_scaled _ _ Hx Hy Hxy). pose proof (le_scaled _ _ Hy Hz Hyz).
  assert (x <> S754_nan) as Nx by (intros ->; destruct Hxy as [E|E]; discriminate E).
  assert (z <> S754_nan) as Nz.
  { intros ->; destruct Hyz as [E|E]; destruct y; discriminate E. }
  unfold le. rewrite (compare_scaled x z Hx Hz Nx Nz).
  destruct (Z.compare_spec (scaled x) (scaled z)); auto. lia.
Qed.

(** *** Rounding *)

Lemma fexp_eq (z : Z) : fexp prec emax z = Z.max (z - 53) emin.
Proof. reflexivity. Qed.

Lemma shr_1_m (mrs : shr_record) :
  0 <= shr_m mrs -> shr_m (shr_1 mrs) = shr_m mrs / 2.
Proof.
  destruct mrs as [m r s]. cbn [shr_m]. intros Hm.
  rewrite <- Z.div2_div. destruct m as [|[p|p|]|p]; try reflexivity. lia.
Qed.

Lemma pow2_xO (p : positive) : 2 ^ Z.pos p~0 = 2 ^ Z.pos p * 2 ^ Z.pos p.
Proof. rewrite <- Z.pow_add_r by lia. f_equal. lia. Qed.

Lemma pow2_xI (p : positive) : 2 ^ Z.pos p~1 = 2 * (2 ^ Z.pos p * 2 ^ Z.pos p).
Proof.
  rewrite <- Z.pow_add_r, <- Z.pow_succ_r by lia. f_equal. lia.
Qed.

Lemma iter_shr_1_m (p : positive) : forall mrs : shr_record,
  0 <= shr_m mrs ->
  shr_m (SpecFloat.iter_pos shr_1 p mrs) = shr_m mrs / 2 ^ Z.pos p.
Proof.
  induction p as [p IH|p IH|]; intros mrs Hm; cbn [SpecFloat.iter_pos].
  - assert (0 <= shr_m (shr_1 mrs)) as H1.
    { rewrite shr_1_m by assumption. apply Z.div_pos; lia. }
    assert (0 <= shr_m (SpecFloat.iter_pos shr_1 p (shr_1 mrs))) as H2.
    { rewrite IH by assumption. apply Z.div_pos; [assumption|]. apply Z.pow_pos_nonneg; lia. }
    assert (0 < 2 ^ Z.pos p) by (apply Z.pow_pos_nonneg; lia).
    rewrite IH, IH, shr_1_m by assumption.
    rewrite !Z.div_div by lia. rewrite pow2_xI. f_equal; lia.
  - assert (0 <= shr_m (SpecFloat.iter_pos shr_1 p mrs)) as H2.
    { rewrite IH by assumption. apply Z.div_pos; [assumption|]. apply Z.pow_pos_nonneg; lia. }
    assert (0 < 2 ^ Z.pos p) by (apply Z.pow_pos_nonneg; lia).
    rewrite IH, IH by assumption.
    rewrite !Z.div_div by lia. rewrite pow2_xO. reflexivity.
  - apply shr_1_m. assumption.
Qed.

Lemma shr_record_of_loc_m (m : Z) (l : location) :
  shr_m (shr_record_of_loc m l) = m.
Proof. destruct l as [|[ | | ]]; reflexivity. Qed.

Lemma shr_fexp_spec (m e : Z) (l : location) :
  0 <= m ->
  shr_m (fst (shr_fexp prec emax m e l)) = m / 2 ^ shift_of m e /\
  snd (shr_fexp prec emax m e l) = e + shift_of m e.
Proof.
  intros Hm. unfold shr_fexp, shr, shift_of.
  destruct (fexp prec emax (Zdigits2 m + e) - e) as [|p|p] eqn:E; cbn [fst snd].
  - rewrite shr_record_of_loc_m. cbn. rewrite Z.div_1_r. lia.
  - rewrite iter_shr_1_m by (rewrite shr_record_of_loc_m; assumption).
    rewrite shr_record_of_loc_m. rewrite Z.max_r by lia. split; reflexivity.
  - rewrite shr_record_of_loc_m. rewrite Z.max_l by lia.
    cbn. rewrite Z.div_1_r. lia.
Qed.

Lemma round_nearest_even_range (m : Z) (l : location) :
  m <= round_nearest_even m l <= m + 1.
Proof.
  unfold round_nearest_even. destruct l as [|[ | | ]]; try lia.
  destruct (Z.even m); lia.
Qed.

Lemma shifted_shr_1 (m k : Z) (mrs : shr_record) :
  0 <= k -> shifted m k mrs -> shifted m (k + 1) (shr_1 mrs).
Proof.
  intros Hk (Hm & rem & Hdec & Hrem & Hloc).
  assert (0 < 2 ^ k) as Hp by (apply Z.pow_pos_nonneg; lia).
  destruct mrs as [mm r s]. cbn [shr_m] in *.
  assert (rem = 0 <-> orb r s = false) as Hexact.
  { destruct r, s; cbn [loc_of_shr_record location_of orb] in *;
      intuition (try lia; try congruence). }
  assert (forall half (b : bool),
             mm = 2 * half + (if b then 1 else 0) -> 0 <= half ->
             shifted m (k + 1) (Build_shr_record half b (orb r s))) as Hgen.
  { intros half b Hmm Hhalf. split; [exact Hhalf|].
    exists (rem + (if b then 2 ^ k else 0)). cbn [shr_m].
    rewrite Z.pow_add_r by lia. change (2 ^ 1) with 2.
    split; [destruct b; nia|]. split; [destruct b; lia|].
    destruct b, (orb r s) eqn:Ers; cbn [loc_of_shr_record location_of];
      rewrite ?Z.pow_add_r by lia; change (2 ^ 1) with 2.
    - assert (rem <> 0) by (intros E; apply Hexact in E; congruence).
      split; [lia|]. apply Z.compare_gt_iff. lia.
    - assert (rem = 0) by (apply Hexact; reflexivity).
      split; [lia|]. apply Z.compare_eq_iff. lia.
    - assert (rem <> 0) by (intros E; apply Hexact in E; congruence).
      split; [lia|]. apply Z.compare_lt_iff. lia.
    - assert (rem = 0) by (apply Hexact; reflexivity). lia. }
  destruct mm as [|[p|p|]|p]; cbn [shr_1]; try lia.
  - apply (Hgen 0 false); lia.
  - apply (Hgen (Z.pos p) true); lia.
  - apply (Hgen (Z.pos p) false); lia.
  - apply (Hgen 0 true); lia.
Qed.

Lemma shifted_iter (m : Z) (p : positive) : forall (k : Z) (mrs : shr_record),
  0 <= k -> shifted m k mrs ->
  shifted m (k + Z.pos p) (SpecFloat.iter_pos shr_1 p mrs).
Proof.
  induction p as [p IH|p IH|]; intros k mrs Hk H; cbn [SpecFloat.iter_pos].
  - replace (k + Z.pos p~1) with (k + 1 + Z.pos p + Z.pos p) by lia.
    apply IH; [lia|]. apply IH; [lia|]. apply shifted_shr_1; assumption.
  - replace (k + Z.pos p~0) with (k + Z.pos p + Z.pos p) by lia.
    apply IH; [lia|]. apply IH; assumption.
  - apply shifted_shr_1; assumption.
Qed.

Lemma shr_fexp_exact_shifted (m e : Z) :
  0 <= m ->
  shifted m (shift_of m e) (fst (shr_fexp prec emax m e loc_Exact)).
Proof.
  intros Hm. unfold shr_fexp, shr, shift_of.
  assert (shifted m 0 (shr_record_of_loc m loc_Exact)) as H0.
  { split; [exact Hm|]. exists 0. cbn. split; [lia|]. split; [lia|reflexivity]. }
  destruct (fexp prec emax (Zdigits2 m + e) - e) as [|p|p] eqn:E; cbn [fst].
  - exact H0.
  - rewrite Z.max_r by lia. apply (shifted_iter m p 0); [lia|exact H0].
  - rewrite Z.max_l by lia. exact H0.
Qed.

(** The direction in which a multiple of a power of two is rounded: up
    only from the half of the last place on, down only up to this half,
    and from the half itself only to an even mantissa. *)
Lemma round_nearest_even_direction (m k : Z) (mrs : shr_record) :
  shifted m k mrs ->
  let m2 := round_nearest_even (shr_m mrs) (loc_of_shr_record mrs) in
  exists rem,
    m = shr_m mrs * 2 ^ k + rem /\ 0 <= rem < 2 ^ k /\
    (m2 = shr_m mrs + 1 -> 2 ^ k <= 2 * rem) /\
    (m2 = shr_m mrs -> 2 * rem <= 2 ^ k /\ (2 * rem = 2 ^ k -> Z.even (shr_m mrs) = true)).
Proof.
  intros (Hm & rem & Hdec & Hrem & Hloc) m2. exists rem.
  split; [exact Hdec|]. split; [exact Hrem|]. unfold m2.
  destruct (loc_of_shr_record mrs) as [|[ | | ]]; cbn [location_of round_nearest_even] in *.
  - split; [intros; lia|]. intros _. split; [lia|intros; lia].
  - destruct Hloc as [Hpos Hc]. rewrite Z.compare_eq_iff in Hc.
    destruct (Z.even (shr_m mrs)) eqn:Ev.
    + split; [intros; lia|]. intros _. split; [lia|reflexivity].
    + split; intros; lia.
  - destruct Hloc as [Hpos Hc]. rewrite Z.compare_lt_iff in Hc.
    split; [intros; lia|]. intros _. split; [lia|intros; lia].
  - destruct Hloc as [Hpos Hc]. rewrite Z.compare_gt_iff in Hc. split; intros; lia.
Qed.

Lemma binary_round_aux_spec (s : bool) (mx ex : Z) (lx : location) :
  0 <= mx ->
  exists m2 : Z,
    let k := shift_of mx ex in
    let m1 := mx / 2 ^ k in
    let e1 := ex + k in
    let m3 := m2 / 2 ^ shift_of m2 e1 in
    let e3 := e1 + shift_of m2 e1 in
    m1 <= m2 <= m1 + 1 /\
    (lx = loc_Exact ->
     exists rem,
       mx = m1 * 2 ^ k + rem /\ 0 <= rem < 2 ^ k /\
       (m2 = m1 + 1 -> 2 ^ k <= 2 * rem) /\
       (m2 = m1 -> 2 * rem <= 2 ^ k /\ (2 * rem = 2 ^ k -> Z.even m1 = true))) /\
    binary_round_aux prec emax s mx ex lx =
      match m3 with
      | Z0 => S754_zero s
      | Z.pos m => if e3 <=? emax - prec then S754_finite s m e3 else S754_infinity s
      | Z.neg _ => S754_nan
      end.
Proof.
  intros Hm. unfold binary_round_aux.
  pose proof (shr_fexp_spec mx ex lx Hm) as [H1 H2].
  pose proof (shr_fexp_exact_shifted mx ex Hm) as Hshifted.
  destruct (shr_fexp prec emax mx ex lx) as [mrs' e'] eqn:E1. cbn [fst snd] in *.
  set (m2 := round_nearest_even (shr_m mrs') (loc_of_shr_record mrs')).
  exists m2. cbv zeta.
  pose proof (round_nearest_even_range (shr_m mrs') (loc_of_shr_record mrs')) as Hr.
  fold m2 in Hr. rewrite H1 in Hr.
  assert (0 <= m2) as Hm2.
  { assert (0 <= mx / 2 ^ shift_of mx ex); [|lia].
    apply Z.div_pos; [assumption|]. apply Z.pow_pos_nonneg; [lia|]. unfold shift_of. lia. }
  pose proof (shr_fexp_spec m2 e' loc_Exact Hm2) as [H3 H4].
  destruct (shr_fexp prec emax m2 e' loc_Exact) as [mrs'' e''] eqn:E2. cbn [fst snd] in *.
  subst e' e''. rewrite H3.
  split; [exact Hr|]. split; [|reflexivity].
  intros ->. rewrite E1 in Hshifted. cbn [fst] in Hshifted.
  pose proof (round_nearest_even_direction mx (shift_of mx ex) mrs' Hshifted) as Hdir.
  cbv zeta in Hdir. fold m2 in Hdir. rewrite H1 in Hdir. exact Hdir.
Qed.

(** *** Real values *)

Lemma pow2_pos (e : Z) : (0 < pow2 e)%R.
Proof. apply powerRZ_lt. lra. Qed.

Lemma pow2_add (a b : Z) : pow2 (a + b) = (pow2 a * pow2 b)%R.
Proof. apply powerRZ_add. lra. Qed.

Lemma pow2_IZR (n : Z) : 0 <= n -> pow2 n = IZR (2 ^ n).
Proof.
  intros Hn. destruct n as [|p|p]; [reflexivity| |lia].
  unfold pow2. change (2 ^ Z.pos p) with (Z.pow_pos 2 p).
  rewrite Zpower_pos_powerRZ. reflexivity.
Qed.

Lemma pow2_double (e : Z) : (pow2 e + pow2 e = pow2 (e + 1))%R.
Proof. rewrite pow2_add, (pow2_IZR 1) by lia. change (IZR (2 ^ 1)) with 2%R. ring. Qed.

Lemma pow2_le (a b : Z) : a <= b -> (pow2 a <= pow2 b)%R.
Proof.
  intros H. replace b with (a + (b - a)) by lia. rewrite pow2_add.
  rewrite (pow2_IZR (b - a)) by lia.
  assert (1 <= 2 ^ (b - a)) as H1.
  { assert (0 < 2 ^ (b - a)) by (apply Z.pow_pos_nonneg; lia). lia. }
  apply IZR_le in H1. pose proof (pow2_pos a). nra.
Qed.

Lemma pow2_lt_inv (a b : Z) : (pow2 a < pow2 b)%R -> a < b.
Proof.
  intros H. destruct (Z.lt_ge_cases a b) as [|Hge]; [assumption|].
  apply pow2_le in Hge. lra.
Qed.

Lemma shift_bracket (m e k : Z) :
  0 <= m -> 0 <= k ->
  (IZR (m / 2 ^ k) * pow2 (e + k) <= IZR m * pow2 e)%R /\
  (IZR (m + 1) * pow2 e <= IZR (m / 2 ^ k + 1) * pow2 (e + k))%R.
Proof.
  intros Hm Hk. rewrite pow2_add, (pow2_IZR k) by assumption.
  assert (0 < 2 ^ k) as Hp by (apply Z.pow_pos_nonneg; lia).
  pose proof (Z.div_mod m (2 ^ k) ltac:(lia)) as Hdm.
  pose proof (Z.mod_pos_bound m (2 ^ k) Hp) as Hmod.
  assert (m / 2 ^ k * 2 ^ k <= m) as H1 by lia.
  assert (m + 1 <= (m / 2 ^ k + 1) * 2 ^ k) as H2 by lia.
  apply IZR_le in H1, H2. rewrite mult_IZR in H1, H2.
  pose proof (pow2_pos e). split; nra.
Qed.

Lemma digits_pow2 (m : positive) (e : Z) :
  (pow2 (Z.pos (digits2_pos m) - 1 + e) <= IZR (Z.pos m) * pow2 e
     < pow2 (Z.pos (digits2_pos m) + e))%R.
Proof.
  pose proof (digits2_pos_bounds m) as [Hlo Hhi].
  rewrite !pow2_add.
  rewrite (pow2_IZR (Z.pos (digits2_pos m) - 1)), (pow2_IZR (Z.pos (digits2_pos m))) by lia.
  apply IZR_le in Hlo. apply IZR_lt in Hhi. pose proof (pow2_pos e). split; nra.
Qed.

Lemma shift_of_nonneg (m e : Z) : 0 <= shift_of m e.
Proof. unfold shift_of. lia. Qed.

(** A mantissa that is shifted at an exponent of the format keeps 53
    digits. *)
Lemma shift_normal (m : positive) (e : Z) :
  emin <= e -> 0 < shift_of (Z.pos m) e ->
  2 ^ 52 <= Z.pos m / 2 ^ shift_of (Z.pos m) e /\
  shift_of (Z.pos m) e = Z.pos (digits2_pos m) - 53.
Proof.
  unfold shift_of. rewrite fexp_eq. cbn [Zdigits2]. intros He Hs.
  set (d := Z.pos (digits2_pos m)) in *.
  assert (Z.max 0 (Z.max (d + e - 53) emin - e) = d - 53) as -> by lia.
  split; [|reflexivity].
  pose proof (digits2_pos_bounds m) as [Hlo _]. fold d in Hlo.
  replace (d - 1) with (52 + (d - 53)) in Hlo by lia.
  rewrite Z.pow_add_r in Hlo by lia.
  apply Z.div_le_lower_bound; [apply Z.pow_pos_nonneg; lia|]. lia.
Qed.

(** The relations between the real values of the stages of
    [binary_round_aux]. *)
Lemma binary_round_aux_stages (mx ex m2 : Z) :
  0 <= mx ->
  let m1 := mx / 2 ^ shift_of mx ex in
  let e1 := ex + shift_of mx ex in
  let m3 := m2 / 2 ^ shift_of m2 e1 in
  let e3 := e1 + shift_of m2 e1 in
  m1 <= m2 <= m1 + 1 ->
  (IZR m1 * pow2 e1 <= IZR mx * pow2 ex)%R /\
  (IZR (mx + 1) * pow2 ex <= IZR (m1 + 1) * pow2 e1)%R /\
  (IZR m3 * pow2 e3 <= IZR (m1 + 1) * pow2 e1)%R /\
  (IZR (m1 + 1) * pow2 e1 <= IZR (m3 + 1) * pow2 e3)%R /\
  (IZR m3 * pow2 e3 <= IZR m2 * pow2 e1)%R /\
  0 <= m1 /\ 0 <= m3.
Proof.
  intros Hm m1 e1 m3 e3 Hm2.
  assert (0 <= m1) as Hm1.
  { apply Z.div_pos; [assumption|]. apply Z.pow_pos_nonneg; [lia|apply shift_of_nonneg]. }
  assert (0 <= m3) as Hm3.
  { apply Z.div_pos; [lia|]. apply Z.pow_pos_nonneg; [lia|apply shift_of_nonneg]. }
  destruct (shift_bracket mx ex (shift_of mx ex) Hm (shift_of_nonneg _ _)) as [A1 A2].
  destruct (shift_bracket m2 e1 (shift_of m2 e1) ltac:(lia) (shift_of_nonneg _ _)) as [B1 B2].
  fold m1 e1 in A1, A2. fold m3 e3 in B1, B2.
  pose proof (pow2_pos e1) as P1.
  assert (IZR m2 <= IZR (m1 + 1))%R as C2 by (apply IZR_le; lia).
  assert (IZR (m1 + 1) <= IZR (m2 + 1))%R as C3 by (apply IZR_le; lia).
  split; [exact A1|]. split; [exact A2|].
  split; [|split; [|split; [exact B1|split; assumption]]].
  - apply Rle_trans with (1 := B1). apply Rmult_le_compat_r; lra.
  - apply Rle_trans with (2 := B2). apply Rmult_le_compat_r; lra.
Qed.

Lemma Zdigits2_bound (m k : Z) : 0 <= m -> 0 <= k -> m < 2 ^ k -> Zdigits2 m <= k.
Proof.
  intros Hm Hk H. destruct m as [|p|p]; cbn [Zdigits2]; try lia.
  pose proof (digits2_pos_bounds p) as [Hlo _].
  destruct (Z.le_gt_cases (Z.pos (digits2_pos p)) k) as [|Hgt]; [assumption|].
  assert (2 ^ k <= 2 ^ (Z.pos (digits2_pos p) - 1)) by (apply Z.pow_le_mono_r; lia).
  lia.
Qed.

Lemma Zdigits2_upper (m : Z) : 0 <= m -> m < 2 ^ Zdigits2 m.
Proof.
  intros Hm. destruct m as [|p|p]; cbn [Zdigits2]; try lia.
  apply digits2_pos_bounds.
Qed.

Lemma Zdigits2_nonneg (m : Z) : 0 <= Zdigits2 m.
Proof. destruct m; cbn [Zdigits2]; lia. Qed.

(** After the first shift the mantissa has at most 53 digits and the
    exponent is one of the format. *)
Lemma first_shift_bounds (mx ex : Z) :
  0 <= mx ->
  mx / 2 ^ shift_of mx ex < 2 ^ 53 /\ emin <= ex + shift_of mx ex.
Proof.
  intros Hm. unfold shift_of. rewrite fexp_eq.
  pose proof (Zdigits2_upper mx Hm) as Hd. pose proof (Zdigits2_nonneg mx) as Hn.
  set (d := Zdigits2 mx) in *.
  set (k := Z.max 0 (Z.max (d + ex - 53) emin - ex)).
  assert (0 <= k) by lia. assert (d - 53 <= k) by lia.
  split; [|lia].
  apply Z.div_lt_upper_bound; [apply Z.pow_pos_nonneg; lia|].
  rewrite <- Z.pow_add_r by lia.
  eapply Z.lt_le_trans; [exact Hd|]. apply Z.pow_le_mono_r; lia.
Qed.

(** The second shift is by one place at most, and loses nothing. *)
Lemma second_shift_exact (m2 e1 : Z) :
  0 <= m2 <= 2 ^ 53 -> emin <= e1 ->
  (shift_of m2 e1 = 0 /\ m2 < 2 ^ 53) \/
  (shift_of m2 e1 = 1 /\ m2 = 2 ^ 53).
Proof.
  intros [Hlo Hhi] He. unfold shift_of. rewrite fexp_eq.
  destruct (Z.eq_dec m2 (2 ^ 53)) as [->|Hne].
  - right. split; [|reflexivity]. change (Zdigits2 (2 ^ 53)) with 54. lia.
  - left. split; [|lia].
    pose proof (Zdigits2_bound m2 53 Hlo ltac:(lia) ltac:(lia)). lia.
Qed.

Lemma binary_round_aux_value (s : bool) (mx ex : Z) (lx : location) :
  0 <= mx ->
  let k := shift_of mx ex in
  let m1 := mx / 2 ^ k in
  let e1 := ex + k in
  exists m2 m3 e3 : Z,
    m1 <= m2 <= m1 + 1 /\
    (lx = loc_Exact ->
     exists rem,
       mx = m1 * 2 ^ k + rem /\ 0 <= rem < 2 ^ k /\
       (m2 = m1 + 1 -> 2 ^ k <= 2 * rem) /\
       (m2 = m1 -> 2 * rem <= 2 ^ k /\ (2 * rem = 2 ^ k -> Z.even m1 = true))) /\
    ((m3 = m2 /\ e3 = e1 /\ m2 < 2 ^ 53) \/
     (m3 = 2 ^ 52 /\ e3 = e1 + 1 /\ m2 = 2 ^ 53)) /\
    emin <= e1 /\ m1 < 2 ^ 53 /\
    (IZR m3 * pow2 e3 = IZR m2 * pow2 e1)%R /\
    binary_round_aux prec emax s mx ex lx =
      match m3 with
      | Z0 => S754_zero s
      | Z.pos m => if e3 <=? emax - prec then S754_finite s m e3 else S754_infinity s
      | Z.neg _ => S754_nan
      end.
Proof.
  intros Hm k m1 e1.
  destruct (binary_round_aux_spec s mx ex lx Hm) as (m2 & Hr & Hdir & Hres).
  cbv zeta in Hres, Hdir. fold k m1 e1 in Hr, Hres, Hdir.
  destruct (first_shift_bounds mx ex Hm) as [Hb1 He1]. fold k m1 e1 in Hb1, He1.
  assert (0 <= m1) as Hm1.
  { apply Z.div_pos; [assumption|]. apply Z.pow_pos_nonneg; [lia|apply shift_of_nonneg]. }
  exists m2, (m2 / 2 ^ shift_of m2 e1), (e1 + shift_of m2 e1).
  split; [exact Hr|]. split; [exact Hdir|].
  destruct (second_shift_exact m2 e1 ltac:(lia) He1) as [[Hs Hlt]|[Hs Heq]]; rewrite Hs.
  - change (2 ^ 0) with 1. rewrite Z.div_1_r, Z.add_0_r.
    split; [left; repeat split; lia|]. split; [exact He1|]. split; [exact Hb1|].
    split; [reflexivity|].
    rewrite Hs, Z.add_0_r in Hres.
    change (2 ^ 0) with 1 in Hres. rewrite Z.div_1_r in Hres. exact Hres.
  - subst m2. change (2 ^ 53 / 2 ^ 1) with (2 ^ 52).
    split; [right; repeat split; lia|]. split; [exact He1|]. split; [exact Hb1|]. split.
    + rewrite pow2_add, (pow2_IZR 1) by lia. change (2 ^ 1) with 2.
      change (2 ^ 53) with (2 ^ 52 * 2). rewrite mult_IZR. lra.
    + rewrite Hs in Hres. exact Hres.
Qed.

Lemma eps_pos : (0 < eps)%R.
Proof. apply pow2_pos. Qed.

Lemma pow2_52_eps : (pow2 52 * eps = 1)%R.
Proof. unfold eps. rewrite <- pow2_add. reflexivity. Qed.

(** A mantissa of at least 2^52 makes one unit in its last place at most
    2^-52 of the value. *)
Lemma ulp_le_eps (m e : Z) :
  2 ^ 52 <= m -> (pow2 e <= IZR m * pow2 e * eps)%R.
Proof.
  intros H. apply IZR_le in H. rewrite <- (pow2_IZR 52) in H by lia.
  pose proof (pow2_pos e). pose proof eps_pos. pose proof pow2_52_eps.
  assert (pow2 e * (pow2 52 * eps) <= pow2 e * (IZR m * eps))%R; [|nra].
  apply Rmult_le_compat_l; [lra|]. apply Rmult_le_compat_r; lra.
Qed.

Lemma pow2_53_971 : (IZR (2 ^ 53) * pow2 971 = pow2 1024)%R.
Proof. rewrite <- (pow2_IZR 53), <- pow2_add by lia. reflexivity. Qed.

Lemma pow2_971 : (pow2 971 = 2 * pow2 970)%R.
Proof. pose proof (pow2_double 970) as H. change (970 + 1) with 971 in H. lra. Qed.

(** A mantissa below 2^53 - 1/2 at an exponent of at most 971 lies below
    the threshold. *)
Lemma below_threshold (t e : Z) (h : R) :
  t <= 2 ^ 53 - 1 -> e <= 971 -> (0 <= h)%R -> (2 * h < pow2 e)%R ->
  (IZR t * pow2 e + h < overflow_threshold)%R.
Proof.
  intros Ht He Hh0 Hh. unfold overflow_threshold.
  apply IZR_le in Ht. rewrite minus_IZR in Ht.
  pose proof (pow2_le e 971 He) as Hp. pose proof (pow2_pos e) as Pe.
  pose proof pow2_53_971 as H1024. pose proof pow2_971 as H971.
  pose proof (pow2_pos 970) as P970.
  assert (IZR t * pow2 e <= (IZR (2 ^ 53) - 1) * pow2 e)%R
    by (apply Rmult_le_compat_r; lra).
  assert (0 < IZR (2 ^ 53) - 1)%R.
  { assert (IZR 2 <= IZR (2 ^ 53))%R by (apply IZR_le; lia). lra. }
  assert ((IZR (2 ^ 53) - 1) * pow2 e + pow2 e / 2
          <= (IZR (2 ^ 53) - 1) * pow2 971 + pow2 971 / 2)%R.
  { assert ((IZR (2 ^ 53) - 1) * pow2 e <= (IZR (2 ^ 53) - 1) * pow2 971)%R
      by (apply Rmult_le_compat_l; lra).
    lra. }
  lra.
Qed.

Lemma binary_round_aux_exact_input (s : bool) (mz : positive) (ez : Z) :
  emin <= ez <= 971 ->
  let r := (IZR (Z.pos mz) * pow2 ez)%R in
  let z := binary_round_aux prec emax s (Z.pos mz) ez loc_Exact in
  (z = S754_infinity s /\ (overflow_threshold <= r)%R) \/
  (exists m e,
      z = S754_finite s m e /\
      (IZR (Z.pos m) * pow2 e <= r * (1 + eps))%R /\
      (r <= IZR (Z.pos m) * pow2 e * (1 + eps))%R /\
      (shift_of (Z.pos mz) ez = 0 -> (IZR (Z.pos m) * pow2 e = r)%R) /\
      (r < overflow_threshold)%R).
Proof.
  intros He r z.
  destruct (binary_round_aux_value s (Z.pos mz) ez loc_Exact ltac:(lia))
    as (m2 & m3 & e3 & Hr & Hdir & Hsecond & He1 & Hb1 & Hv & Hres).
  fold z in Hres.
  destruct (Hdir eq_refl) as (rem & Hdec & Hrem & Hup & Hdown). clear Hdir.
  destruct (binary_round_aux_stages (Z.pos mz) ez m2 ltac:(lia) Hr)
    as (S1 & S2 & _ & _ & _ & Hm1 & _).
  set (k := shift_of (Z.pos mz) ez) in *.
  set (m1 := Z.pos mz / 2 ^ k) in *. set (e1 := ez + k) in *.
  fold r in S1.
  pose proof eps_pos as Heps. pose proof (pow2_pos e1) as P1.
  pose proof (shift_of_nonneg (Z.pos mz) ez) as Hk0. fold k in Hk0.
  assert (0 < r)%R as Hrpos.
  { unfold r. apply Rmult_lt_0_compat; [apply IZR_lt; lia|apply pow2_pos]. }
  (* r as the first mantissa and what was shifted out *)
  set (h := (IZR rem * pow2 ez)%R).
  assert (r = IZR m1 * pow2 e1 + h)%R as Hrh.
  { unfold r, h, e1. rewrite Hdec, plus_IZR, mult_IZR, pow2_add, (pow2_IZR k) by lia. ring. }
  assert (0 <= h)%R as Hh0.
  { unfold h. apply Rmult_le_pos; [apply IZR_le; lia|pose proof (pow2_pos ez); lra]. }
  assert (forall a b : Z, a <= b -> (IZR a * pow2 ez <= IZR b * pow2 ez)%R) as Hmono.
  { intros a b Hab. apply Rmult_le_compat_r; [pose proof (pow2_pos ez); lra|].
    apply IZR_le. assumption. }
  assert (IZR (2 ^ k) * pow2 ez = pow2 e1)%R as Hke.
  { unfold e1. rewrite pow2_add, (pow2_IZR k) by lia. ring. }
  assert (m2 = m1 + 1 -> (pow2 e1 <= 2 * h)%R) as Hup'.
  { intros E. specialize (Hup E). apply Hmono in Hup.
    rewrite Hke, mult_IZR in Hup. unfold h. lra. }
  assert (m2 = m1 -> (2 * h <= pow2 e1)%R) as Hdown'.
  { intros E. destruct (Hdown E) as [Hd _]. apply Hmono in Hd.
    rewrite Hke, mult_IZR in Hd. unfold h. lra. }
  assert (m2 = m1 -> m1 = 2 ^ 53 - 1 -> (2 * h < pow2 e1)%R) as Hdown_odd.
  { intros E Hodd. destruct (Hdown E) as [Hd Htie].
    destruct (Z.eq_dec (2 * rem) (2 ^ k)) as [Heq|Hne].
    - specialize (Htie Heq). rewrite Hodd in Htie. discriminate Htie.
    - assert (2 * rem + 1 <= 2 ^ k) as Hlt by lia. apply Hmono in Hlt.
      rewrite Hke, plus_IZR, mult_IZR in Hlt. pose proof (pow2_pos ez). unfold h. lra. }
  (* the rounded value m2 * 2^e1 against r *)
  assert ((IZR m2 * pow2 e1 <= r * (1 + eps))%R /\
          (r <= IZR m2 * pow2 e1 * (1 + eps))%R /\
          (k = 0 -> (IZR m2 * pow2 e1 = r)%R) /\
          (0 < k -> 2 ^ 52 <= m2)) as (U & L & X & Hnormal).
  { destruct (Z.eq_dec k 0) as [Hk|Hk].
    - assert (rem = 0) as -> by (rewrite Hk in Hrem; change (2 ^ 0) with 1 in Hrem; lia).
      assert (m2 = m1) as ->.
      { destruct (Z.eq_dec m2 m1) as [|Hne]; [assumption|].
        assert (m2 = m1 + 1) as E by lia. specialize (Hup E). rewrite Hk in Hup. simpl in Hup. lia. }
      assert (h = 0)%R as Hh by (unfold h; simpl; ring).
      rewrite Hrh, Hh. repeat split; try nra. lia.
    - assert (0 < k) as Hkpos by lia.
      destruct (shift_normal mz ez ltac:(lia) Hkpos) as [Hn _]. fold k m1 in Hn.
      pose proof (ulp_le_eps m1 e1 Hn) as Hu.
      assert (IZR m1 <= IZR m2 <= IZR m1 + 1)%R as [C1 C2].
      { split; [apply IZR_le; lia|]. rewrite <- plus_IZR. apply IZR_le. lia. }
      rewrite plus_IZR in S2. rewrite plus_IZR in S2.
      assert (r < (IZR m1 + 1) * pow2 e1)%R as Hlt.
      { eapply Rlt_le_trans; [|exact S2]. unfold r. pose proof (pow2_pos ez). nra. }
      set (a := (IZR m1 * pow2 e1)%R) in *.
      set (b := (IZR m2 * pow2 e1)%R).
      assert (a <= b)%R as Hab by (apply Rmult_le_compat_r; lra).
      assert (b <= a + pow2 e1)%R as Hba.
      { unfold a, b. replace (IZR m1 * pow2 e1 + pow2 e1)%R
          with ((IZR m1 + 1) * pow2 e1)%R by ring.
        apply Rmult_le_compat_r; lra. }
      assert (r < a + pow2 e1)%R as Hra.
      { replace (a + pow2 e1)%R with ((IZR m1 + 1) * pow2 e1)%R by (unfold a; ring).
        exact Hlt. }
      assert (a * eps <= r * eps)%R by (apply Rmult_le_compat_r; lra).
      assert (a * eps <= b * eps)%R by (apply Rmult_le_compat_r; lra).
      repeat split; try lra; try lia. }
  pose proof pow2_53_971 as H1024. pose proof pow2_971 as H971.
  pose proof (pow2_pos 970) as P970.
  destruct Hsecond as [(-> & -> & Hlt)|(-> & -> & ->)].
  - destruct m2 as [|p|p]; [|clear Hv|lia].
    + exfalso. nra.
    + destruct (Z.leb_spec e1 (emax - prec)) as [Hle|Hgt].
      * right. exists p, e1. repeat split; try assumption.
        unfold emax, prec in Hle.
        destruct (Z.eq_dec (Z.pos p) m1) as [E|Hne].
        -- destruct (Z.eq_dec m1 (2 ^ 53 - 1)) as [Hodd|Hnodd].
           ++ rewrite Hrh. apply below_threshold; try lia; try assumption.
              apply Hdown_odd; assumption.
           ++ specialize (Hdown' E). rewrite Hrh.
              assert (IZR (m1 + 1) * pow2 e1 + 0 < overflow_threshold)%R as Hb.
              { apply below_threshold; try lia; lra. }
              rewrite plus_IZR in Hb. lra.
        -- assert (Z.pos p = m1 + 1) as E by lia.
           assert (r < IZR (Z.pos p) * pow2 e1)%R as Hrp.
           { rewrite E. eapply Rlt_le_trans; [|exact S2]. unfold r.
             rewrite plus_IZR. pose proof (pow2_pos ez). nra. }
           assert (IZR (Z.pos p) * pow2 e1 + 0 < overflow_threshold)%R as Hb.
           { apply below_threshold; try lia; lra. }
           lra.
      * left. split; [assumption|].
        assert (0 < k) as Hkpos by (unfold e1, emax, prec in *; lia).
        specialize (Hnormal Hkpos).
        assert (pow2 1024 <= IZR (Z.pos p) * pow2 e1)%R as Hbig.
        { replace 1024 with (52 + 972) by reflexivity. rewrite pow2_add.
          apply IZR_le in Hnormal. rewrite <- (pow2_IZR 52) in Hnormal by lia.
          assert (pow2 972 <= pow2 e1)%R by (apply pow2_le; unfold emax, prec in *; lia).
          pose proof (pow2_pos 972). pose proof (pow2_pos 52).
          apply Rmult_le_compat; lra. }
        (* the first mantissa already reaches 2^1024 *)
        destruct (shift_normal mz ez ltac:(lia) Hkpos) as [Hn _]. fold k m1 in Hn.
        assert (pow2 1024 <= IZR m1 * pow2 e1)%R as Hbig1.
        { replace 1024 with (52 + 972) by reflexivity. rewrite pow2_add.
          apply IZR_le in Hn. rewrite <- (pow2_IZR 52) in Hn by lia.
          assert (pow2 972 <= pow2 e1)%R by (apply pow2_le; unfold emax, prec in *; lia).
          pose proof (pow2_pos 972). pose proof (pow2_pos 52).
          apply Rmult_le_compat; lra. }
        unfold overflow_threshold. lra.
  - rewrite <- Hv in U, L, X.
    assert (m1 = 2 ^ 53 - 1) as Hm1eq by lia.
    assert (2 ^ 53 = m1 + 1) as Hm2eq by lia.
    change (2 ^ 52) with (Z.pos 4503599627370496) in *.
    destruct (Z.leb_spec (e1 + 1) (emax - prec)) as [Hle|Hgt].
    + right. exists 4503599627370496%positive, (e1 + 1). repeat split; try assumption.
      unfold emax, prec in Hle.
      assert (r < IZR (2 ^ 53) * pow2 e1)%R as Hrp.
      { rewrite Hm2eq. eapply Rlt_le_trans; [|exact S2]. unfold r.
        rewrite plus_IZR. pose proof (pow2_pos ez). nra. }
      assert (pow2 e1 <= pow2 970)%R by (apply pow2_le; lia).
      assert (IZR (2 ^ 53) * pow2 e1 <= IZR (2 ^ 53) * pow2 970)%R.
      { apply Rmult_le_compat_l; [apply IZR_le; lia|assumption]. }
      assert (2 <= IZR (2 ^ 53))%R by (apply IZR_le; lia).
      unfold overflow_threshold. nra.
    + left. split; [assumption|].
      unfold emax, prec in Hgt.
      specialize (Hup' Hm2eq).
      assert (pow2 971 <= pow2 e1)%R as H971e by (apply pow2_le; lia).
      rewrite Hrh, Hm1eq, minus_IZR. unfold overflow_threshold.
      assert (0 < IZR (2 ^ 53) - 1)%R.
      { assert (IZR 2 <= IZR (2 ^ 53))%R by (apply IZR_le; lia). lra. }
      assert ((IZR (2 ^ 53) - 1) * pow2 971 <= (IZR (2 ^ 53) - 1) * pow2 e1)%R
        by (apply Rmult_le_compat_l; lra).
      lra.
Qed.

Lemma value_scaled (x : double) :
  well_formed x -> finite x -> value x = (IZR (scaled x) * pow2 emin)%R.
Proof.
  intros Hw Hf. destruct x as [s|s| |s m e]; try discriminate Hf; cbn [value scaled].
  - lra.
  - apply bounded_spec in Hw as (He & _).
    replace (pow2 e) with (pow2 ((e - emin) + emin)) by (f_equal; lia).
    rewrite pow2_add, (pow2_IZR (e - emin)) by lia.
    destruct s; cbn [cond_Zopp]; rewrite ?opp_IZR, ?mult_IZR, ?opp_IZR; ring.
Qed.

Lemma le_value (x y : double) :
  well_formed x -> well_formed y -> finite x -> finite y -> le x y ->
  (value x <= value y)%R.
Proof.
  intros Wx Wy Fx Fy H. rewrite (value_scaled x Wx Fx), (value_scaled y Wy Fy).
  apply Rmult_le_compat_r; [pose proof (pow2_pos emin); lra|].
  apply IZR_le. apply le_scaled; assumption.
Qed.

Lemma shl_align_value (m : positive) (e e' : Z) :
  snd (shl_align m e e') = Z.min e e' /\
  Z.pos (fst (shl_align m e e')) = Z.pos m * 2 ^ (e - Z.min e e') /\
  (IZR (Z.pos (fst (shl_align m e e'))) * pow2 (snd (shl_align m e e'))
   = IZR (Z.pos m) * pow2 e)%R.
Proof.
  assert (snd (shl_align m e e') = Z.min e e') as Hs.
  { unfold shl_align. destruct (e' - e) as [|d|d] eqn:E; cbn [snd]; lia. }
  assert (Z.pos (fst (shl_align m e e')) = Z.pos m * 2 ^ (e - Z.min e e')) as Hf.
  { destruct (Z.le_gt_cases e' e) as [Hle|Hgt].
    - rewrite shl_align_fst by assumption. rewrite Z.min_r by assumption. reflexivity.
    - unfold shl_align. destruct (e' - e) as [|d|d] eqn:E; try lia.
      cbn [fst]. rewrite Z.min_l by lia. rewrite Z.sub_diag. simpl. lia. }
  split; [exact Hs|]. split; [exact Hf|].
  rewrite Hs, Hf, mult_IZR, <- (pow2_IZR (e - Z.min e e')) by lia.
  rewrite Rmult_assoc, <- pow2_add. f_equal. f_equal. lia.
Qed.

(** The aligned mantissas of a subtraction carry the values of the
    operands. *)
Lemma aligned_value (s : bool) (m : positive) (e ez : Z) :
  ez <= e ->
  (IZR (cond_Zopp s (Z.pos (fst (shl_align m e ez)))) * pow2 ez
   = value (S754_finite s m e))%R.
Proof.
  intros Hle. rewrite shl_align_fst by assumption. cbn [value].
  replace (pow2 e) with (pow2 ((e - ez) + ez)) by (f_equal; lia).
  rewrite pow2_add, (pow2_IZR (e - ez)) by lia.
  destruct s; cbn [cond_Zopp]; rewrite ?opp_IZR, ?mult_IZR; ring.
Qed.

Lemma finite_below_threshold (m : positive) (e : Z) :
  SpecFloat.bounded prec emax m e = true ->
  (IZR (Z.pos m) * pow2 e < overflow_threshold)%R.
Proof.
  intros H. apply bounded_spec in H as (He & Hm & _).
  pose proof (below_threshold (Z.pos m) e 0 ltac:(lia) ltac:(lia) ltac:(lra)) as Hb.
  pose proof (pow2_pos e). lra.
Qed.

(** The difference of two finite binary64 values, the larger first: it is
    zero, or the exact difference reaches the threshold and it overflows,
    or the exact difference is below the threshold and it is a positive
    number off by at most 2^-52 of the exact difference and of itself. *)
Lemma sub_value (x y : double) :
  well_formed x -> well_formed y -> finite x -> finite y -> le y x ->
  let r := (value x - value y)%R in
  (exists s, Double.sub x y = S754_zero s) \/
  (Double.sub x y = S754_infinity false /\ (overflow_threshold <= r)%R) \/
  (exists m e,
      Double.sub x y = S754_finite false m e /\
      (IZR (Z.pos m) * pow2 e <= r * (1 + eps))%R /\
      (r <= IZR (Z.pos m) * pow2 e * (1 + eps))%R /\
      (r < overflow_threshold)%R).
Proof.
  intros Wx Wy Fx Fy Hle r.
  pose proof (le_value y x Wy Wx Fy Fx Hle) as Hv.
  pose proof eps_pos as Heps.
  destruct x as [sx|sx| |sx mx ex], y as [sy|sy| |sy my ey];
    try discriminate Fx; try discriminate Fy.
  - left. destruct sx, sy; eexists; reflexivity.
  - right. right. cbn [Double.sub SFsub]. exists my, ey.
    pose proof (finite_below_threshold my ey Wy) as Hb.
    cbn [value] in Hv. unfold r. cbn [value].
    assert (0 < IZR (Z.pos my) * pow2 ey)%R as Hp.
    { apply Rmult_lt_0_compat; [apply IZR_lt; lia|apply pow2_pos]. }
    destruct sy; cbn [negb cond_Zopp] in *.
    + rewrite opp_IZR in *. split; [reflexivity|]. repeat split; nra.
    + exfalso. lra.
  - right. right. cbn [Double.sub SFsub]. exists mx, ex.
    pose proof (finite_below_threshold mx ex Wx) as Hb.
    cbn [value] in Hv. unfold r. cbn [value].
    assert (0 < IZR (Z.pos mx) * pow2 ex)%R as Hp.
    { apply Rmult_lt_0_compat; [apply IZR_lt; lia|apply pow2_pos]. }
    destruct sx; cbn [cond_Zopp] in *.
    + exfalso. rewrite opp_IZR in Hv. lra.
    + split; [reflexivity|]. repeat split; nra.
  - unfold Double.sub, SFsub.
    set (ez := Z.min ex ey).
    set (d := cond_Zopp sx (Z.pos (fst (shl_align mx ex ez))) -
              cond_Zopp sy (Z.pos (fst (shl_align my ey ez)))).
    assert ((IZR d * pow2 ez)%R = r) as Hd.
    { unfold d, r. rewrite minus_IZR, Rmult_minus_distr_r.
      rewrite !aligned_value by (unfold ez; lia). reflexivity. }
    assert (emin <= ez <= 971) as Hez.
    { apply bounded_spec in Wx as (? & _). apply bounded_spec in Wy as (? & _).
      unfold ez. lia. }
    destruct d as [|p|p] eqn:Ed; cbn [binary_normalize].
    + left. eexists; reflexivity.
    + right. unfold binary_round.
      destruct (shl_align_value p ez (fexp prec emax (Z.pos (digits2_pos p) + ez)))
        as (Hs & _ & Hval).
      destruct (shl_align p ez _) as [mz ez'] eqn:Es. cbn [fst snd] in Hs, Hval.
      assert (emin <= ez' <= 971) as Hez'.
      { rewrite Hs, fexp_eq. lia. }
      destruct (binary_round_aux_exact_input false mz ez' Hez')
        as [[Hz Ho]|(m & e & Hz & U & L & _ & B)]; rewrite Hz.
      * left. split; [reflexivity|]. rewrite Hval, Hd in Ho. exact Ho.
      * right. exists m, e. rewrite Hval, Hd in U, L, B. auto.
    + exfalso. assert (IZR (Z.neg p) * pow2 ez < 0)%R; [|unfold r in Hd; lra].
      pose proof (pow2_pos ez). assert (IZR (Z.neg p) < 0)%R by (apply IZR_lt; lia). nra.
Qed.

Lemma of_size_t_value (n : Z) :
  1 <= n < 2 ^ 53 ->
  exists m e, of_size_t n = S754_finite false m e /\
              (IZR (Z.pos m) * pow2 e = IZR n)%R.
Proof.
  intros Hn. destruct n as [|p|p]; try lia.
  unfold of_size_t. cbn [binary_normalize]. unfold binary_round.
  destruct (shl_align_value p 0 (fexp prec emax (Z.pos (digits2_pos p) + 0)))
    as (Hs & Hf & Hval).
  destruct (shl_align p 0 _) as [mz ez] eqn:Es. cbn [fst snd] in Hs, Hf, Hval.
  rewrite fexp_eq in Hs, Hf.
  pose proof (Zdigits2_bound (Z.pos p) 53 ltac:(lia) ltac:(lia) ltac:(lia)) as Hd.
  cbn [Zdigits2] in Hd.
  pose proof (digits2_pos_bounds p) as [_ Hup].
  set (d := Z.pos (digits2_pos p)) in *.
  assert (ez = Z.max (d - 53) emin) as Hez by (unfold emin in *; lia).
  assert (shift_of (Z.pos mz) ez = 0) as Hshift.
  { unfold shift_of. rewrite fexp_eq.
    assert (Z.pos mz < 2 ^ (d - ez)) as Hmz.
    { rewrite Hf. replace (Z.min 0 (Z.max (d + 0 - 53) emin)) with ez by (unfold emin in *; lia).
      replace (d - ez) with (d + (0 - ez)) by lia. rewrite Z.pow_add_r by (unfold emin in *; lia).
      apply Z.mul_lt_mono_pos_r; [apply Z.pow_pos_nonneg; unfold emin in *; lia|assumption]. }
    pose proof (Zdigits2_bound (Z.pos mz) (d - ez) ltac:(lia) ltac:(unfold emin in *; lia) Hmz).
    unfold emin in *. lia. }
  destruct (binary_round_aux_exact_input false mz ez ltac:(unfold emin in *; lia))
    as [[Hz Ho]|(m & e & Hz & U & L & X & _)]; rewrite Hz.
  - exfalso. rewrite Hval in Ho. unfold overflow_threshold in Ho.
    assert (IZR (Z.pos p) * pow2 0 < pow2 53)%R.
    { rewrite (pow2_IZR 53), (pow2_IZR 0) by lia. change (2 ^ 0) with 1.
      rewrite Rmult_1_r. apply IZR_lt. lia. }
    assert (pow2 53 <= pow2 970)%R by (apply pow2_le; lia).
    pose proof pow2_53_971 as H1024. pose proof pow2_971 as H971.
    assert (2 <= IZR (2 ^ 53))%R by (apply IZR_le; lia).
    pose proof (pow2_pos 970). nra.
  - exists m, e. split; [reflexivity|]. rewrite (X Hshift), Hval.
    rewrite (pow2_IZR 0) by lia. change (2 ^ 0) with 1. ring.
Qed.

(** *** Quotients *)

Lemma positive_value_pos (m : positive) (e : Z) : (0 < positive_value m e)%R.
Proof. apply Rmult_lt_0_compat; [apply IZR_lt; lia|apply pow2_pos]. Qed.

(** The integer quotient [SFdiv_core_binary] computes brackets the exact
    quotient. *)
Lemma div_core_spec (mx my : positive) (ex ey : Z) :
  exists (q e' : Z) (l : location),
    SFdiv_core_binary prec emax (Z.pos mx) ex (Z.pos my) ey = (q, e', l) /\
    0 <= q /\
    e' <= fexp prec emax (Z.pos (digits2_pos mx) + ex - (Z.pos (digits2_pos my) + ey)) /\
    (IZR q * pow2 e' <= positive_value mx ex / positive_value my ey
       < IZR (q + 1) * pow2 e')%R.
Proof.
  unfold SFdiv_core_binary. cbn [Zdigits2].
  set (e' := Z.min (fexp prec emax (Z.pos (digits2_pos mx) + ex - (Z.pos (digits2_pos my) + ey)))
                   (ex - ey)).
  set (s := ex - ey - e').
  assert (0 <= s) as Hs by (unfold s, e'; lia).
  set (m' := match s with
             | 0 => Z.pos mx
             | Z.pos _ => Z.shiftl (Z.pos mx) s
             | Z.neg _ => 0
             end).
  assert (m' = Z.pos mx * 2 ^ s) as Hm'.
  { unfold m'. destruct s as [|p|p] eqn:E; try lia.
    rewrite Z.shiftl_mul_pow2 by lia. reflexivity. }
  pose proof (Z.div_mod m' (Z.pos my) ltac:(lia)) as Hdm.
  pose proof (Z.mod_pos_bound m' (Z.pos my) ltac:(lia)) as Hmod.
  unfold Z.div, Z.modulo in Hdm, Hmod.
  destruct (Z.div_eucl m' (Z.pos my)) as [q r] eqn:Ed.
  exists q, e', (new_location (Z.pos my) r).
  split; [reflexivity|].
  assert (0 < 2 ^ s) as Hp by (apply Z.pow_pos_nonneg; lia).
  assert (0 <= q) as Hq by nia.
  split; [exact Hq|]. split; [unfold e'; lia|].
  assert (positive_value mx ex / positive_value my ey
          = IZR m' / IZR (Z.pos my) * pow2 e')%R as ->.
  { unfold positive_value. rewrite Hm', mult_IZR, <- (pow2_IZR s) by lia.
    replace (pow2 ex) with (pow2 (s + (e' + ey))) by (f_equal; unfold s; lia).
    rewrite !pow2_add. pose proof (pow2_pos ey). pose proof (pow2_pos e').
    assert (0 < IZR (Z.pos my))%R by (apply IZR_lt; lia).
    field. split; lra. }
  pose proof (pow2_pos e') as Pe.
  assert (0 < IZR (Z.pos my))%R as Hy by (apply IZR_lt; lia).
  assert (IZR q <= IZR m' / IZR (Z.pos my) < IZR (q + 1))%R as [B1 B2].
  { assert (Z.pos my * q <= m') as H1 by lia.
    assert (m' < Z.pos my * (q + 1)) as H2 by lia.
    apply IZR_le in H1. apply IZR_lt in H2. rewrite mult_IZR in H1, H2.
    set (t := (IZR m' / IZR (Z.pos my))%R).
    assert (t * IZR (Z.pos my) = IZR m')%R as Ht by (unfold t; field; lra).
    split; nra. }
  split.
  - apply Rmult_le_compat_r; lra.
  - apply Rmult_lt_compat_r; lra.
Qed.

Lemma fexp_le (z t : Z) : z <= t -> fexp prec emax z <= Z.max (t - 53) emin.
Proof. rewrite fexp_eq. lia. Qed.

(** A quotient below 2^49 converts to [std::size_t]; the conversion is at
    most 2^-4 above the exact quotient and less than 1 + 2^-4 below it. *)
Lemma div_to_size_t_bracket (mx my : positive) (ex ey : Z) :
  let r := (positive_value mx ex / positive_value my ey)%R in
  (r < pow2 49)%R ->
  exists c,
    to_size_t (Double.div (S754_finite false mx ex) (S754_finite false my ey)) = Some c /\
    (IZR c <= r + pow2 (-4))%R /\
    (r < IZR c + 1 + pow2 (-4))%R.
Proof.
  intros r Hr.
  destruct (div_core_spec mx my ex ey) as (q & e' & l & Hcore & Hq & He' & B1 & B2).
  fold r in B1, B2.
  unfold Double.div, SFdiv. rewrite Hcore. cbn [xorb].
  destruct (binary_round_aux_value false q e' l Hq)
    as (m2 & m3 & e3 & Hm2 & _ & Hsecond & He1 & _ & Hv & Hres).
  destruct (binary_round_aux_stages q e' m2 Hq Hm2)
    as (S1 & S2 & _ & _ & _ & Hm1 & _).
  set (m1 := q / 2 ^ shift_of q e') in *. set (e1 := e' + shift_of q e') in *.
  assert (0 < r)%R as Hrpos.
  { unfold r. apply Rdiv_lt_0_compat; apply positive_value_pos. }
  (* the exponents are small *)
  assert (e' <= -4) as He'4.
  { assert (Z.pos (digits2_pos mx) + ex - (Z.pos (digits2_pos my) + ey) <= 49) as Hd.
    { pose proof (digits_pow2 mx ex) as [Lx _]. pose proof (digits_pow2 my ey) as [_ Uy].
      pose proof (positive_value_pos my ey) as Py. unfold positive_value in Py.
      assert (pow2 (Z.pos (digits2_pos mx) - 1 + ex) < pow2 49 * pow2 (Z.pos (digits2_pos my) + ey))%R as H.
      { assert (positive_value mx ex < pow2 49 * positive_value my ey)%R as H0.
        { pose proof (positive_value_pos my ey) as Py'.
          assert (r * positive_value my ey = positive_value mx ex)%R as Ht
            by (unfold r; field; lra).
          pose proof (pow2_pos 49). nra. }
        unfold positive_value in H0. pose proof (pow2_pos 49). nra. }
      rewrite <- pow2_add in H. apply pow2_lt_inv in H. lia. }
    pose proof (fexp_le _ 49 Hd). unfold emin in *. lia. }
  assert (e1 <= -4) as He14.
  { unfold e1, shift_of. 
    assert (Zdigits2 q + e' <= 49) as Hd.
    { destruct q as [|p|p]; cbn [Zdigits2]; try lia.
      pose proof (digits_pow2 p e') as [Lq _].
      assert (pow2 (Z.pos (digits2_pos p) - 1 + e') < pow2 49)%R as H by lra.
      apply pow2_lt_inv in H. lia. }
    pose proof (fexp_le _ 49 Hd). unfold emin in *. lia. }
  assert (e3 <= -3) as He3 by (destruct Hsecond as [(_ & -> & _)|(_ & -> & _)]; lia).
  assert (0 <= m3) as Hm3 by (destruct Hsecond as [(-> & _)|(-> & _)]; lia).
  (* the value of the result *)
  assert (IZR m3 * pow2 e3 <= r + pow2 (-4))%R as Hval.
  { rewrite Hv. assert (IZR m2 <= IZR m1 + 1)%R as C.
    { rewrite <- plus_IZR. apply IZR_le. lia. }
    pose proof (pow2_pos e1). assert (pow2 e1 <= pow2 (-4))%R by (apply pow2_le; lia).
    assert (IZR m2 * pow2 e1 <= (IZR m1 + 1) * pow2 e1)%R by (apply Rmult_le_compat_r; lra).
    lra. }
  assert (r - pow2 (-4) < IZR m3 * pow2 e3)%R as Hlow.
  { rewrite Hv. rewrite plus_IZR in S2. rewrite plus_IZR in S2.
    assert (IZR m1 <= IZR m2)%R as C by (apply IZR_le; lia).
    pose proof (pow2_pos e1). assert (pow2 e1 <= pow2 (-4))%R by (apply pow2_le; lia).
    assert (IZR m1 * pow2 e1 <= IZR m2 * pow2 e1)%R by (apply Rmult_le_compat_r; lra).
    rewrite plus_IZR in B2. lra. }
  rewrite Hres. destruct m3 as [|m|m]; [| |lia].
  - exists 0. split; [reflexivity|]. pose proof (pow2_pos (-4)). lra.
  - destruct (Z.leb_spec e3 (emax - prec)) as [_|Hgt]; [|unfold emax, prec in Hgt; lia].
    unfold to_size_t. cbn [truncate cond_Zopp].
    destruct e3 as [|k|k]; try lia.
    set (c := Z.pos m / 2 ^ Z.pos k).
    assert (0 < 2 ^ Z.pos k) as Hp by (apply Z.pow_pos_nonneg; lia).
    assert (0 <= c) as Hc0 by (apply Z.div_pos; lia).
    assert (IZR c <= IZR (Z.pos m) * pow2 (Z.neg k))%R as Hcv.
    { assert (c * 2 ^ Z.pos k <= Z.pos m) as H.
      { unfold c. rewrite Z.mul_comm. apply Z.mul_div_le. assumption. }
      apply IZR_le in H. rewrite mult_IZR, <- (pow2_IZR (Z.pos k)) in H by lia.
      pose proof (pow2_pos (Z.neg k)) as Pn.
      assert (pow2 (Z.pos k) * pow2 (Z.neg k) = 1)%R as Hone.
      { rewrite <- pow2_add. replace (Z.pos k + Z.neg k) with 0 by lia. reflexivity. }
      assert (IZR c * pow2 (Z.pos k) * pow2 (Z.neg k) <= IZR (Z.pos m) * pow2 (Z.neg k))%R
        as Hmul by (apply Rmult_le_compat_r; lra).
      rewrite Rmult_assoc, Hone, Rmult_1_r in Hmul. exact Hmul. }
    assert (c < size_t_modulus) as Hc1.
    { apply lt_IZR. unfold size_t_modulus. rewrite <- (pow2_IZR 64) by lia.
      assert (pow2 (-4) <= pow2 49)%R by (apply pow2_le; lia).
      assert (pow2 49 + pow2 49 <= pow2 64)%R.
      { assert (pow2 (49 + 1) <= pow2 64)%R as H50 by (apply pow2_le; lia).
        rewrite pow2_add, (pow2_IZR 1) in H50 by lia. change (IZR (2 ^ 1)) with 2%R in H50. lra. }
      lra. }
    assert (IZR (Z.pos m) * pow2 (Z.neg k) < IZR c + 1)%R as Hcw.
    { assert (Z.pos m < (c + 1) * 2 ^ Z.pos k) as H.
      { unfold c. pose proof (Z.mod_pos_bound (Z.pos m) (2 ^ Z.pos k) Hp).
        pose proof (Z.div_mod (Z.pos m) (2 ^ Z.pos k) ltac:(lia)). nia. }
      apply IZR_lt in H. rewrite mult_IZR, plus_IZR, <- (pow2_IZR (Z.pos k)) in H by lia.
      pose proof (pow2_pos (Z.neg k)) as Pn.
      assert (pow2 (Z.pos k) * pow2 (Z.neg k) = 1)%R as Hone.
      { rewrite <- pow2_add. replace (Z.pos k + Z.neg k) with 0 by lia. reflexivity. }
      assert (IZR (Z.pos m) * pow2 (Z.neg k)
              < (IZR c + 1) * pow2 (Z.pos k) * pow2 (Z.neg k))%R
        as Hmul by (apply Rmult_lt_compat_r; lra).
      rewrite Rmult_assoc, Hone, Rmult_1_r in Hmul. exact Hmul. }
    exists c. split; [|split].
    + destruct (Z.leb_spec 0 c); [|lia]. destruct (Z.ltb_spec c size_t_modulus); [|lia].
      reflexivity.
    + lra.
    + lra.
Qed.

Lemma div_to_size_t (mx my : positive) (ex ey : Z) :
  let r := (positive_value mx ex / positive_value my ey)%R in
  (r < pow2 49)%R ->
  exists c,
    to_size_t (Double.div (S754_finite false mx ex) (S754_finite false my ey)) = Some c /\
    (IZR c <= r + pow2 (-4))%R.
Proof.
  intros r Hr. destruct (div_to_size_t_bracket mx my ex ey Hr) as (c & Hc & Hup & _).
  exists c. split; assumption.
Qed.

(** A quotient that is a normal number is at most 2^-52 of itself below
    the exact quotient. *)
Lemma div_normal_lower (mx my m : positive) (ex ey e : Z) :
  Double.div (S754_finite false mx ex) (S754_finite false my ey)
    = S754_finite false m e ->
  2 ^ 52 <= Z.pos m ->
  (positive_value mx ex / positive_value my ey <= positive_value m e * (1 + eps))%R.
Proof.
  intros Hdiv Hnormal.
  destruct (div_core_spec mx my ex ey) as (q & e' & l & Hcore & Hq & He' & B1 & B2).
  unfold Double.div, SFdiv in Hdiv. rewrite Hcore in Hdiv. cbn [xorb] in Hdiv.
  destruct (binary_round_aux_value false q e' l Hq)
    as (m2 & m3 & e3 & Hm2 & _ & Hsecond & He1 & _ & Hv & Hres).
  destruct (binary_round_aux_stages q e' m2 Hq Hm2)
    as (S1 & S2 & _ & _ & _ & Hm1 & _).
  set (m1 := q / 2 ^ shift_of q e') in *. set (e1 := e' + shift_of q e') in *.
  rewrite Hres in Hdiv.
  assert (m3 = Z.pos m /\ e3 = e) as [-> ->].
  { destruct m3 as [|p|p]; try discriminate Hdiv.
    destruct (e3 <=? emax - prec); [|discriminate Hdiv].
    injection Hdiv as -> ->. split; reflexivity. }
  assert (e1 <= e) as Hee by (destruct Hsecond as [(_ & -> & _)|(_ & -> & _)]; lia).
  pose proof (ulp_le_eps (Z.pos m) e Hnormal) as Hu.
  assert (pow2 e1 <= pow2 e)%R by (apply pow2_le; assumption).
  assert (IZR (m1 + 1) <= IZR m2 + 1)%R as C.
  { rewrite <- plus_IZR. apply IZR_le. lia. }
  pose proof (pow2_pos e1).
  assert (IZR (m1 + 1) * pow2 e1 <= (IZR m2 + 1) * pow2 e1)%R
    by (apply Rmult_le_compat_r; lra).
  unfold positive_value at 3. lra.
Qed.

Lemma eps_small : (eps <= / 8)%R.
Proof.
  assert (pow2 (-52) <= pow2 (-3))%R as H by (apply pow2_le; lia).
  assert (pow2 (-3) * 8 = 1)%R as H8.
  { change 8%R with (IZR (2 ^ 3)). rewrite <- (pow2_IZR 3), <- pow2_add by lia. reflexivity. }
  unfold eps. pose proof (pow2_pos (-3)). lra.
Qed.

Lemma cube_eps (t : R) : (0 <= t)%R -> (t * ((1 + eps) * (1 + eps) * (1 + eps)) <= t * (1 + 4 * eps))%R.
Proof.
  intros Ht. pose proof eps_pos. pose proof eps_small.
  apply Rmult_le_compat_l; [assumption|]. nra.
Qed.

Lemma axis_quotient_in_bounds (lo hi a b : double) (n : Z) :
  well_formed lo -> well_formed hi -> well_formed a -> well_formed b ->
  finite lo -> finite hi -> finite a -> finite b ->
  le lo hi -> le b a ->
  (value a - value b <= value hi - value lo)%R ->
  1 <= n <= 2 ^ 48 ->
  positive_normal (Double.div (Double.sub hi lo) (of_size_t n)) ->
  exists c,
    to_size_t (Double.div (Double.sub a b)
                          (Double.div (Double.sub hi lo) (of_size_t n))) = Some c /\
    c <= n.
Proof.
  intros Wlo Whi Wa Wb Flo Fhi Fa Fb Hlohi Hba Hrange Hn (mW & eW & HW & Hnormal).
  pose proof eps_pos as Heps. pose proof eps_small as Heps8.
  destruct (of_size_t_value n ltac:(lia)) as (mN & eN & HN & HvN).
  (* the extent width *)
  assert (exists mD eD, Double.sub hi lo = S754_finite false mD eD /\
            (value hi - value lo <= positive_value mD eD * (1 + eps))%R /\
            (value hi - value lo < overflow_threshold)%R)
    as (mD & eD & HD & HrD & HbD).
  { destruct (sub_value hi lo Whi Wlo Fhi Flo Hlohi)
      as [[s Hz]|[[Hz _]|(m & e & Hz & _ & L & B)]];
      rewrite Hz, HN in HW; try discriminate HW.
    exists m, e. split; [exact Hz|]. split; [exact L|exact B]. }
  rewrite HD, HN in HW.
  pose proof (div_normal_lower mD mN mW eD eN eW HW Hnormal) as HWlow.
  fold (positive_value mN eN) in HvN. rewrite HvN in HWlow.
  rewrite HD, HN, HW.
  pose proof (positive_value_pos mW eW) as PW.
  pose proof (positive_value_pos mD eD) as PD.
  assert (1 <= IZR n <= pow2 48)%R as [Hn1 Hn48].
  { split; [apply IZR_le; lia|]. rewrite (pow2_IZR 48) by lia. apply IZR_le. lia. }
  assert (positive_value mD eD <= IZR n * positive_value mW eW * (1 + eps))%R as HDW.
  { assert (positive_value mD eD / IZR n * IZR n = positive_value mD eD)%R as Hf
      by (field; lra).
    rewrite <- Hf.
    replace (IZR n * positive_value mW eW * (1 + eps))%R
      with (positive_value mW eW * (1 + eps) * IZR n)%R by ring.
    apply Rmult_le_compat_r; lra. }
  (* the numerator *)
  destruct (sub_value a b Wa Wb Fa Fb Hba) as [[s Hz]|[[Hz Ho]|(mA & eA & Hz & U & _)]];
    rewrite Hz.
  - exists 0. split; [reflexivity|lia].
  - exfalso. lra.
  - fold (positive_value mA eA) in U.
    pose proof (positive_value_pos mA eA) as PA.
    set (r := (positive_value mA eA / positive_value mW eW)%R).
    assert (r <= IZR n * (1 + 4 * eps))%R as Hr.
    { assert (positive_value mA eA
              <= IZR n * positive_value mW eW * ((1 + eps) * (1 + eps) * (1 + eps)))%R as H3.
      { assert (0 <= value a - value b)%R as H0.
        { pose proof (le_value b a Wb Wa Fb Fa Hba). lra. }
        assert (positive_value mA eA <= (value hi - value lo) * (1 + eps))%R as H1.
        { eapply Rle_trans; [exact U|]. apply Rmult_le_compat_r; lra. }
        assert ((value hi - value lo) * (1 + eps)
                <= positive_value mD eD * (1 + eps) * (1 + eps))%R as H2
          by (apply Rmult_le_compat_r; lra).
        assert (positive_value mD eD * (1 + eps) * (1 + eps)
                <= IZR n * positive_value mW eW * (1 + eps) * (1 + eps) * (1 + eps))%R as H4.
        { apply Rmult_le_compat_r; [lra|]. apply Rmult_le_compat_r; lra. }
        lra. }
      assert (positive_value mA eA <= IZR n * positive_value mW eW * (1 + 4 * eps))%R as H5.
      { eapply Rle_trans; [exact H3|]. apply cube_eps.
        apply Rmult_le_pos; lra. }
      assert (r * positive_value mW eW = positive_value mA eA)%R as Hf
        by (unfold r; field; lra).
      assert (r * positive_value mW eW <= IZR n * (1 + 4 * eps) * positive_value mW eW)%R
        as H6 by lra.
      apply Rmult_le_reg_r in H6; assumption. }
    assert (IZR n * (4 * eps) <= pow2 (-2))%R as Hquarter.
    { assert (pow2 48 * (4 * eps) = pow2 (-2))%R as H.
      { change 4%R with (IZR (2 ^ 2)). rewrite <- (pow2_IZR 2) by lia.
        unfold eps. rewrite <- !pow2_add. reflexivity. }
      rewrite <- H. apply Rmult_le_compat_r; lra. }
    pose proof (pow2_double (-2)) as Hd2. change (-2 + 1) with (-1) in Hd2.
    pose proof (pow2_double (-1)) as Hd1. change (-1 + 1) with 0 in Hd1.
    assert (pow2 0 = 1)%R as H0 by reflexivity.
    assert (pow2 (-4) <= pow2 (-2))%R as H42 by (apply pow2_le; lia).
    pose proof (pow2_pos (-2)) as P2. pose proof (pow2_pos (-4)) as P4.
    assert (r < pow2 49)%R as Hr49.
    { pose proof (pow2_double 48) as H48. change (48 + 1) with 49 in H48. lra. }
    destruct (div_to_size_t mA mW eA eW Hr49) as (c & Hc & Hcv). fold r in Hcv.
    exists c. split; [exact Hc|].
    assert (IZR c < IZR (n + 1))%R as Hlt by (rewrite plus_IZR; lra).
    apply lt_IZR in Hlt. lia.
Qed.

Lemma between_finite (lo x hi : double) :
  finite lo -> finite hi -> le lo x -> le x hi -> finite x.
Proof.
  intros Flo Fhi H1 H2. destruct x as [s|s| |s m e]; try reflexivity.
  - destruct s.
    + destruct lo; try discriminate Flo; destruct H1 as [H|H]; discriminate H.
    + destruct hi; try discriminate Fhi; destruct H2 as [H|H]; discriminate H.
  - destruct H2 as [H|H]; discriminate H.
Qed.

(** A finite difference has finite operands. *)
Lemma sub_finite_inv (x y : double) (s : bool) (m : positive) (e : Z) :
  Double.sub x y = S754_finite s m e -> finite x /\ finite y.
Proof.
  intros H.
  destruct x as [sx|sx| |sx mx ex], y as [sy|sy| |sy my ey];
    cbn [Double.sub SFsub] in H; try discriminate H; try (split; reflexivity);
    destruct sx, sy; discriminate H.
Qed.

Section Axis.

Variables lo x hi : double.
Variable n : Z.
Hypothesis Wlo : well_formed lo.
Hypothesis Wx : well_formed x.
Hypothesis Whi : well_formed hi.
Hypothesis Hlo : le lo x.
Hypothesis Hhi : le x hi.
Hypothesis Hn : 1 <= n <= 2 ^ 48.
Hypothesis Hnormal : positive_normal (Double.div (Double.sub hi lo) (of_size_t n)).

(** A cell width that is a number makes the extent, and what lies in it,
    finite. *)
Lemma axis_finite : finite lo /\ finite x /\ finite hi.
Proof.
  destruct Hnormal as (mW & eW & HW & _).
  destruct (of_size_t_value n ltac:(lia)) as (mN & eN & HN & _).
  rewrite HN in HW.
  assert (finite hi /\ finite lo) as [Fhi Flo].
  { destruct (Double.sub hi lo) as [s|s| |s m e] eqn:E;
      cbn [Double.div SFdiv] in HW; try discriminate HW.
    apply (sub_finite_inv hi lo s m e E). }
  repeat split; try assumption.
  apply (between_finite lo x hi); assumption.
Qed.

Lemma axis_index_from_lo :
  exists c,
    to_size_t (Double.div (Double.sub x lo)
                          (Double.div (Double.sub hi lo) (of_size_t n))) = Some c /\
    c <= n.
Proof.
  destruct axis_finite as (Flo & Fx & Fhi).
  apply axis_quotient_in_bounds; try assumption.
  - apply (le_trans_wf lo x hi); assumption.
  - pose proof (le_value _ _ Wx Whi Fx Fhi Hhi). lra.
Qed.

Lemma axis_index_from_hi :
  exists c,
    to_size_t (Double.div (Double.sub hi x)
                          (Double.div (Double.sub hi lo) (of_size_t n))) = Some c /\
    c <= n.
Proof.
  destruct axis_finite as (Flo & Fx & Fhi).
  apply axis_quotient_in_bounds; try assumption.
  - apply (le_trans_wf lo x hi); assumption.
  - pose proof (le_value _ _ Wlo Wx Flo Fx Hlo). lra.
Qed.

End Axis.

(** *** Squared distances *)

Lemma add_comm x y : Double.add x y = Double.add y x.
Proof.
  destruct x as [sx|sx| |sx mx ex], y as [sy|sy| |sy my ey]; simpl;
    try reflexivity; try (destruct sx, sy; reflexivity).
  unfold Double.add, SFadd. rewrite (Z.min_comm ey ex). f_equal. apply Z.add_comm.
Qed.

Lemma mul_self_not_negative_zero x : not_negative_zero (Double.mul x x).
Proof.
  unfold not_negative_zero.
  destruct x as [s|s| |s m e]; simpl; try discriminate.
  - destruct s; discriminate.
  - unfold Double.mul, SFmul. rewrite xorb_nilpotent.
    destruct (binary_round_aux_cases false (Z.pos (m * m)) (e + e) loc_Exact)
      as [H|[H|[H|(m' & e' & H)]]]; rewrite H; discriminate.
Qed.

Lemma add_zero_r x : not_negative_zero x -> Double.add x zero = x.
Proof.
  unfold not_negative_zero. destruct x as [s|s| |s m e]; simpl; try reflexivity.
  destruct s; [congruence|reflexivity].
Qed.

Lemma sub_zero_l x : Double.sub zero x = SFopp x \/ x = S754_zero false.
Proof.
  destruct x as [s|s| |s m e]; simpl; auto. destruct s; auto.
Qed.

Lemma mul_opp_opp x : Double.mul (SFopp x) (SFopp x) = Double.mul x x.
Proof.
  destruct x as [s|s| |s m e]; simpl; try reflexivity;
    unfold Double.mul; simpl; rewrite ?xorb_nilpotent; reflexivity.
Qed.

Lemma comparable_distance_symmetric_sum p q :
  comparable_distance p q =
    Double.add (Double.mul (Double.sub (x_of p) (x_of q)) (Double.sub (x_of p) (x_of q)))
               (Double.mul (Double.sub (y_of p) (y_of q)) (Double.sub (y_of p) (y_of q))).
Proof.
  unfold comparable_distance.
  rewrite add_zero_r by apply mul_self_not_negative_zero.
  apply add_comm.
Qed.

(** C7: the functor built from the center (cx, cy) and the radius rho
    stores rho * rho as its comparable distance, and accepts a point p
    exactly when (p.x - cx)^2 + (p.y - cy)^2 <= rho^2. *)
Theorem within_xy_distance_functor_spec
    (cx cy : coordinate_t) (rho : distance_t) (p : point_3d_t) :
  let f := _within_xy_distance_functor.new {| x_of := cx; y_of := cy |} rho in
  let dx := Double.sub (get_x p) cx in
  let dy := Double.sub (get_y p) cy in
  _within_xy_distance_functor._comparable_distance f = Double.mul rho rho /\
  (_within_xy_distance_functor.call f p = true
     <-> le (Double.add (Double.mul dx dx) (Double.mul dy dy)) (Double.mul rho rho)).
Proof.
  intros f dx dy.
  assert (Hc : _within_xy_distance_functor._comparable_distance f = Double.mul rho rho).
  { unfold f, _within_xy_distance_functor.new.
    cbn [_within_xy_distance_functor._comparable_distance].
    rewrite comparable_distance_symmetric_sum. cbn [x_of y_of].
    change (Double.sub zero zero) with zero.
    change (Double.mul zero zero) with zero.
    rewrite add_comm, add_zero_r by apply mul_self_not_negative_zero.
    destruct (sub_zero_l rho) as [H| ->].
    - rewrite H. apply mul_opp_opp.
    - reflexivity. }
  split; [exact Hc|].
  unfold _within_xy_distance_functor.call. rewrite Hc, leb_le.
  rewrite comparable_distance_symmetric_sum. reflexivity.
Qed.

(** *** Rasters *)

Lemma has_value_at_xy_of_spec {T : Type} (r : Raster.t T) (p : point_3d_t) :
  Raster.has_value_at_xy_of r p = true <-> in_closed_extent r p.
Proof.
  unfold Raster.has_value_at_xy_of, in_closed_extent.
  rewrite !andb_true_iff, !leb_le. tauto.
Qed.

Lemma of_option_never_throws {A : Type} (o : option A) e : of_option o <> Throws e.
Proof. destruct o; discriminate. Qed.

Lemma at_index_never_throws {A : Type} (v : list A) i e : at_index v i <> Throws e.
Proof.
  unfold at_index. destruct (i <? 0); [discriminate|apply of_option_never_throws].
Qed.

Lemma no_throw_value_at_xy_of_never_throws {T : Type} (r : Raster.t T) p e :
  Raster.no_throw_value_at_xy_of r p <> Throws e.
Proof.
  unfold Raster.no_throw_value_at_xy_of, Raster._flat_index, Raster._cell_of.
  destruct (to_size_t _); simpl; [|discriminate].
  destruct (to_size_t _); simpl; [|discriminate].
  apply at_index_never_throws.
Qed.

Lemma isnan_spec x : isnan x = true <-> x = S754_nan.
Proof. destruct x; simpl; intuition congruence. Qed.

(** C5: [has_value_at_xy_of] is true exactly for the points whose (x, y)
    lies in the closed rectangle [x_min, x_max] x [y_min, y_max];
    [value_at_xy_of] throws exactly when x or y is NaN (a runtime error,
    tested first) or (x, y) lies outside that rectangle (an out-of-range
    error), and is [no_throw_value_at_xy_of] otherwise. *)
Theorem raster_value_access_spec {T : Type} (r : Raster.t T) (p : point_3d_t) :
  (Raster.has_value_at_xy_of r p = true <-> in_closed_extent r p) /\
  ((exists e, Raster.value_at_xy_of r p = Throws e)
     <-> nan_xy p \/ ~ in_closed_extent r p) /\
  (nan_xy p ->
     Raster.value_at_xy_of r p = Throws (runtime_error nan_xy_coordinates)) /\
  (~ nan_xy p -> ~ in_closed_extent r p ->
     Raster.value_at_xy_of r p = Throws (out_of_range outside_of_raster_extent)) /\
  (~ nan_xy p -> in_closed_extent r p ->
     Raster.value_at_xy_of r p = Raster.no_throw_value_at_xy_of r p).
Proof.
  pose proof (has_value_at_xy_of_spec r p) as Hext.
  assert (Hnan : isnan (get_x p) || isnan (get_y p) = true <-> nan_xy p).
  { unfold nan_xy. rewrite orb_true_iff, !isnan_spec. tauto. }
  split; [exact Hext|].
  unfold Raster.value_at_xy_of.
  destruct (isnan (get_x p) || isnan (get_y p)) eqn:En.
  - assert (Hn : nan_xy p) by (apply Hnan; reflexivity).
    repeat split; try tauto. eauto.
  - assert (Hn : ~ nan_xy p) by (intros H; apply Hnan in H; discriminate).
    destruct (Raster.has_value_at_xy_of r p) eqn:Ev; simpl.
    + assert (He : in_closed_extent r p) by (apply Hext; reflexivity).
      repeat split; try tauto.
      intros [e H]. exfalso. revert H. apply no_throw_value_at_xy_of_never_throws.
    + assert (He : ~ in_closed_extent r p) by (intros H; apply Hext in H; discriminate).
      repeat split; try tauto. eauto.
Qed.

Lemma size_eq_length {A B : Type} (v : list A) (w : list B) :
  size v = size w <-> List.length v = List.length w.
Proof. unfold size. lia. Qed.

(** C8: [copy_w_new_values] of a grid raster throws exactly when the number
    of new values differs from the number of values of the raster, and
    otherwise returns a raster with the same numbers of rows and columns
    and the same extent that carries the new values; [copy_w_new_values] of
    a single-value raster throws exactly when the number of new values is
    not 1, and otherwise returns a single-value raster holding the first
    new value. *)
Theorem copy_w_new_values_spec {T : Type} (new_values : list T) :
  (forall r : Raster.t T,
      ((exists e, Raster.copy_w_new_values r new_values = Throws e)
         <-> size new_values <> size (Raster.values r)) /\
      (size new_values = size (Raster.values r) ->
         exists r', Raster.copy_w_new_values r new_values = Returns r' /\
           Raster.values r' = new_values /\
           Raster._num_rows r' = Raster._num_rows r /\
           Raster._num_cols r' = Raster._num_cols r /\
           Raster._x_min r' = Raster._x_min r /\
           Raster._x_max r' = Raster._x_max r /\
           Raster._y_min r' = Raster._y_min r /\
           Raster._y_max r' = Raster._y_max r)) /\
  (forall value : T,
      let r := Single_value_pseudo_raster.new value in
      ((exists e, Single_value_pseudo_raster.copy_w_new_values r new_values = Throws e)
         <-> size new_values <> 1) /\
      (size new_values = 1 ->
         exists v0, nth_error new_values 0 = Some v0 /\
           Single_value_pseudo_raster.copy_w_new_values r new_values
             = Returns (Single_value_pseudo_raster.new v0) /\
           Single_value_pseudo_raster.values (Single_value_pseudo_raster.new v0) = [v0])).
Proof.
  split.
  - intros r. unfold Raster.copy_w_new_values.
    destruct (size new_values =? size (Raster._values r)) eqn:E; simpl.
    + apply Z.eqb_eq in E. split.
      * split; [intros [e He]; discriminate|]. intros H; contradiction.
      * intros _. eexists; split; [reflexivity|]. simpl. repeat split.
    + apply Z.eqb_neq in E. split.
      * split; [intros _; exact E|]. intros _; eauto.
      * intros H; contradiction.
  - intros value r. unfold Single_value_pseudo_raster.copy_w_new_values.
    destruct (size new_values =? 1) eqn:E; simpl.
    + apply Z.eqb_eq in E.
      destruct new_values as [|v0 [|v1 rest]]; try (cbn in E; lia).
      split.
      * split; [intros [e He]; discriminate|]. intros H; contradiction.
      * intros _. exists v0. repeat split.
    + apply Z.eqb_neq in E. split.
      * split; [intros _; exact E|]. intros _; eauto.
      * intros H; contradiction.
Qed.


Lemma floor_truncate (x : double) : ~ finite_negative x -> floor x = truncate x.
Proof.
  intros H. destruct x as [s|s| |s m e]; try reflexivity.
  destruct s; [exfalso; apply H; eexists _, _; reflexivity|].
  cbn [floor truncate cond_Zopp]. destruct e; reflexivity.
Qed.

Lemma axis_index_to_size_t (q : double) (n : Z) :
  ~ finite_negative q ->
  axis_index q n =
    match to_size_t q with
    | Some i => Some (if i =? n then size_t_wrap (i - 1) else i)
    | None => None
    end.
Proof.
  intros H. unfold axis_index, to_size_t. rewrite (floor_truncate q H).
  destruct (truncate q) as [z|]; [|reflexivity].
  destruct ((0 <=? z) && (z <? size_t_modulus)); reflexivity.
Qed.


(** Inside the extent no quotient is negative. *)
Lemma quotients_in_extent_not_negative {T : Type}
    (values : list T) (num_rows num_cols : Z)
    (x_min x_max y_min y_max : coordinate_t) (p : point_3d_t) :
  let r := Raster.new values num_rows num_cols x_min x_max y_min y_max in
  well_formed x_min -> well_formed x_max ->
  well_formed y_min -> well_formed y_max ->
  well_formed (get_x p) -> well_formed (get_y p) ->
  0 <= num_rows -> 0 <= num_cols ->
  in_closed_extent r p ->
  ~ finite_negative (Double.div (Double.sub y_max (get_y p)) (Raster._row_height r)) /\
  ~ finite_negative (Double.div (Double.sub (get_x p) x_min) (Raster._col_width r)).
Proof.
  intros r Wx0 Wx1 Wy0 Wy1 Wx Wy Hrows Hcols (Hx0 & Hx1 & Hy0 & Hy1).
  cbn [r Raster.new Raster._x_min Raster._x_max Raster._y_min Raster._y_max] in *.
  split.
  - apply div_not_negative.
    + apply sub_not_negative; assumption.
    + cbn [r Raster.new Raster._row_height]. apply div_not_negative.
      * apply sub_not_negative; try assumption.
        apply (le_trans_wf _ (get_y p)); assumption.
      * apply of_size_t_not_negative; assumption.
  - apply div_not_negative.
    + apply sub_not_negative; assumption.
    + cbn [r Raster.new Raster._col_width]. apply div_not_negative.
      * apply sub_not_negative; try assumption.
        apply (le_trans_wf _ (get_x p)); assumption.
      * apply of_size_t_not_negative; assumption.
Qed.

(** The conversion to [std::size_t] in the program discards the fractional
    part where the specification takes the floor; inside the extent no
    quotient is negative, so the two agree, also where the read is
    undefined. *)
Lemma no_throw_value_at_xy_of_is_cell_value {T : Type}
    (values : list T) (num_rows num_cols : Z)
    (x_min x_max y_min y_max : coordinate_t) (p : point_3d_t) :
  let r := Raster.new values num_rows num_cols x_min x_max y_min y_max in
  well_formed x_min -> well_formed x_max ->
  well_formed y_min -> well_formed y_max ->
  well_formed (get_x p) -> well_formed (get_y p) ->
  0 <= num_rows -> 0 <= num_cols ->
  in_closed_extent r p ->
  Raster.no_throw_value_at_xy_of r p = cell_value r p.
Proof.
  intros r Wx0 Wx1 Wy0 Wy1 Wx Wy Hrows Hcols Hin.
  destruct (quotients_in_extent_not_negative values num_rows num_cols
              x_min x_max y_min y_max p Wx0 Wx1 Wy0 Wy1 Wx Wy Hrows Hcols Hin)
    as [Hrow Hcol].
  cbv zeta in Hrow, Hcol. fold r in Hrow, Hcol.
  unfold cell_value, Raster.no_throw_value_at_xy_of, Raster._flat_index, Raster._cell_of.
  change (Raster._y_max r) with y_max. change (Raster._x_min r) with x_min.
  rewrite (axis_index_to_size_t _ _ Hrow), (axis_index_to_size_t _ _ Hcol).
  destruct (to_size_t (Double.div (Double.sub y_max (get_y p)) (Raster._row_height r)));
    [|reflexivity].
  cbn [of_option bind].
  destruct (to_size_t (Double.div (Double.sub (get_x p) x_min) (Raster._col_width r)));
    reflexivity.
Qed.

Lemma size_t_wrap_small (n : Z) : 0 <= n -> 0 <= size_t_wrap n <= n.
Proof.
  intros Hn. unfold size_t_wrap, size_t_modulus.
  pose proof (Z.mod_pos_bound n (2 ^ 64) ltac:(lia)).
  pose proof (Z.mod_le n (2 ^ 64) Hn ltac:(lia)). lia.
Qed.

Lemma size_t_wrap_id (n : Z) : is_size_t n -> size_t_wrap n = n.
Proof. intros H. apply Z.mod_small. exact H. Qed.

Lemma clamped_index_below (i n : Z) :
  1 <= n -> 0 <= i <= n ->
  0 <= (if i =? n then size_t_wrap (i - 1) else i) <= n - 1.
Proof.
  intros Hn Hi. destruct (Z.eqb_spec i n) as [->|Hne].
  - pose proof (size_t_wrap_small (n - 1) ltac:(lia)). lia.
  - lia.
Qed.

Lemma to_size_t_nonneg (q : double) (i : Z) : to_size_t q = Some i -> 0 <= i.
Proof.
  unfold to_size_t. destruct (truncate q) as [z|]; [|discriminate].
  destruct (0 <=? z) eqn:E; simpl; [|discriminate].
  destruct (z <? size_t_modulus); [|discriminate].
  intros [= <-]. apply Z.leb_le. exact E.
Qed.


(** C6, as amended: for a raster built by the constructor and a point
    inside its closed extent, whenever the two quotients
    (y_max - p.y) / row_height and (p.x - x_min) / col_width have a floor
    that is a [std::size_t], so that row_index and col_index exist (each the
    floor, decremented by one exactly when it equals the number of rows,
    respectively columns), and num_cols * row_index + col_index is below
    the number of values, [no_throw_value_at_xy_of] returns
    values[num_cols * row_index + col_index].  This is the case for every
    raster with between 1 and 2^48 rows and columns, as many values as cells
    and a row height and column width that are positive normal numbers;
    row_index and col_index are then below the numbers of rows and
    columns. *)
Theorem no_throw_value_at_xy_of_returns_the_cell {T : Type}
    (values : list T) (num_rows num_cols : Z)
    (x_min x_max y_min y_max : coordinate_t) (p : point_3d_t) :
  let r := Raster.new values num_rows num_cols x_min x_max y_min y_max in
  let row_quotient := Double.div (Double.sub y_max (get_y p)) (Raster._row_height r) in
  let col_quotient := Double.div (Double.sub (get_x p) x_min) (Raster._col_width r) in
  well_formed x_min -> well_formed x_max ->
  well_formed y_min -> well_formed y_max ->
  well_formed (get_x p) -> well_formed (get_y p) ->
  0 <= num_rows -> 0 <= num_cols -> is_size_t (size values) ->
  in_closed_extent r p ->
  (forall row_index col_index : Z,
      axis_index row_quotient num_rows = Some row_index ->
      axis_index col_quotient num_cols = Some col_index ->
      0 <= num_cols * row_index + col_index < size values ->
      exists v,
        Raster.no_throw_value_at_xy_of r p = Returns v /\
        nth_error values (Z.to_nat (num_cols * row_index + col_index)) = Some v) /\
  (1 <= num_rows <= 2 ^ 48 -> 1 <= num_cols <= 2 ^ 48 ->
   size values = num_rows * num_cols ->
   positive_normal (Raster._row_height r) ->
   positive_normal (Raster._col_width r) ->
   exists (row_index col_index : Z) (v : T),
     axis_index row_quotient num_rows = Some row_index /\
     axis_index col_quotient num_cols = Some col_index /\
     0 <= row_index < num_rows /\ 0 <= col_index < num_cols /\
     Raster.no_throw_value_at_xy_of r p = Returns v /\
     nth_error values (Z.to_nat (num_cols * row_index + col_index)) = Some v).
Proof.
  intros r row_quotient col_quotient Wx0 Wx1 Wy0 Wy1 Wx Wy Hrows Hcols Hsize Hin.
  pose proof (no_throw_value_at_xy_of_is_cell_value values num_rows num_cols
                x_min x_max y_min y_max p Wx0 Wx1 Wy0 Wy1 Wx Wy Hrows Hcols Hin)
    as Hcell.
  cbv zeta in Hcell. fold r in Hcell.
  assert (forall row_index col_index : Z,
             axis_index row_quotient num_rows = Some row_index ->
             axis_index col_quotient num_cols = Some col_index ->
             0 <= num_cols * row_index + col_index < size values ->
             exists v,
               Raster.no_throw_value_at_xy_of r p = Returns v /\
               nth_error values (Z.to_nat (num_cols * row_index + col_index)) = Some v)
    as Hread.
  { intros row_index col_index Hrow Hcol Hbound.
    rewrite Hcell. unfold cell_value.
    change (Raster._y_max r) with y_max. change (Raster._x_min r) with x_min.
    change (Raster._num_rows r) with num_rows.
    change (Raster._num_cols r) with num_cols.
    change (Raster._values r) with values.
    fold row_quotient col_quotient. rewrite Hrow, Hcol. cbn [of_option bind].
    rewrite size_t_wrap_id by (unfold is_size_t in *; lia).
    unfold at_index.
    destruct (Z.ltb_spec (num_cols * row_index + col_index) 0) as [|_]; [lia|].
    destruct (nth_error values (Z.to_nat (num_cols * row_index + col_index)))
      as [v|] eqn:Hv.
    - exists v. split; reflexivity.
    - exfalso. apply nth_error_None in Hv. unfold size in Hbound. lia. }
  split; [exact Hread|].
  intros Hrows' Hcols' Hcells Nrow Ncol.
  destruct (quotients_in_extent_not_negative values num_rows num_cols
              x_min x_max y_min y_max p Wx0 Wx1 Wy0 Wy1 Wx Wy Hrows Hcols Hin)
    as [Nr Nc].
  cbv zeta in Nr, Nc. fold r in Nr, Nc. fold row_quotient in Nr. fold col_quotient in Nc.
  destruct Hin as (Hx0 & Hx1 & Hy0 & Hy1).
  cbn [r Raster.new Raster._x_min Raster._x_max Raster._y_min Raster._y_max] in *.
  destruct (axis_index_from_hi y_min (get_y p) y_max num_rows Wy0 Wy Wy1 Hy0 Hy1
              Hrows' Nrow) as (row & Hrow & Hrowle).
  destruct (axis_index_from_lo x_min (get_x p) x_max num_cols Wx0 Wx Wx1 Hx0 Hx1
              Hcols' Ncol) as (col & Hcol & Hcolle).
  pose proof (axis_index_to_size_t row_quotient num_rows Nr) as Arow.
  pose proof (axis_index_to_size_t col_quotient num_cols Nc) as Acol.
  unfold row_quotient in Arow at 2. unfold col_quotient in Acol at 2.
  cbn [r Raster.new Raster._row_height Raster._col_width] in Arow, Acol.
  rewrite Hrow in Arow. rewrite Hcol in Acol.
  pose proof (clamped_index_below row num_rows ltac:(lia)
                (conj (to_size_t_nonneg _ _ Hrow) Hrowle)) as Br.
  pose proof (clamped_index_below col num_cols ltac:(lia)
                (conj (to_size_t_nonneg _ _ Hcol) Hcolle)) as Bc.
  set (row_index := if row =? num_rows then size_t_wrap (row - 1) else row) in *.
  set (col_index := if col =? num_cols then size_t_wrap (col - 1) else col) in *.
  destruct (Hread row_index col_index Arow Acol ltac:(nia)) as (v & Hv & Hnth).
  exists row_index, col_index, v.
  split; [exact Arow|]. split; [exact Acol|].
  split; [lia|]. split; [lia|]. split; [exact Hv|exact Hnth].
Qed.

Lemma no_throw_value_at_xy_of_returns_the_cell_witness :
  exists (row_index col_index : Z) (v : double),
    axis_index
      (Double.div (Double.sub two half)
         (Raster._row_height
            (Raster.new [one; two; half; quarter] 2 2 zero two zero two))) 2
      = Some row_index /\
    axis_index
      (Double.div (Double.sub two zero)
         (Raster._col_width
            (Raster.new [one; two; half; quarter] 2 2 zero two zero two))) 2
      = Some col_index /\
    0 <= row_index < 2 /\ 0 <= col_index < 2 /\
    Raster.no_throw_value_at_xy_of
      (Raster.new [one; two; half; quarter] 2 2 zero two zero two)
      (a_point two half zero) = Returns v /\
    nth_error [one; two; half; quarter] (Z.to_nat (2 * row_index + col_index))
      = Some v.
Proof.
  apply (proj2 (no_throw_value_at_xy_of_returns_the_cell
                  [one; two; half; quarter] 2 2 zero two zero two
                  (a_point two half zero)
                  eq_refl eq_refl eq_refl eq_refl eq_refl eq_refl
                  ltac:(lia) ltac:(lia)
                  ltac:(unfold is_size_t, size_t_modulus, size; simpl; lia)
                  ltac:(repeat split; first [left; reflexivity | right; reflexivity])));
    try lia; try reflexivity;
    eexists _, _; (split; [reflexivity|lia]).
Defined.

(** C6, as stated, fails for a raster without width: with x_min = x_max
    the column width is 0, the quotient for the point on the line
    x = x_min = x_max is 0 / 0, which is NaN, and its conversion to
    [std::size_t] is undefined; no value is returned. *)
Lemma raster_without_width_returns_no_value :
  let r := Raster.new [one] 1 1 one one zero two in
  let p := a_point one one zero in
  (finite (get_x p) /\ finite (get_y p) /\
   Raster.has_value_at_xy_of r p = true) /\
  Raster._col_width r = zero /\
  Double.div (Double.sub (get_x p) (Raster._x_min r)) (Raster._col_width r)
    = S754_nan /\
  axis_index
    (Double.div (Double.sub (get_x p) (Raster._x_min r)) (Raster._col_width r))
    (Raster._num_cols r) = None /\
  Raster.no_throw_value_at_xy_of r p = Undefined.
Proof.
  cbv zeta. repeat split; reflexivity.
Qed.

(** C10: the position read can lie beyond the values.  The raster has 4
    columns over [0, 5 * 2^-1074]; the column width 1.25 * 2^-1074 rounds
    to 2^-1074, and the point at x = x_max, inside the extent, gets the
    column 5, which the correction for the right edge leaves as it is not
    4: position 5 of 4 values is read, by [no_throw_value_at_xy_of] and so
    by [value_at_xy_of], which neither throws nor returns a value of the
    raster. *)
Lemma subnormal_extent_overruns_values :
  let values := [one; one; one; one] in
  let r := Raster.new values 1 4 zero five_tiny zero one in
  let p := a_point five_tiny half zero in
  (1 <= 1 /\ 1 <= 4 /\ size values = 1 * 4 /\
   lt zero five_tiny /\ lt zero one /\
   finite (get_x p) /\ finite (get_y p) /\
   well_formed five_tiny /\
   Raster.has_value_at_xy_of r p = true) /\
  Raster._col_width r = S754_finite false 1 (-1074) /\
  Raster._flat_index r p = Returns 5 /\
  ~ 5 < size values /\
  Raster.no_throw_value_at_xy_of r p = Undefined /\
  Raster.value_at_xy_of r p = Undefined.
Proof.
  cbv zeta. repeat split; try reflexivity; try lia.
  unfold size. simpl. lia.
Qed.

(** *** Kernel helpers *)

Lemma quarter_is_one_fourth : quarter = Double.div one (of_size_t 4).
Proof. reflexivity. Qed.

(** C3: [bottom_height_above_ground_with h r] is the larger of 0 and
    h - (h * r) * 0.25, the height minus one quarter of the kernel height
    h * r, clamped below at the ground level 0.  NaN is comparable with
    nothing: when h - (h * r) * 0.25 is NaN, so is the result. *)
Theorem bottom_height_above_ground_with_is_clamped
    (point_height_above_ground : coordinate_t)
    (crown_height_to_tree_height : double) :
  let kernel_height :=
    Double.mul point_height_above_ground crown_height_to_tree_height in
  let unclamped :=
    Double.sub point_height_above_ground (Double.mul kernel_height quarter) in
  let result :=
    ams3d._Kernel.bottom_height_above_ground_with
      point_height_above_ground crown_height_to_tree_height in
  (unclamped = S754_nan -> result = S754_nan) /\
  (unclamped <> S754_nan -> is_max_of zero unclamped result).
Proof.
  intros kernel_height unclamped result.
  unfold result, ams3d._Kernel.bottom_height_above_ground_with.
  fold kernel_height. fold unclamped.
  destruct (Double.ltb unclamped zero) eqn:Hlt.
  - apply ltb_lt in Hlt. split.
    + intros E. rewrite E in Hlt. discriminate Hlt.
    + intros _. repeat split.
      * right; reflexivity.
      * apply lt_le; assumption.
      * left; reflexivity.
  - split; [trivial|]. intros Hnan. repeat split.
    + apply not_lt_le; [assumption|discriminate|].
      intros H. apply ltb_lt in H. congruence.
    + right. apply compare_refl; assumption.
    + right; reflexivity.
Qed.

(** C4: [gauss_unsquared x] is exp(-5 * x), the coefficient being fixed at
    -5, and [epanechnikov_unsquared x] is 1 - x; so the weight of a point
    is (1 - s_h) * exp(-5 * s_v) for its squared relative distances s_h and
    s_v. *)
Theorem profile_functions (exp : double -> double) (x : double) :
  ams3d._math_functions.gauss_unsquared exp x
    = exp (Double.mul (SFopp (of_size_t 5)) x) /\
  ams3d._math_functions.gaussian_gamma = SFopp (of_size_t 5) /\
  ams3d._math_functions.epanechnikov_unsquared x
    = Double.sub (of_size_t 1) x /\
  forall (k : ams3d._Kernel.t) (p : point_3d_t),
    let s_h :=
      ams3d._Kernel._calculate_squared_relative_horizontal_distance_of_center_to k p in
    let s_v :=
      ams3d._Kernel._calculate_squared_relative_vertical_distance_of_center_to k p in
    ams3d._Kernel._calculate_point_weight_of exp k p
      = Double.mul (Double.sub (of_size_t 1) s_h)
                   (exp (Double.mul (SFopp (of_size_t 5)) s_v)).
Proof. repeat split. Qed.

(** C9: [bottom_height_above_ground_grid_with h g] returns a raster with
    as many values as [g] whose i-th value is
    [bottom_height_above_ground_with h] of the i-th value of [g]; its call
    of [copy_w_new_values] never throws. *)
Theorem bottom_height_grid_is_elementwise (h : coordinate_t) :
  (forall r : Raster.t double, elementwise_bottom_heights h (Grid r)) /\
  (forall value : double,
      elementwise_bottom_heights h (Constant (Single_value_pseudo_raster.new value))).
Proof.
  split.
  - intros r. unfold elementwise_bottom_heights,
      ams3d._Kernel.bottom_height_above_ground_grid_with. simpl.
    unfold Raster.copy_w_new_values, Raster.values.
    unfold size. rewrite length_map, Z.eqb_refl. simpl.
    eexists; split; [reflexivity|]. simpl. rewrite length_map. split; [reflexivity|].
    intros i ratio H. rewrite nth_error_map, H. reflexivity.
  - intros value. unfold elementwise_bottom_heights. simpl.
    eexists; split; [reflexivity|]. simpl. split; [reflexivity|].
    intros [|[|i]] ratio H; simpl in *; try discriminate.
    injection H as <-. reflexivity.
Qed.

(** *** Filtered iteration *)

Lemma skipn_cons_nth {A : Type} (points : list A) (i : nat) (p : A) (l : list A) :
  skipn i points = p :: l ->
  nth_error points i = Some p /\ skipn (S i) points = l /\ (i < List.length points)%nat.
Proof.
  revert i. induction points as [|q ps IH]; intros i Hs.
  - destruct i; discriminate.
  - destruct i as [|i].
    + simpl in Hs. injection Hs as -> ->. simpl. repeat split. lia.
    + simpl in Hs. destruct (IH i Hs) as (H1 & H2 & H3). simpl. repeat split; auto. lia.
Qed.

Lemma drop_skipped_length skip_test (l l' : list point_3d_t) :
  drop_skipped skip_test l = Returns l' -> (List.length l' <= List.length l)%nat.
Proof.
  revert l'. induction l as [|a l IH]; intros l' Hd.
  - injection Hd as <-. simpl. lia.
  - cbn [drop_skipped] in Hd.
    destruct (skip_test a) as [[|]| |]; simpl in Hd; try discriminate.
    + apply IH in Hd. simpl. lia.
    + injection Hd as <-. lia.
Qed.

Lemma drop_skipped_idempotent skip_test (l l' : list point_3d_t) :
  drop_skipped skip_test l = Returns l' -> drop_skipped skip_test l' = Returns l'.
Proof.
  revert l'. induction l as [|a l IH]; intros l' Hd.
  - injection Hd as <-. reflexivity.
  - cbn [drop_skipped] in Hd.
    destruct (skip_test a) as [[|]| |] eqn:Ea; simpl in Hd; try discriminate.
    + auto.
    + injection Hd as <-. cbn [drop_skipped]. rewrite Ea. reflexivity.
Qed.

Section Filtered_range.

Context {Iterator : Type} `{Input_iterator Iterator}.
Variable points : list point_3d_t.
Variable skip_test : point_3d_t -> outcome bool.
Variable _skip_current_point : Iterator -> outcome bool.
Variable _ptr_succ : Iterator -> Iterator.
Variable offset_of : Iterator -> nat.
Variable ranges_over_points : Iterator -> Prop.

Hypothesis succ_ranges : forall it,
  ranges_over_points it -> ranges_over_points (_ptr_succ it).
Hypothesis succ_offset : forall it, offset_of (_ptr_succ it) = S (offset_of it).
Hypothesis skip_at_end : forall it,
  ranges_over_points it -> offset_of it = List.length points ->
  _skip_current_point it = Returns false.
Hypothesis skip_at_point : forall it p,
  ranges_over_points it -> nth_error points (offset_of it) = Some p ->
  _skip_current_point it = skip_test p.
Hypothesis dereference_at : forall it,
  ranges_over_points it ->
  dereference it = of_option (nth_error points (offset_of it)).
Hypothesis increment_at : forall it,
  ranges_over_points it ->
  increment it =
    skip_loop _skip_current_point _ptr_succ
              (S (List.length points - S (offset_of it))) (_ptr_succ it).
Hypothesis eqb_at : forall a b,
  iterator_eqb a b = Nat.eqb (offset_of a) (offset_of b).

Lemma skip_loop_drops (l : list point_3d_t) : forall (it : Iterator) (fuel : nat),
  ranges_over_points it -> skipn (offset_of it) points = l ->
  (offset_of it <= List.length points)%nat -> (List.length l < fuel)%nat ->
  match drop_skipped skip_test l with
  | Returns l' =>
      exists it', skip_loop _skip_current_point _ptr_succ fuel it = Returns it' /\
        ranges_over_points it' /\ skipn (offset_of it') points = l' /\
        (offset_of it' <= List.length points)%nat
  | Throws e => skip_loop _skip_current_point _ptr_succ fuel it = Throws e
  | Undefined => skip_loop _skip_current_point _ptr_succ fuel it = Undefined
  end.
Proof.
  induction l as [|p l IH]; intros it fuel Hr Hs Hle Hf.
  - destruct fuel as [|fuel]; [simpl in Hf; lia|]. simpl.
    assert (offset_of it = List.length points) as Hend.
    { apply (f_equal (@List.length _)) in Hs. rewrite length_skipn in Hs. simpl in Hs. lia. }
    rewrite (skip_at_end it Hr Hend). simpl. exists it. auto.
  - destruct fuel as [|fuel]; [simpl in Hf; lia|].
    destruct (skipn_cons_nth _ _ _ _ Hs) as (Hn & Hs' & Hlt).
    cbn [drop_skipped skip_loop]. rewrite (skip_at_point it p Hr Hn).
    destruct (skip_test p) as [[|]| |]; simpl; auto.
    + apply IH; auto.
      * rewrite succ_offset. exact Hs'.
      * rewrite succ_offset. lia.
      * simpl in Hf. lia.
    + exists it. auto.
Qed.

Lemma kept_of_skip (p : point_3d_t) (o : outcome bool) :
  skip_test p = o -> kept skip_test p = (skip <- o ;; Returns (negb skip)).
Proof. intros <-. reflexivity. Qed.

Lemma filter_outcome_drop_skipped (l : list point_3d_t) :
  match drop_skipped skip_test l with
  | Returns l' =>
      filter_outcome (kept skip_test) l = filter_outcome (kept skip_test) l'
  | Throws e => filter_outcome (kept skip_test) l = Throws e
  | Undefined => filter_outcome (kept skip_test) l = Undefined
  end.
Proof.
  induction l as [|p l IH]; [reflexivity|].
  cbn [drop_skipped].
  destruct (skip_test p) as [[|]| |] eqn:E; cbn [bind];
    try (cbn [filter_outcome]; rewrite (kept_of_skip _ _ E); reflexivity).
  cbn [filter_outcome]. rewrite (kept_of_skip _ _ E). cbn [bind negb].
  destruct (drop_skipped skip_test l) as [l'| |]; rewrite IH; simpl; auto.
  destruct (filter_outcome (kept skip_test) l'); reflexivity.
Qed.

Lemma index_of_range_step (fuel : nat) (first last : Iterator) :
  index_of_range (S fuel) first last =
    if iterator_eqb first last then Returns []
    else
      p <- dereference first ;;
      next <- increment first ;;
      rest <- index_of_range fuel next last ;;
      Returns (p :: rest).
Proof. reflexivity. Qed.

Lemma index_of_range_filters : forall (n : nat) (l : list point_3d_t) (first last : Iterator),
  ranges_over_points first -> skipn (offset_of first) points = l ->
  (offset_of first <= List.length points)%nat ->
  drop_skipped skip_test l = Returns l ->
  offset_of last = List.length points ->
  (List.length l <= n)%nat ->
  index_of_range (S n) first last = filter_outcome (kept skip_test) l.
Proof.
  induction n as [|n IH]; intros l first last Hr Hs Hle Hd Hlast Hn.
  - destruct l; [|simpl in Hn; lia]. simpl.
    rewrite eqb_at, Hlast.
    apply (f_equal (@List.length _)) in Hs. rewrite length_skipn in Hs. simpl in Hs.
    replace (offset_of first) with (List.length points) by lia.
    rewrite Nat.eqb_refl. reflexivity.
  - destruct l as [|p l].
    + rewrite index_of_range_step, eqb_at, Hlast.
      apply (f_equal (@List.length _)) in Hs. rewrite length_skipn in Hs. simpl in Hs.
      replace (offset_of first) with (List.length points) by lia.
      rewrite Nat.eqb_refl. reflexivity.
    + destruct (skipn_cons_nth _ _ _ _ Hs) as (Hnth & Hs' & Hlt).
      rewrite index_of_range_step, eqb_at, Hlast.
      destruct (Nat.eqb_spec (offset_of first) (List.length points)) as [E|_]; [lia|].
      rewrite (dereference_at first Hr), Hnth. cbn [of_option bind].
      rewrite (increment_at first Hr).
      cbn [drop_skipped] in Hd. cbn [filter_outcome].
      destruct (skip_test p) as [[|]| |] eqn:E; simpl in Hd; try discriminate;
        rewrite (kept_of_skip _ _ E).
      { apply drop_skipped_length in Hd. simpl in Hd. lia. }
      cbn [bind negb].
      pose proof (skip_loop_drops l (_ptr_succ first)
                    (S (List.length points - S (offset_of first)))
                    (succ_ranges _ Hr)) as Hloop.
      rewrite succ_offset in Hloop.
      specialize (Hloop Hs' ltac:(lia)).
      assert (List.length l < S (List.length points - S (offset_of first)))%nat as Hfuel.
      { rewrite <- Hs', length_skipn. lia. }
      specialize (Hloop Hfuel).
      pose proof (filter_outcome_drop_skipped l) as Hfilter.
      destruct (drop_skipped skip_test l) as [l'| |] eqn:Hdrop.
      * destruct Hloop as (it' & -> & Hr' & Hs'' & Hle').
        cbn [bind]. rewrite Hfilter.
        rewrite (IH l' it' last Hr' Hs'' Hle'); auto.
        -- eapply drop_skipped_idempotent; eassumption.
        -- apply drop_skipped_length in Hdrop. simpl in Hn. lia.
      * rewrite Hloop, Hfilter. reflexivity.
      * rewrite Hloop, Hfilter. reflexivity.
Qed.

Lemma index_of_filtered_range (first last : Iterator) :
  ranges_over_points first -> offset_of first = 0%nat ->
  offset_of last = List.length points ->
  (settled <- skip_loop _skip_current_point _ptr_succ
                        (S (List.length points)) first ;;
   index_of_range (S (List.length points)) settled last)
  = filter_outcome (kept skip_test) points.
Proof.
  intros Hr H0 Hlast.
  pose proof (skip_loop_drops points first (S (List.length points)) Hr) as Hloop.
  rewrite H0 in Hloop. specialize (Hloop eq_refl ltac:(lia) ltac:(lia)).
  pose proof (filter_outcome_drop_skipped points) as Hfilter.
  destruct (drop_skipped skip_test points) as [l'| |] eqn:Hdrop.
  - destruct Hloop as (it' & -> & Hr' & Hs' & Hle'). cbn [bind].
    rewrite Hfilter. apply index_of_range_filters; auto.
    + eapply drop_skipped_idempotent; eassumption.
    + apply drop_skipped_length in Hdrop. exact Hdrop.
  - rewrite Hloop, Hfilter. reflexivity.
  - rewrite Hloop, Hfilter. reflexivity.
Qed.

End Filtered_range.

Lemma filter_outcome_kept {A : Type} (keep : A -> outcome bool) (l ys : list A) :
  filter_outcome keep l = Returns ys ->
  Forall (fun a => keep a = Returns true) ys.
Proof.
  revert ys. induction l as [|a l IH]; intros ys Hf.
  - injection Hf as <-. constructor.
  - cbn [filter_outcome] in Hf.
    destruct (keep a) as [b| |] eqn:Ea; cbn [bind] in Hf; try discriminate.
    destruct (filter_outcome keep l) as [kept_l| |]; cbn [bind] in Hf; try discriminate.
    injection Hf as <-. destruct b; auto.
Qed.

Lemma pointer_deref_at (points : list point_3d_t) (ptr : pointer) (p : point_3d_t) :
  block ptr = points -> nth_error points (offset ptr) = Some p ->
  pointer_deref ptr = Returns p.
Proof. intros <- H. unfold pointer_deref. rewrite H. reflexivity. Qed.

Lemma address_of_dereferenced_returns (points : list point_3d_t) (ptr : pointer) :
  points <> [] -> address_of_dereferenced points ptr = Returns ptr.
Proof. destruct points; [congruence|reflexivity]. Qed.

Lemma filtered_index_nonempty keep (points : list point_3d_t) :
  points <> [] -> filtered_index keep points = filter_outcome keep points.
Proof. destruct points; [congruence|reflexivity]. Qed.

Lemma filtered_index_returns keep (points index : list point_3d_t) :
  filtered_index keep points = Returns index ->
  points <> [] /\ filter_outcome keep points = Returns index.
Proof.
  destruct points; [discriminate|]. intros H. split; [discriminate|exact H].
Qed.

(** **** Points above a height *)

Lemma distance_whole_vector (points : list point_3d_t) :
  distance_to (pointer_to_begin points) (pointer_to_end points) = List.length points.
Proof. unfold distance_to. simpl. lia. Qed.

Lemma above_height_cend_returns points min_height :
  points <> [] ->
  _Finite_points_above_height_iterator.cend points min_height
  = Returns {| _Finite_points_above_height_iterator._ptr := pointer_to_end points;
               _Finite_points_above_height_iterator._end_ptr := pointer_to_end points;
               _Finite_points_above_height_iterator._min_height := min_height |}.
Proof.
  intros Hne.
  unfold _Finite_points_above_height_iterator.cend.
  rewrite !address_of_dereferenced_returns by exact Hne. cbn [bind].
  unfold _Finite_points_above_height_iterator.new,
    _Finite_points_above_height_iterator._skip_points.
  cbn [skip_loop].
  unfold _Finite_points_above_height_iterator._skip_current_point, pointer_eqb.
  cbn [_Finite_points_above_height_iterator._ptr
       _Finite_points_above_height_iterator._end_ptr].
  rewrite Nat.eqb_refl. reflexivity.
Qed.

Lemma create_index_of_finite_of_elements points min_height :
  points <> [] ->
  create_index_of_finite points min_height
  = filter_outcome (kept (above_height_skip_test min_height)) points.
Proof.
  intros Hne.
  unfold create_index_of_finite.
  rewrite above_height_cend_returns by exact Hne.
  unfold _Finite_points_above_height_iterator.cbegin.
  rewrite !address_of_dereferenced_returns by exact Hne. cbn [bind].
  unfold _Finite_points_above_height_iterator.new,
    _Finite_points_above_height_iterator._skip_points.
  cbn [_Finite_points_above_height_iterator._ptr
       _Finite_points_above_height_iterator._end_ptr distance_to
       pointer_to_begin pointer_to_end offset].
  rewrite distance_whole_vector.
  match goal with
  | |- bind ?c _ = _ =>
      transitivity (settled <- c ;; index_of_range (S (List.length points)) settled
        {| _Finite_points_above_height_iterator._ptr := pointer_to_end points;
           _Finite_points_above_height_iterator._end_ptr := pointer_to_end points;
           _Finite_points_above_height_iterator._min_height := min_height |});
      [destruct c; reflexivity|]
  end.
  apply (index_of_filtered_range points (above_height_skip_test min_height)
           _Finite_points_above_height_iterator._skip_current_point
           _Finite_points_above_height_iterator._ptr_succ
           (fun it => offset (_Finite_points_above_height_iterator._ptr it))
           (fun it =>
              block (_Finite_points_above_height_iterator._ptr it) = points /\
              offset (_Finite_points_above_height_iterator._end_ptr it)
                = List.length points /\
              _Finite_points_above_height_iterator._min_height it = min_height)).
  - intros it (Hb & He & Hm). repeat split; assumption.
  - reflexivity.
  - intros it (Hb & He & Hm) Hend.
    unfold _Finite_points_above_height_iterator._skip_current_point, pointer_eqb.
    rewrite Hend, He, Nat.eqb_refl. reflexivity.
  - intros it p (Hb & He & Hm) Hp.
    unfold _Finite_points_above_height_iterator._skip_current_point, pointer_eqb.
    assert (offset (_Finite_points_above_height_iterator._ptr it) < List.length points)%nat
      as Hlt by (apply nth_error_Some; congruence).
    rewrite He. destruct (Nat.eqb_spec (offset (_Finite_points_above_height_iterator._ptr it)) (List.length points)); [lia|].
    rewrite (pointer_deref_at points _ p Hb Hp). cbn [bind]. rewrite Hm. reflexivity.
  - intros it (Hb & He & Hm). cbn [dereference above_height_iterator].
    unfold _Finite_points_above_height_iterator.dereference, pointer_deref.
    rewrite Hb. reflexivity.
  - intros it (Hb & He & Hm). cbn [increment above_height_iterator].
    unfold _Finite_points_above_height_iterator.increment,
      _Finite_points_above_height_iterator._skip_points.
    unfold distance_to. simpl. rewrite He. reflexivity.
  - reflexivity.
  - repeat split.
  - reflexivity.
  - reflexivity.
Qed.

Lemma create_index_of_finite_filters points min_height :
  create_index_of_finite points min_height
  = filtered_index (kept (above_height_skip_test min_height)) points.
Proof.
  destruct points as [|p rest]; [reflexivity|].
  apply create_index_of_finite_of_elements. discriminate.
Qed.

(** **** Points above the ground *)

Lemma above_ground_cend_returns points :
  points <> [] ->
  _Finite_points_above_ground_iterator.cend points
  = Returns {| _Finite_points_above_ground_iterator._ptr := pointer_to_end points;
               _Finite_points_above_ground_iterator._end_ptr := pointer_to_end points;
               _Finite_points_above_ground_iterator._min_height_above_ground := zero;
               _Finite_points_above_ground_iterator._ground_height_grid_ptr := None |}.
Proof.
  intros Hne.
  unfold _Finite_points_above_ground_iterator.cend.
  rewrite !address_of_dereferenced_returns by exact Hne. cbn [bind].
  unfold _Finite_points_above_ground_iterator.new,
    _Finite_points_above_ground_iterator._skip_points.
  cbn [skip_loop].
  unfold _Finite_points_above_ground_iterator._skip_current_point, pointer_eqb.
  cbn [_Finite_points_above_ground_iterator._ptr
       _Finite_points_above_ground_iterator._end_ptr].
  rewrite Nat.eqb_refl. reflexivity.
Qed.

Lemma create_index_of_above_ground_of_elements points min_height_above_ground
    ground_height_grid_ptr :
  points <> [] ->
  create_index_of_above_ground points min_height_above_ground ground_height_grid_ptr
  = filter_outcome
      (kept (above_ground_skip_test min_height_above_ground ground_height_grid_ptr))
      points.
Proof.
  intros Hne.
  unfold create_index_of_above_ground.
  rewrite above_ground_cend_returns by exact Hne.
  unfold _Finite_points_above_ground_iterator.cbegin.
  rewrite !address_of_dereferenced_returns by exact Hne. cbn [bind].
  unfold _Finite_points_above_ground_iterator.new,
    _Finite_points_above_ground_iterator._skip_points.
  cbn [_Finite_points_above_ground_iterator._ptr
       _Finite_points_above_ground_iterator._end_ptr].
  rewrite distance_whole_vector.
  apply (index_of_filtered_range points
           (above_ground_skip_test min_height_above_ground ground_height_grid_ptr)
           _Finite_points_above_ground_iterator._skip_current_point
           _Finite_points_above_ground_iterator._ptr_succ
           (fun it => offset (_Finite_points_above_ground_iterator._ptr it))
           (fun it =>
              block (_Finite_points_above_ground_iterator._ptr it) = points /\
              offset (_Finite_points_above_ground_iterator._end_ptr it)
                = List.length points /\
              _Finite_points_above_ground_iterator._min_height_above_ground it
                = min_height_above_ground /\
              _Finite_points_above_ground_iterator._ground_height_grid_ptr it
                = ground_height_grid_ptr)).
  - intros it (Hb & He & Hm & Hg). repeat split; assumption.
  - reflexivity.
  - intros it (Hb & He & Hm & Hg) Hend.
    unfold _Finite_points_above_ground_iterator._skip_current_point, pointer_eqb.
    rewrite Hend, He, Nat.eqb_refl. reflexivity.
  - intros it p (Hb & He & Hm & Hg) Hp.
    unfold _Finite_points_above_ground_iterator._skip_current_point, pointer_eqb.
    assert (offset (_Finite_points_above_ground_iterator._ptr it) < List.length points)%nat
      as Hlt by (apply nth_error_Some; congruence).
    rewrite He.
    destruct (Nat.eqb_spec (offset (_Finite_points_above_ground_iterator._ptr it))
                           (List.length points)); [lia|].
    rewrite (pointer_deref_at points _ p Hb Hp). cbn [bind]. rewrite Hm, Hg. reflexivity.
  - intros it (Hb & He & Hm & Hg). cbn [dereference above_ground_iterator].
    unfold _Finite_points_above_ground_iterator.dereference, pointer_deref.
    rewrite Hb. reflexivity.
  - intros it (Hb & He & Hm & Hg). cbn [increment above_ground_iterator].
    unfold _Finite_points_above_ground_iterator.increment,
      _Finite_points_above_ground_iterator._skip_points.
    unfold distance_to. simpl. rewrite He. reflexivity.
  - reflexivity.
  - repeat split.
  - reflexivity.
  - reflexivity.
Qed.

Lemma create_index_of_above_ground_filters points min_height_above_ground
    ground_height_grid_ptr :
  create_index_of_above_ground points min_height_above_ground ground_height_grid_ptr
  = filtered_index
      (kept (above_ground_skip_test min_height_above_ground ground_height_grid_ptr))
      points.
Proof.
  destruct points as [|p rest]; [reflexivity|].
  apply create_index_of_above_ground_of_elements. discriminate.
Qed.

(** **** Points above a grid of minimum heights *)

Lemma above_height_grid_cend_returns points :
  points <> [] ->
  _Finite_points_above_height_grid_iterator.cend points
  = Returns {| _Finite_points_above_height_grid_iterator._ptr := pointer_to_end points;
               _Finite_points_above_height_grid_iterator._end_ptr := pointer_to_end points;
               _Finite_points_above_height_grid_iterator._min_height_above_ground_grid := None;
               _Finite_points_above_height_grid_iterator._ground_height_grid_ptr := None |}.
Proof.
  intros Hne.
  unfold _Finite_points_above_height_grid_iterator.cend.
  rewrite !address_of_dereferenced_returns by exact Hne. cbn [bind].
  unfold _Finite_points_above_height_grid_iterator.new,
    _Finite_points_above_height_grid_iterator._skip_points.
  cbn [skip_loop].
  unfold _Finite_points_above_height_grid_iterator._skip_current_point, pointer_eqb.
  cbn [_Finite_points_above_height_grid_iterator._ptr
       _Finite_points_above_height_grid_iterator._end_ptr].
  rewrite Nat.eqb_refl. reflexivity.
Qed.

Lemma create_index_of_above_ground_grid_of_elements points
    min_height_above_ground_grid_ptr ground_height_grid_ptr :
  points <> [] ->
  create_index_of_above_ground_grid points min_height_above_ground_grid_ptr
                                    ground_height_grid_ptr
  = filter_outcome
      (kept (above_height_grid_skip_test min_height_above_ground_grid_ptr
                                         ground_height_grid_ptr))
      points.
Proof.
  intros Hne.
  unfold create_index_of_above_ground_grid.
  rewrite above_height_grid_cend_returns by exact Hne.
  unfold _Finite_points_above_height_grid_iterator.cbegin.
  rewrite !address_of_dereferenced_returns by exact Hne. cbn [bind].
  unfold _Finite_points_above_height_grid_iterator.new,
    _Finite_points_above_height_grid_iterator._skip_points.
  cbn [_Finite_points_above_height_grid_iterator._ptr
       _Finite_points_above_height_grid_iterator._end_ptr].
  rewrite distance_whole_vector.
  apply (index_of_filtered_range points
           (above_height_grid_skip_test min_height_above_ground_grid_ptr
                                        ground_height_grid_ptr)
           _Finite_points_above_height_grid_iterator._skip_current_point
           _Finite_points_above_height_grid_iterator._ptr_succ
           (fun it => offset (_Finite_points_above_height_grid_iterator._ptr it))
           (fun it =>
              block (_Finite_points_above_height_grid_iterator._ptr it) = points /\
              offset (_Finite_points_above_height_grid_iterator._end_ptr it)
                = List.length points /\
              _Finite_points_above_height_grid_iterator._min_height_above_ground_grid it
                = min_height_above_ground_grid_ptr /\
              _Finite_points_above_height_grid_iterator._ground_height_grid_ptr it
                = ground_height_grid_ptr)).
  - intros it (Hb & He & Hm & Hg). repeat split; assumption.
  - reflexivity.
  - intros it (Hb & He & Hm & Hg) Hend.
    unfold _Finite_points_above_height_grid_iterator._skip_current_point, pointer_eqb.
    rewrite Hend, He, Nat.eqb_refl. reflexivity.
  - intros it p (Hb & He & Hm & Hg) Hp.
    unfold _Finite_points_above_height_grid_iterator._skip_current_point, pointer_eqb.
    assert (offset (_Finite_points_above_height_grid_iterator._ptr it) < List.length points)%nat
      as Hlt by (apply nth_error_Some; congruence).
    rewrite He.
    destruct (Nat.eqb_spec (offset (_Finite_points_above_height_grid_iterator._ptr it))
                           (List.length points)); [lia|].
    rewrite (pointer_deref_at points _ p Hb Hp). cbn [bind]. rewrite Hm, Hg. reflexivity.
  - intros it (Hb & He & Hm & Hg). cbn [dereference above_height_grid_iterator].
    unfold _Finite_points_above_height_grid_iterator.dereference, pointer_deref.
    rewrite Hb. reflexivity.
  - intros it (Hb & He & Hm & Hg). cbn [increment above_height_grid_iterator].
    unfold _Finite_points_above_height_grid_iterator.increment,
      _Finite_points_above_height_grid_iterator._skip_points.
    unfold distance_to. simpl. rewrite He. reflexivity.
  - reflexivity.
  - repeat split.
  - reflexivity.
  - reflexivity.
Qed.

Lemma create_index_of_above_ground_grid_filters points
    min_height_above_ground_grid_ptr ground_height_grid_ptr :
  create_index_of_above_ground_grid points min_height_above_ground_grid_ptr
                                    ground_height_grid_ptr
  = filtered_index
      (kept (above_height_grid_skip_test min_height_above_ground_grid_ptr
                                         ground_height_grid_ptr))
      points.
Proof.
  destruct points as [|p rest]; [reflexivity|].
  apply create_index_of_above_ground_grid_of_elements. discriminate.
Qed.

Lemma kept_true_not_skipped skip_test p :
  kept skip_test p = Returns true -> skip_test p = Returns false.
Proof.
  unfold kept. destruct (skip_test p) as [[|]| |]; simpl; congruence.
Qed.

Lemma not_skipped_not_below (h min : double) :
  finite h -> Double.ltb h min = false -> not_below h min.
Proof.
  intros Hf Hlt. split.
  - intros H. apply ltb_lt in H. congruence.
  - intros Hmin. apply not_lt_le; [apply finite_not_nan; assumption|assumption|].
    intros H. apply ltb_lt in H. congruence.
Qed.

Lemma above_height_kept_ok min_height p :
  kept (above_height_skip_test min_height) p = Returns true ->
  above_height_ok min_height p.
Proof.
  intros H. apply kept_true_not_skipped in H. unfold above_height_skip_test in H.
  destruct (has_non_finite_coordinate_value p) eqn:Hfin; [discriminate H|].
  apply has_non_finite_coordinate_value_spec in Hfin. injection H as H.
  split; [assumption|]. apply not_skipped_not_below; [apply Hfin|assumption].
Qed.

Lemma above_ground_kept_ok min_height_above_ground ground_height_grid p :
  kept (above_ground_skip_test min_height_above_ground (Some ground_height_grid)) p
    = Returns true ->
  above_ground_ok min_height_above_ground ground_height_grid p.
Proof.
  intros H. apply kept_true_not_skipped in H. unfold above_ground_skip_test in H.
  destruct (has_non_finite_coordinate_value p) eqn:Hfin; [discriminate H|].
  apply has_non_finite_coordinate_value_spec in Hfin.
  cbn [shared_ptr_deref of_option bind] in H.
  destruct (Raster.no_throw_value_at_xy_of ground_height_grid p) as [g| |] eqn:Eg;
    cbn [bind] in H; try discriminate H.
  injection H as H. apply orb_false_iff in H as [Hf Hlt].
  apply negb_false_iff in Hf.
  split; [assumption|]. exists g. split; [exact Eg|]. split; [exact Hf|].
  apply not_skipped_not_below; assumption.
Qed.

Lemma above_height_grid_kept_ok min_height_above_ground_grid ground_height_grid p :
  kept (above_height_grid_skip_test (Some min_height_above_ground_grid)
                                    (Some ground_height_grid)) p
    = Returns true ->
  above_height_grid_ok min_height_above_ground_grid ground_height_grid p.
Proof.
  intros H. apply kept_true_not_skipped in H. unfold above_height_grid_skip_test in H.
  destruct (has_non_finite_coordinate_value p) eqn:Hfin; [discriminate H|].
  apply has_non_finite_coordinate_value_spec in Hfin.
  cbn [shared_ptr_deref of_option bind] in H.
  destruct (I_Raster_calls.no_throw_value_at_xy_of ground_height_grid p) as [g| |] eqn:Eg;
    cbn [bind] in H; try discriminate H.
  destruct (I_Raster_calls.no_throw_value_at_xy_of min_height_above_ground_grid p)
    as [m| |] eqn:Em; cbn [bind] in H; try discriminate H.
  injection H as H. apply orb_false_iff in H as [H Hlt].
  apply orb_false_iff in H as [Hf Hm].
  apply negb_false_iff in Hf. apply negb_false_iff in Hm.
  split; [assumption|]. exists g, m.
  split; [exact Eg|]. split; [exact Em|]. split; [exact Hf|]. split; [exact Hm|].
  apply not_skipped_not_below; try assumption.
  apply finite_not_nan; assumption.
Qed.

(** C2, as amended: every point in the index built from one of the three
    filtering iterators has finite coordinates and passes the height test
    of its iterator.  For the two iterators with a scalar minimum, the
    height is not below the minimum, and is at least the minimum unless the
    minimum is NaN; for the grid iterator, the height above the ground and
    the minimum of the cell are finite and the former is at least the
    latter. *)
Theorem filtering_iterators_sound (points : list point_3d_t) :
  (forall min_height index,
      create_index_of_finite points min_height = Returns index ->
      Forall (above_height_ok min_height) index) /\
  (forall min_height_above_ground ground_height_grid index,
      create_index_of_above_ground points min_height_above_ground
                                   (Some ground_height_grid) = Returns index ->
      Forall (above_ground_ok min_height_above_ground ground_height_grid) index) /\
  (forall min_height_above_ground_grid ground_height_grid index,
      create_index_of_above_ground_grid points
        (Some min_height_above_ground_grid) (Some ground_height_grid)
        = Returns index ->
      Forall (above_height_grid_ok min_height_above_ground_grid ground_height_grid)
             index).
Proof.
  split; [|split].
  - intros min_height index H.
    rewrite create_index_of_finite_filters in H.
    apply filtered_index_returns in H as [_ H].
    apply filter_outcome_kept in H.
    eapply Forall_impl; [|exact H]. intros p. apply above_height_kept_ok.
  - intros min_height_above_ground ground_height_grid index H.
    rewrite create_index_of_above_ground_filters in H.
    apply filtered_index_returns in H as [_ H].
    apply filter_outcome_kept in H.
    eapply Forall_impl; [|exact H]. intros p. apply above_ground_kept_ok.
  - intros min_height_above_ground_grid ground_height_grid index H.
    rewrite create_index_of_above_ground_grid_filters in H.
    apply filtered_index_returns in H as [_ H].
    apply filter_outcome_kept in H.
    eapply Forall_impl; [|exact H]. intros p. apply above_height_grid_kept_ok.
Qed.

(** C2, as stated, fails when the minimum height is NaN: no comparison
    with NaN holds, so no finite point is skipped, and the point yielded is
    not at least the minimum. *)
Lemma nan_min_height_filters_nothing :
  create_index_of_finite [a_point zero zero zero] S754_nan
    = Returns [a_point zero zero zero] /\
  ~ le S754_nan (get_z (a_point zero zero zero)).
Proof.
  split; [reflexivity|]. intros [H|H]; discriminate H.
Qed.

Example above_ground_iterator_on_a_sample :
  create_index_of_above_ground
    [a_point half half one; a_point half half S754_nan;
     a_point half half quarter; a_point half half half]
    half (Some (unit_cell zero))
  = Returns [a_point half half one; a_point half half half].
Proof. reflexivity. Qed.

Example above_height_grid_iterator_on_a_sample :
  create_index_of_above_ground_grid
    [a_point half half quarter; a_point half half two;
     a_point (S754_infinity false) half one; a_point half half one]
    (Some (Constant (Single_value_pseudo_raster.new half)))
    (Some (Grid (unit_cell half)))
  = Returns [a_point half half two; a_point half half one].
Proof. reflexivity. Qed.

Example above_ground_iterator_outside_the_grid :
  create_index_of_above_ground [a_point two half one] half (Some (unit_cell zero))
  = Undefined.
Proof. reflexivity. Qed.


(** *** The mean-shift driver *)

(** C1: a candidate point with a non-finite coordinate, or whose height is
    below [min_point_height_above_ground], yields the NaN-point without an
    exception, and the NaN-point with an empty vector of centroids. *)
Theorem rejected_candidate_yields_nan_point
    (exp : double -> double) (point : point_3d_t)
    (indexed_point_cloud : index_for_3d_points_t)
    (min_point_height_above_ground : coordinate_t)
    (crown_diameter_to_tree_height crown_height_to_tree_height : double)
    (centroid_convergence_distance : distance_t)
    (max_num_centroids_per_mode : Z) :
  ~ all_finite point \/ lt (get_z point) min_point_height_above_ground ->
  ams3d.calculate_a_single_mode exp point indexed_point_cloud
    min_point_height_above_ground crown_diameter_to_tree_height
    crown_height_to_tree_height centroid_convergence_distance
    max_num_centroids_per_mode = Returns nan_point /\
  ams3d.calculate_a_single_mode_plus_centroids exp point indexed_point_cloud
    min_point_height_above_ground crown_diameter_to_tree_height
    crown_height_to_tree_height centroid_convergence_distance
    max_num_centroids_per_mode = Returns (nan_point, []).
Proof.
  intros H.
  unfold ams3d.calculate_a_single_mode,
    ams3d.calculate_a_single_mode_plus_centroids.
  destruct (has_non_finite_coordinate_value point) eqn:Hfin; [split; reflexivity|].
  destruct H as [H|H].
  - apply has_non_finite_coordinate_value_spec in Hfin. contradiction.
  - apply ltb_lt in H. rewrite H. split; reflexivity.
Qed.

Lemma rejected_candidate_yields_nan_point_witness :
  (~ all_finite (a_point S754_nan zero one) \/ lt (get_z (a_point S754_nan zero one)) one) /\
  ams3d.calculate_a_single_mode (fun x => x) (a_point S754_nan zero one) [] one one one one 3
    = Returns nan_point /\
  ams3d.calculate_a_single_mode_plus_centroids (fun x => x) (a_point S754_nan zero one) [] one one one one 3
    = Returns (nan_point, []).
Proof.
  assert (H : ~ all_finite (a_point S754_nan zero one) \/
              lt (get_z (a_point S754_nan zero one)) one).
  { left. intros [H _]. discriminate H. }
  split; [exact H|].
  exact (rejected_candidate_yields_nan_point (fun x => x) _ [] one one one one 3 H).
Defined.

(** ** Further properties of the code *)

(** *** What an index holds *)

Lemma filter_outcome_ext {A : Type} (k1 k2 : A -> outcome bool) (l : list A) :
  (forall a, In a l -> k1 a = k2 a) -> filter_outcome k1 l = filter_outcome k2 l.
Proof.
  induction l as [|a l IH]; intros H; [reflexivity|].
  cbn [filter_outcome]. rewrite (H a (or_introl eq_refl)), IH; [reflexivity|].
  intros b Hb. apply H. right. exact Hb.
Qed.

Lemma filter_outcome_returns {A : Type} (keep : A -> outcome bool) (l : list A) :
  (forall a, In a l -> exists b, keep a = Returns b) ->
  filter_outcome keep l = Returns (filter (fun a => returned_true (keep a)) l).
Proof.
  induction l as [|a l IH]; intros H; [reflexivity|].
  cbn [filter_outcome filter].
  destruct (H a (or_introl eq_refl)) as [b Hb]. rewrite Hb, IH.
  - reflexivity.
  - intros a' Ha'. apply H. right. exact Ha'.
Qed.

Lemma filter_outcome_undefined {A : Type} (keep : A -> outcome bool) (l : list A) (a : A) :
  (forall a' e, keep a' <> Throws e) ->
  In a l -> keep a = Undefined -> filter_outcome keep l = Undefined.
Proof.
  intros Hthrow. induction l as [|a' l IH]; intros Hin Ha; [destruct Hin|].
  cbn [filter_outcome]. destruct Hin as [->|Hin].
  - rewrite Ha. reflexivity.
  - rewrite (IH Hin Ha).
    destruct (keep a') as [b|e|] eqn:E; try reflexivity.
    exfalso. exact (Hthrow a' e E).
Qed.

Lemma filter_outcome_all {A : Type} (keep : A -> outcome bool) (l : list A) :
  Forall (fun a => keep a = Returns true) l -> filter_outcome keep l = Returns l.
Proof.
  induction 1 as [|a l Ha _ IH]; [reflexivity|].
  cbn [filter_outcome]. rewrite Ha, IH. reflexivity.
Qed.

Lemma filtered_index_ext (k1 k2 : point_3d_t -> outcome bool) (l : list point_3d_t) :
  (forall a, In a l -> k1 a = k2 a) -> filtered_index k1 l = filtered_index k2 l.
Proof.
  intros H. destruct l as [|a l]; [reflexivity|]. apply filter_outcome_ext. exact H.
Qed.

Lemma filtered_index_undefined keep (l : list point_3d_t) (a : point_3d_t) :
  (forall a' e, keep a' <> Throws e) ->
  In a l -> keep a = Undefined -> filtered_index keep l = Undefined.
Proof.
  intros Hthrow Hin Ha. destruct l as [|a' l]; [reflexivity|].
  apply (filter_outcome_undefined keep (a' :: l) a); assumption.
Qed.

(** The points of an index that was returned, listed in any order, all
    pass the test again. *)
Lemma filtered_index_again keep (points index again : list point_3d_t) :
  filtered_index keep points = Returns index ->
  Permutation again index -> again <> [] ->
  filtered_index keep again = Returns again.
Proof.
  intros H Hp Hne. apply filtered_index_returns in H as [_ H].
  apply filter_outcome_kept in H.
  rewrite filtered_index_nonempty by exact Hne.
  apply filter_outcome_all. rewrite Forall_forall in *. intros a Ha. apply H.
  eapply Permutation_in; [exact Hp|exact Ha].
Qed.

Lemma permutation_filter {A : Type} (f : A -> bool) (l l' : list A) :
  Permutation l l' -> Permutation (filter f l) (filter f l').
Proof.
  induction 1 as [|x l l' _ IH|x y l|l l' l'' _ IH1 _ IH2]; cbn [filter].
  - constructor.
  - destruct (f x); [constructor|]; exact IH.
  - destruct (f x), (f y); try reflexivity; constructor.
  - exact (perm_trans IH1 IH2).
Qed.

Lemma above_height_kept_iff min_height p :
  kept (above_height_skip_test min_height) p = Returns true <->
  all_finite p /\ ~ lt (get_z p) min_height.
Proof.
  unfold kept, above_height_skip_test.
  destruct (has_non_finite_coordinate_value p) eqn:Hfin; cbn [bind negb].
  - split; [discriminate|]. intros [Hf _].
    apply has_non_finite_coordinate_value_spec in Hf. congruence.
  - apply has_non_finite_coordinate_value_spec in Hfin.
    destruct (Double.ltb (get_z p) min_height) eqn:Hlt; cbn [negb].
    + apply ltb_lt in Hlt. split; [discriminate|]. intros [_ H]. contradiction.
    + split; [|reflexivity]. intros _. split; [assumption|].
      intros H. apply ltb_lt in H. congruence.
Qed.

Lemma above_height_test_returns min_height p :
  exists b, kept (above_height_skip_test min_height) p = Returns b.
Proof.
  unfold kept, above_height_skip_test.
  destruct (has_non_finite_coordinate_value p); eexists; reflexivity.
Qed.


Lemma create_index_of_finite_keeps points min_height :
  points <> [] ->
  create_index_of_finite points min_height
  = Returns (filter (fun p => returned_true (kept (above_height_skip_test min_height) p))
                    points).
Proof.
  intros Hne.
  rewrite create_index_of_finite_filters, filtered_index_nonempty by exact Hne.
  apply filter_outcome_returns. intros p _. apply above_height_test_returns.
Qed.



Lemma above_ground_test_never_throws m gptr p e :
  kept (above_ground_skip_test m gptr) p <> Throws e.
Proof.
  unfold kept, above_ground_skip_test.
  destruct (has_non_finite_coordinate_value p); [discriminate|].
  destruct gptr as [g|]; cbn [shared_ptr_deref of_option bind]; [|discriminate].
  destruct (Raster.no_throw_value_at_xy_of g p) as [v|e'|] eqn:E; cbn [bind];
    try discriminate.
  exfalso. exact (no_throw_value_at_xy_of_never_throws g p e' E).
Qed.






Lemma i_raster_no_throw_never_throws {T : Type} (g : I_Raster T) p e :
  I_Raster_calls.no_throw_value_at_xy_of g p <> Throws e.
Proof.
  destruct g as [r|c]; cbn [I_Raster_calls.no_throw_value_at_xy_of].
  - apply no_throw_value_at_xy_of_never_throws.
  - discriminate.
Qed.

Lemma above_height_grid_test_never_throws mptr gptr p e :
  kept (above_height_grid_skip_test mptr gptr) p <> Throws e.
Proof.
  unfold kept, above_height_grid_skip_test.
  destruct (has_non_finite_coordinate_value p); [discriminate|].
  destruct gptr as [g|]; cbn [shared_ptr_deref of_option bind]; [|discriminate].
  destruct (I_Raster_calls.no_throw_value_at_xy_of g p) as [v|e'|] eqn:E; cbn [bind];
    try discriminate; [|exfalso; exact (i_raster_no_throw_never_throws g p e' E)].
  destruct mptr as [mg|]; cbn [shared_ptr_deref of_option bind]; [|discriminate].
  destruct (I_Raster_calls.no_throw_value_at_xy_of mg p) as [w|e'|] eqn:E'; cbn [bind];
    try discriminate.
  exfalso. exact (i_raster_no_throw_never_throws mg p e' E').
Qed.








Lemma sub_zero_r (x : double) : finite x -> Double.sub x zero = x.
Proof.
  destruct x as [s|s| |s m e]; try discriminate; intros _.
  - destruct s; reflexivity.
  - reflexivity.
Qed.

(** X5: over constant rasters with the ground at 0 and a finite minimum
    height, the overload of [create_index_of_above_ground] for grids builds
    the index [create_index_of_finite] builds for that minimum height. *)
Theorem flat_ground_is_plain_height_filter (points : list point_3d_t)
    (min_height : coordinate_t) :
  finite min_height ->
  create_index_of_above_ground_grid points
    (Some (Constant (Single_value_pseudo_raster.new min_height)))
    (Some (Constant (Single_value_pseudo_raster.new zero)))
  = create_index_of_finite points min_height.
Proof.
  intros Hm.
  rewrite create_index_of_above_ground_grid_filters, create_index_of_finite_filters.
  apply filtered_index_ext. intros p _.
  unfold kept, above_height_grid_skip_test, above_height_skip_test.
  destruct (has_non_finite_coordinate_value p) eqn:Hfin; [reflexivity|].
  apply has_non_finite_coordinate_value_spec in Hfin. destruct Hfin as (_ & _ & Hz).
  cbn [shared_ptr_deref of_option bind I_Raster_calls.no_throw_value_at_xy_of
       Single_value_pseudo_raster.no_throw_value_at_xy_of
       Single_value_pseudo_raster.new Single_value_pseudo_raster._value].
  rewrite (sub_zero_r _ Hz). unfold finite in Hz, Hm. rewrite Hz, Hm. reflexivity.
Qed.

Lemma flat_ground_is_plain_height_filter_witness :
  create_index_of_above_ground_grid
    [a_point zero zero two; a_point zero zero quarter]
    (Some (Constant (Single_value_pseudo_raster.new one)))
    (Some (Constant (Single_value_pseudo_raster.new zero)))
  = create_index_of_finite [a_point zero zero two; a_point zero zero quarter] one.
Proof.
  apply (flat_ground_is_plain_height_filter
           [a_point zero zero two; a_point zero zero quarter] one).
  reflexivity.
Defined.

(** X6: with a constant raster of a finite minimum height, the overload
    of [create_index_of_above_ground] for grids agrees with the overload for
    a scalar minimum over the same ground grid; with a constant raster of a
    minimum that is NaN or infinite it keeps no point. *)
Theorem constant_minimum_grid_is_scalar_minimum (points : list point_3d_t)
    (min_height_above_ground : coordinate_t)
    (ground_height_grid : Raster.t coordinate_t) :
  (finite min_height_above_ground ->
   create_index_of_above_ground_grid points
     (Some (Constant (Single_value_pseudo_raster.new min_height_above_ground)))
     (Some (Grid ground_height_grid))
   = create_index_of_above_ground points min_height_above_ground
                                  (Some ground_height_grid)) /\
  (~ finite min_height_above_ground ->
   forall index,
     create_index_of_above_ground_grid points
       (Some (Constant (Single_value_pseudo_raster.new min_height_above_ground)))
       (Some (Grid ground_height_grid)) = Returns index ->
     index = []).
Proof.
  split.
  - intros Hm.
    rewrite create_index_of_above_ground_grid_filters,
      create_index_of_above_ground_filters.
    apply filtered_index_ext. intros p _.
    unfold kept, above_height_grid_skip_test, above_ground_skip_test.
    destruct (has_non_finite_coordinate_value p); [reflexivity|].
    cbn [shared_ptr_deref of_option bind I_Raster_calls.no_throw_value_at_xy_of
         Single_value_pseudo_raster.no_throw_value_at_xy_of
         Single_value_pseudo_raster.new Single_value_pseudo_raster._value].
    destruct (Raster.no_throw_value_at_xy_of ground_height_grid p); cbn [bind];
      try reflexivity.
    unfold finite in Hm. rewrite Hm. cbn [negb]. rewrite orb_false_r. reflexivity.
  - intros Hm index H.
    rewrite create_index_of_above_ground_grid_filters in H.
    apply filtered_index_returns in H as [_ H].
    apply filter_outcome_kept in H.
    destruct index as [|p index]; [reflexivity|]. exfalso.
    inversion H as [|? ? Hp _]; subst.
    apply above_height_grid_kept_ok in Hp.
    destruct Hp as (_ & v & w & _ & Hw & _ & Hfw & _).
    cbn in Hw. injection Hw as <-. contradiction.
Qed.

(** X7: each of the three functions, applied with the same arguments to
    the points of an index it returned, listed in any order, returns an
    index of exactly these points, as long as the index holds a point. *)
Theorem index_creation_is_idempotent (points index again : list point_3d_t) :
  Permutation again index -> again <> [] ->
  (forall min_height,
      create_index_of_finite points min_height = Returns index ->
      create_index_of_finite again min_height = Returns again) /\
  (forall min_height_above_ground ground_height_grid_ptr,
      create_index_of_above_ground points min_height_above_ground
                                   ground_height_grid_ptr = Returns index ->
      create_index_of_above_ground again min_height_above_ground
                                   ground_height_grid_ptr = Returns again) /\
  (forall min_height_above_ground_grid_ptr ground_height_grid_ptr,
      create_index_of_above_ground_grid points min_height_above_ground_grid_ptr
                                        ground_height_grid_ptr = Returns index ->
      create_index_of_above_ground_grid again min_height_above_ground_grid_ptr
                                        ground_height_grid_ptr = Returns again).
Proof.
  intros Hperm Hne. split; [|split]; intros.
  - rewrite create_index_of_finite_filters in H.
    rewrite create_index_of_finite_filters.
    eapply filtered_index_again; eassumption.
  - rewrite create_index_of_above_ground_filters in H.
    rewrite create_index_of_above_ground_filters.
    eapply filtered_index_again; eassumption.
  - rewrite create_index_of_above_ground_grid_filters in H.
    rewrite create_index_of_above_ground_grid_filters.
    eapply filtered_index_again; eassumption.
Qed.

Lemma index_creation_is_idempotent_witness :
  create_index_of_finite [a_point zero zero two; a_point zero zero one] one
  = Returns [a_point zero zero two; a_point zero zero one].
Proof.
  apply (index_creation_is_idempotent
           [a_point zero zero one; nan_point; a_point zero zero two]
           [a_point zero zero one; a_point zero zero two]
           [a_point zero zero two; a_point zero zero one]
           (perm_swap _ _ _) ltac:(discriminate)).
  reflexivity.
Defined.

Lemma lt_le_trans_wf (x y z : double) :
  well_formed x -> well_formed y -> well_formed z -> lt x y -> le y z -> lt x z.
Proof.
  intros Hx Hy Hz Hxy Hyz.
  pose proof (le_scaled _ _ Hx Hy (lt_le _ _ Hxy)) as H1.
  pose proof (le_scaled _ _ Hy Hz Hyz) as H2.
  assert (x <> S754_nan) as Nx by (intros ->; discriminate Hxy).
  assert (y <> S754_nan) as Ny by (intros ->; destruct x; discriminate Hxy).
  assert (z <> S754_nan) as Nz.
  { intros ->; destruct Hyz as [E|E]; destruct y; discriminate E. }
  unfold lt in Hxy. rewrite (compare_scaled x y Hx Hy Nx Ny) in Hxy.
  injection Hxy as Hxy. apply -> Z.compare_lt_iff in Hxy.
  unfold lt. rewrite (compare_scaled x z Hx Hz Nx Nz).
  f_equal. apply Z.compare_lt_iff. lia.
Qed.

Lemma filter_filter_weaker {A : Type} (f g : A -> bool) (l : list A) :
  (forall a, In a l -> g a = true -> f a = true) ->
  filter g (filter f l) = filter g l.
Proof.
  induction l as [|a l IH]; intros H; [reflexivity|].
  cbn [filter]. assert (filter g (filter f l) = filter g l) as IH'.
  { apply IH. intros b Hb. apply H. right. exact Hb. }
  destruct (f a) eqn:Ef; cbn [filter]; rewrite IH'; [reflexivity|].
  destruct (g a) eqn:Eg; [|reflexivity].
  rewrite (H a (or_introl eq_refl) Eg) in Ef. discriminate Ef.
Qed.

(** X8: for minimum heights low <= high, building an index for high from
    the points of the index built for low, listed in any order, gives the
    points of the index built for high from the vector itself, as long as
    the index built for low holds a point: raising the minimum height only
    removes points. *)
Theorem raising_the_minimum_height_refines (points index again : list point_3d_t)
    (low high : coordinate_t) :
  Forall (fun p => well_formed (get_z p)) points ->
  well_formed low -> well_formed high -> le low high ->
  create_index_of_finite points low = Returns index ->
  Permutation again index -> again <> [] ->
  exists from_index from_points : index_for_3d_points_t,
    create_index_of_finite again high = Returns from_index /\
    create_index_of_finite points high = Returns from_points /\
    Permutation from_index from_points.
Proof.
  intros Wp Wl Wh Hle Hlow Hperm Hne.
  rewrite create_index_of_finite_filters in Hlow.
  apply filtered_index_returns in Hlow as [Hpoints Hlow].
  rewrite (filter_outcome_returns _ points) in Hlow
    by (intros p _; apply above_height_test_returns).
  injection Hlow as Hlow.
  eexists _, _.
  split; [apply create_index_of_finite_keeps; exact Hne|].
  split; [apply create_index_of_finite_keeps; exact Hpoints|].
  eapply perm_trans; [apply permutation_filter; exact Hperm|].
  rewrite <- Hlow.
  rewrite filter_filter_weaker; [reflexivity|].
  intros p Hp Hk.
  rewrite Forall_forall in Wp. specialize (Wp p Hp).
  destruct (above_height_test_returns high p) as [b Hb].
  rewrite Hb in Hk. cbn [returned_true] in Hk. subst b.
  apply above_height_kept_iff in Hb as [Hfin Hnlt].
  assert (kept (above_height_skip_test low) p = Returns true) as ->; [|reflexivity].
  apply above_height_kept_iff. split; [exact Hfin|].
  intros Hlt. apply Hnlt. apply (lt_le_trans_wf _ low); assumption.
Qed.

Lemma raising_the_minimum_height_refines_witness :
  exists from_index from_points : index_for_3d_points_t,
    create_index_of_finite [a_point zero zero one; a_point zero zero two] two
      = Returns from_index /\
    create_index_of_finite
      [a_point zero zero two; a_point zero zero half; a_point zero zero one] two
      = Returns from_points /\
    Permutation from_index from_points.
Proof.
  apply (raising_the_minimum_height_refines
           [a_point zero zero two; a_point zero zero half; a_point zero zero one]
           [a_point zero zero two; a_point zero zero one]
           [a_point zero zero one; a_point zero zero two] one two).
  - repeat constructor.
  - reflexivity.
  - reflexivity.
  - left. reflexivity.
  - reflexivity.
  - apply perm_swap.
  - discriminate.
Defined.

Lemma filter_outcome_without {A : Type} (keep : A -> outcome bool)
    (before after : list A) (a : A) :
  keep a = Returns false ->
  filter_outcome keep (before ++ a :: after) = filter_outcome keep (before ++ after).
Proof.
  intros Ha. induction before as [|b before IH]; cbn [app filter_outcome].
  - rewrite Ha. cbn [bind]. destruct (filter_outcome keep after); reflexivity.
  - rewrite IH. reflexivity.
Qed.

Lemma filtered_index_without keep (before after : list point_3d_t)
    (a : point_3d_t) :
  before ++ after <> [] -> keep a = Returns false ->
  filtered_index keep (before ++ a :: after) = filtered_index keep (before ++ after).
Proof.
  intros Hne Ha. rewrite !filtered_index_nonempty.
  - apply filter_outcome_without. exact Ha.
  - exact Hne.
  - destruct before; discriminate.
Qed.

(** X9: the point [nan_point] is dropped by the three functions that
    build an index, wherever it stands in a vector that holds another
    point, and before any raster is read: the call has the outcome it has
    on the vector without it.  No raster has a value at it, and
    [value_at_xy_of] throws the runtime error for NaN coordinates at it. *)
Theorem nan_point_is_rejected_everywhere (before after : list point_3d_t) :
  (before ++ after <> [] ->
   (forall min_height,
       create_index_of_finite (before ++ nan_point :: after) min_height
       = create_index_of_finite (before ++ after) min_height) /\
   (forall min_height_above_ground ground_height_grid_ptr,
       create_index_of_above_ground (before ++ nan_point :: after)
         min_height_above_ground ground_height_grid_ptr
       = create_index_of_above_ground (before ++ after)
           min_height_above_ground ground_height_grid_ptr) /\
   (forall min_height_above_ground_grid_ptr ground_height_grid_ptr,
       create_index_of_above_ground_grid (before ++ nan_point :: after)
         min_height_above_ground_grid_ptr ground_height_grid_ptr
       = create_index_of_above_ground_grid (before ++ after)
           min_height_above_ground_grid_ptr ground_height_grid_ptr)) /\
  (forall (T : Type) (r : Raster.t T),
      Raster.has_value_at_xy_of r nan_point = false /\
      Raster.value_at_xy_of r nan_point = Throws (runtime_error nan_xy_coordinates)).
Proof.
  split.
  - intros Hne. split; [|split]; intros.
    + rewrite !create_index_of_finite_filters.
      apply filtered_index_without; [exact Hne|reflexivity].
    + rewrite !create_index_of_above_ground_filters.
      apply filtered_index_without; [exact Hne|reflexivity].
    + rewrite !create_index_of_above_ground_grid_filters.
      apply filtered_index_without; [exact Hne|reflexivity].
  - intros T r. split; [|reflexivity].
    unfold Raster.has_value_at_xy_of. cbn [nan_point get_x get_y].
    destruct (Raster._x_min r); reflexivity.
Qed.

Lemma nan_point_is_rejected_everywhere_witness :
  create_index_of_above_ground
    ([a_point half half two] ++ nan_point :: [a_point half half quarter]) one None
  = create_index_of_above_ground
      ([a_point half half two] ++ [a_point half half quarter]) one None.
Proof.
  apply (proj1 (nan_point_is_rejected_everywhere
                  [a_point half half two] [a_point half half quarter])
               ltac:(discriminate)).
Defined.

(** *** The iterator protocol *)

Lemma bind_returns {A B : Type} (c : outcome A) (k : A -> outcome B) (b : B) :
  bind c k = Returns b -> exists a, c = Returns a /\ k a = Returns b.
Proof. destruct c as [a| |]; cbn [bind]; try discriminate. eauto. Qed.



Lemma drop_skipped_position skip_test (l l' : list point_3d_t) :
  drop_skipped skip_test l = Returns l' ->
  exists k : nat,
    (k <= List.length l)%nat /\ l' = skipn k l /\
    (forall j p, (j < k)%nat -> nth_error l j = Some p -> skip_test p = Returns true) /\
    (forall p, nth_error l k = Some p -> skip_test p = Returns false).
Proof.
  revert l'. induction l as [|a l IH]; intros l' H.
  - injection H as <-. exists 0%nat.
    split; [simpl; lia|]. split; [reflexivity|]. split.
    + intros j p Hj. lia.
    + intros p Hp. discriminate Hp.
  - cbn [drop_skipped] in H.
    destruct (skip_test a) as [[|]| |] eqn:Ea; cbn [bind] in H; try discriminate H.
    + destruct (IH l' H) as (k & Hk & -> & Hbefore & Hat).
      exists (S k). split; [simpl; lia|]. split; [reflexivity|]. split.
      * intros [|j] p Hj Hp; simpl in Hp.
        -- injection Hp as <-. exact Ea.
        -- apply (Hbefore j); [lia|exact Hp].
      * intros p Hp. simpl in Hp. apply Hat. exact Hp.
    + injection H as <-. exists 0%nat.
      split; [simpl; lia|]. split; [reflexivity|]. split.
      * intros j p Hj. lia.
      * intros p Hp. simpl in Hp. injection Hp as <-. exact Ea.
Qed.

Lemma above_height_skip_loop (points : list point_3d_t) (min_height : coordinate_t)
    (i fuel : nat) :
  (i <= List.length points)%nat -> (List.length points - i < fuel)%nat ->
  exists j : nat,
    skip_loop _Finite_points_above_height_iterator._skip_current_point
              _Finite_points_above_height_iterator._ptr_succ fuel
      {| _Finite_points_above_height_iterator._ptr :=
           {| block := points; offset := i |};
         _Finite_points_above_height_iterator._end_ptr := pointer_to_end points;
         _Finite_points_above_height_iterator._min_height := min_height |}
    = Returns
        {| _Finite_points_above_height_iterator._ptr :=
             {| block := points; offset := j |};
           _Finite_points_above_height_iterator._end_ptr := pointer_to_end points;
           _Finite_points_above_height_iterator._min_height := min_height |} /\
    (i <= j <= List.length points)%nat /\
    (forall k p, (i <= k < j)%nat -> nth_error points k = Some p ->
       above_height_skip_test min_height p = Returns true) /\
    (forall p, nth_error points j = Some p ->
       above_height_skip_test min_height p = Returns false).
Proof.
  intros Hi Hfuel.
  pose proof (skip_loop_drops points (above_height_skip_test min_height)
                _Finite_points_above_height_iterator._skip_current_point
                _Finite_points_above_height_iterator._ptr_succ
                (fun it => offset (_Finite_points_above_height_iterator._ptr it))
                (fun it =>
                   block (_Finite_points_above_height_iterator._ptr it) = points /\
                   _Finite_points_above_height_iterator._end_ptr it
                     = pointer_to_end points /\
                   _Finite_points_above_height_iterator._min_height it = min_height))
    as Hloop.
  cbv beta in Hloop.
  specialize (Hloop ltac:(intros it (Hb & He & Hm); repeat split; assumption)
                    ltac:(reflexivity)).
  assert (forall it : _Finite_points_above_height_iterator.t,
             block (_Finite_points_above_height_iterator._ptr it) = points /\
             _Finite_points_above_height_iterator._end_ptr it = pointer_to_end points /\
             _Finite_points_above_height_iterator._min_height it = min_height ->
             offset (_Finite_points_above_height_iterator._ptr it) = List.length points ->
             _Finite_points_above_height_iterator._skip_current_point it = Returns false)
    as Hend.
  { intros it (Hb & He & Hm) Hoff.
    unfold _Finite_points_above_height_iterator._skip_current_point, pointer_eqb.
    rewrite Hoff, He. cbn [pointer_to_end offset]. rewrite Nat.eqb_refl. reflexivity. }
  specialize (Hloop Hend).
  assert (forall (it : _Finite_points_above_height_iterator.t) (p : point_3d_t),
             block (_Finite_points_above_height_iterator._ptr it) = points /\
             _Finite_points_above_height_iterator._end_ptr it = pointer_to_end points /\
             _Finite_points_above_height_iterator._min_height it = min_height ->
             nth_error points (offset (_Finite_points_above_height_iterator._ptr it))
               = Some p ->
             _Finite_points_above_height_iterator._skip_current_point it
               = above_height_skip_test min_height p) as Hat.
  { intros it p (Hb & He & Hm) Hp.
    unfold _Finite_points_above_height_iterator._skip_current_point, pointer_eqb.
    assert (offset (_Finite_points_above_height_iterator._ptr it) < List.length points)%nat
      as Hlt by (apply nth_error_Some; congruence).
    rewrite He. cbn [pointer_to_end offset].
    destruct (Nat.eqb_spec (offset (_Finite_points_above_height_iterator._ptr it))
                           (List.length points)); [lia|].
    rewrite (pointer_deref_at points _ p Hb Hp). cbn [bind]. rewrite Hm. reflexivity. }
  specialize (Hloop Hat (skipn i points)
                {| _Finite_points_above_height_iterator._ptr :=
                     {| block := points; offset := i |};
                   _Finite_points_above_height_iterator._end_ptr := pointer_to_end points;
                   _Finite_points_above_height_iterator._min_height := min_height |}
                fuel ltac:(repeat split) eq_refl Hi).
  rewrite length_skipn in Hloop. specialize (Hloop Hfuel).
  destruct (drop_skipped (above_height_skip_test min_height) (skipn i points))
    as [l'| |] eqn:Hdrop.
  - destruct Hloop as (it' & Hit' & (Hb & He & Hm) & Hskip & Hle).
    destruct (drop_skipped_position _ _ _ Hdrop) as (k & Hk & -> & Hbefore & Hafter).
    rewrite length_skipn in Hk.
    destruct it' as [[b j] e m]. cbn in Hb, He, Hm, Hskip, Hle. subst b e m.
    rewrite skipn_skipn in Hskip.
    assert (j = k + i)%nat as ->.
    { apply (f_equal (@List.length _)) in Hskip. rewrite !length_skipn in Hskip. lia. }
    exists (k + i)%nat. split; [exact Hit'|]. split; [lia|]. split.
    + intros k' p Hk' Hp. apply (Hbefore (k' - i)%nat); [lia|].
      rewrite nth_error_skipn. replace (i + (k' - i))%nat with k' by lia. exact Hp.
    + intros p Hp. apply Hafter. rewrite nth_error_skipn.
      replace (i + k)%nat with (k + i)%nat by lia. exact Hp.
  - exfalso. clear Hloop. revert Hdrop. generalize (skipn i points). intros l.
    induction l as [|a l IH]; cbn [drop_skipped]; [discriminate|].
    unfold above_height_skip_test at 1.
    destruct (has_non_finite_coordinate_value a); cbn [bind]; [exact IH|].
    destruct (Double.ltb (get_z a) min_height); [exact IH|discriminate].
  - exfalso. clear Hloop. revert Hdrop. generalize (skipn i points). intros l.
    induction l as [|a l IH]; cbn [drop_skipped]; [discriminate|].
    unfold above_height_skip_test at 1.
    destruct (has_non_finite_coordinate_value a); cbn [bind]; [exact IH|].
    destruct (Double.ltb (get_z a) min_height); [exact IH|discriminate].
Qed.

Lemma above_height_skip_test_returns min_height p :
  exists b, above_height_skip_test min_height p = Returns b.
Proof.
  unfold above_height_skip_test.
  destruct (has_non_finite_coordinate_value p); eexists; reflexivity.
Qed.

Lemma above_height_skipped_iff min_height p :
  above_height_skip_test min_height p = Returns true <->
  ~ (all_finite p /\ ~ lt (get_z p) min_height).
Proof.
  rewrite <- above_height_kept_iff. unfold kept.
  destruct (above_height_skip_test_returns min_height p) as [b ->].
  cbn [bind]. destruct b; cbn [negb]; split; intros H; try reflexivity.
  - discriminate.
  - discriminate H.
  - exfalso. apply H. reflexivity.
Qed.

Lemma above_height_not_skipped_iff min_height p :
  above_height_skip_test min_height p = Returns false <->
  all_finite p /\ ~ lt (get_z p) min_height.
Proof.
  rewrite <- above_height_kept_iff. unfold kept.
  destruct (above_height_skip_test_returns min_height p) as [b ->].
  cbn [bind]. destruct b; cbn [negb]; split; intros H; try reflexivity;
    discriminate H.
Qed.

(** X11: [operator++] of an iterator at a position inside the vector
    moves it to a later position, the end at the latest: the points in
    between are rejected by the filter, and the point it stops at passes
    it.  The end pointer and the minimum height are unchanged. *)
Theorem increment_stops_at_the_next_kept_point (points : list point_3d_t)
    (min_height : coordinate_t) (i : nat) :
  (i < List.length points)%nat ->
  exists j : nat,
    _Finite_points_above_height_iterator.increment
      {| _Finite_points_above_height_iterator._ptr :=
           {| block := points; offset := i |};
         _Finite_points_above_height_iterator._end_ptr := pointer_to_end points;
         _Finite_points_above_height_iterator._min_height := min_height |}
    = Returns
        {| _Finite_points_above_height_iterator._ptr :=
             {| block := points; offset := j |};
           _Finite_points_above_height_iterator._end_ptr := pointer_to_end points;
           _Finite_points_above_height_iterator._min_height := min_height |} /\
    (i < j <= List.length points)%nat /\
    (forall k p, (i < k < j)%nat -> nth_error points k = Some p ->
       ~ (all_finite p /\ ~ lt (get_z p) min_height)) /\
    (forall p, nth_error points j = Some p ->
       all_finite p /\ ~ lt (get_z p) min_height).
Proof.
  intros Hi.
  unfold _Finite_points_above_height_iterator.increment,
    _Finite_points_above_height_iterator._skip_points,
    _Finite_points_above_height_iterator._ptr_succ, pointer_succ, distance_to.
  cbn [_Finite_points_above_height_iterator._ptr
       _Finite_points_above_height_iterator._end_ptr
       _Finite_points_above_height_iterator._min_height
       block offset pointer_to_end].
  destruct (above_height_skip_loop points min_height (S i)
              (S (List.length points - S i)) ltac:(lia) ltac:(lia))
    as (j & Hj & Hrange & Hbefore & Hat).
  exists j. split; [exact Hj|]. split; [lia|]. split.
  - intros k p Hk Hp. apply above_height_skipped_iff.
    apply (Hbefore k); [lia|exact Hp].
  - intros p Hp. apply above_height_not_skipped_iff. apply Hat. exact Hp.
Qed.

Lemma increment_stops_at_the_next_kept_point_witness :
  exists j : nat,
    _Finite_points_above_height_iterator.increment
      {| _Finite_points_above_height_iterator._ptr :=
           {| block := [a_point zero zero two; nan_point; a_point zero zero one];
              offset := 0 |};
         _Finite_points_above_height_iterator._end_ptr :=
           pointer_to_end [a_point zero zero two; nan_point; a_point zero zero one];
         _Finite_points_above_height_iterator._min_height := one |}
    = Returns
        {| _Finite_points_above_height_iterator._ptr :=
             {| block := [a_point zero zero two; nan_point; a_point zero zero one];
                offset := j |};
           _Finite_points_above_height_iterator._end_ptr :=
             pointer_to_end [a_point zero zero two; nan_point; a_point zero zero one];
           _Finite_points_above_height_iterator._min_height := one |} /\
    (0 < j <= 3)%nat.
Proof.
  destruct (increment_stops_at_the_next_kept_point
              [a_point zero zero two; nan_point; a_point zero zero one] one 0
              ltac:(simpl; lia)) as (j & H1 & H2 & _).
  exists j. split; [exact H1|exact H2].
Defined.




(** *** Rasters without cells to read *)

Lemma le_not_nan_l x y : le x y -> x <> S754_nan.
Proof. intros H ->. destruct H as [H|H]; discriminate H. Qed.

Lemma le_not_nan_r x y : le x y -> y <> S754_nan.
Proof. intros H ->. destruct H as [H|H]; destruct x; discriminate H. Qed.

(** X13: a raster whose bounds are not ordered along an axis, x_min <=
    x_max or y_min <= y_max failing (swapped bounds, or a NaN bound), has a
    value nowhere: [has_value_at_xy_of] is false and [value_at_xy_of] throws
    for every point. *)
Theorem raster_without_extent_has_no_value {T : Type} (r : Raster.t T)
    (p : point_3d_t) :
  well_formed (Raster._x_min r) -> well_formed (Raster._x_max r) ->
  well_formed (Raster._y_min r) -> well_formed (Raster._y_max r) ->
  well_formed (get_x p) -> well_formed (get_y p) ->
  ~ le (Raster._x_min r) (Raster._x_max r) \/
  ~ le (Raster._y_min r) (Raster._y_max r) ->
  Raster.has_value_at_xy_of r p = false /\
  exists e, Raster.value_at_xy_of r p = Throws e.
Proof.
  intros Wx0 Wx1 Wy0 Wy1 Wx Wy Hno.
  assert (Raster.has_value_at_xy_of r p = false) as Hv.
  { destruct (Raster.has_value_at_xy_of r p) eqn:E; [exfalso|reflexivity].
    apply has_value_at_xy_of_spec in E as (Hx0 & Hx1 & Hy0 & Hy1).
    destruct Hno as [H|H]; apply H.
    - apply (le_trans_wf _ (get_x p)); assumption.
    - apply (le_trans_wf _ (get_y p)); assumption. }
  split; [exact Hv|].
  unfold Raster.value_at_xy_of. rewrite Hv.
  destruct (isnan (get_x p) || isnan (get_y p)); eexists; reflexivity.
Qed.

Lemma raster_without_extent_has_no_value_witness :
  Raster.has_value_at_xy_of (Raster.new [one] 1 1 two zero zero two)
                            (a_point one one zero) = false /\
  exists e, Raster.value_at_xy_of (Raster.new [one] 1 1 two zero zero two)
                                  (a_point one one zero) = Throws e.
Proof.
  apply (raster_without_extent_has_no_value
           (Raster.new [one] 1 1 two zero zero two) (a_point one one zero));
    try reflexivity.
  left. intros [H|H]; discriminate H.
Defined.

Lemma overflow_threshold_pos : (0 < overflow_threshold)%R.
Proof.
  unfold overflow_threshold.
  assert (pow2 970 < pow2 1024)%R; [|lra].
  pose proof pow2_53_971 as H. pose proof pow2_971 as H'.
  pose proof (pow2_pos 970).
  assert (2 <= IZR (2 ^ 53))%R by (apply IZR_le; lia). nra.
Qed.

Lemma sub_of_equal_finite (a b : double) :
  well_formed a -> well_formed b -> finite a -> finite b -> le a b -> le b a ->
  exists s, Double.sub a b = S754_zero s.
Proof.
  intros Wa Wb Fa Fb Hab Hba.
  pose proof (le_value a b Wa Wb Fa Fb Hab) as V1.
  pose proof (le_value b a Wb Wa Fb Fa Hba) as V2.
  destruct (sub_value a b Wa Wb Fa Fb Hba)
    as [Hz|[[_ Ho]|(m & e & _ & U & _)]].
  - exact Hz.
  - exfalso. pose proof overflow_threshold_pos. lra.
  - exfalso. pose proof (positive_value_pos m e) as P. unfold positive_value in P.
    pose proof eps_pos.
    replace (value a - value b)%R with 0%R in U by lra. lra.
Qed.

(** The difference of two equal values is a zero, or NaN when they are
    infinite. *)
Lemma sub_of_equals (a b : double) :
  well_formed a -> well_formed b -> le a b -> le b a ->
  (exists s, Double.sub a b = S754_zero s) \/ Double.sub a b = S754_nan.
Proof.
  intros Wa Wb Hab Hba.
  destruct (isfinite a) eqn:Fa, (isfinite b) eqn:Fb.
  - left. apply sub_of_equal_finite; assumption.
  - exfalso. revert Hab Hba. unfold le.
    destruct a as [[|]|[|]| |[|] ma ea]; try discriminate Fa;
      destruct b as [[|]|[|]| |[|] mb eb]; try discriminate Fb;
      cbn; intuition discriminate.
  - exfalso. revert Hab Hba. unfold le.
    destruct a as [[|]|[|]| |[|] ma ea]; try discriminate Fa;
      destruct b as [[|]|[|]| |[|] mb eb]; try discriminate Fb;
      cbn; intuition discriminate.
  - revert Hab Hba. unfold le.
    destruct a as [[|]|[|]| |[|] ma ea]; try discriminate Fa;
      destruct b as [[|]|[|]| |[|] mb eb]; try discriminate Fb;
      cbn; intuition discriminate.
Qed.

Lemma div_zero_or_nan (x y : double) : zero_or_nan x -> zero_or_nan (Double.div x y).
Proof.
  intros [[s ->]| ->]; [|right; reflexivity].
  destruct y as [sy|sy| |sy my ey]; cbn.
  - right; reflexivity.
  - left; eexists; reflexivity.
  - right; reflexivity.
  - left; eexists; reflexivity.
Qed.

Lemma div_of_zeros_is_nan (x y : double) :
  zero_or_nan x -> zero_or_nan y -> Double.div x y = S754_nan.
Proof.
  intros [[s ->]| ->] [[s' ->]| ->]; reflexivity.
Qed.

(** Along an axis whose two bounds are equal, no position has an index. *)
Lemma degenerate_axis (lo x : double) (n : Z) :
  well_formed lo -> well_formed x -> le lo x -> le x lo ->
  to_size_t (Double.div (Double.sub x lo)
                        (Double.div (Double.sub lo lo) (of_size_t n))) = None /\
  to_size_t (Double.div (Double.sub lo x)
                        (Double.div (Double.sub lo lo) (of_size_t n))) = None.
Proof.
  intros Wlo Wx H1 H2.
  assert (le lo lo) as Hrefl.
  { right. apply compare_refl. exact (le_not_nan_l _ _ H1). }
  pose proof (sub_of_equals lo lo Wlo Wlo Hrefl Hrefl) as Hw.
  pose proof (sub_of_equals x lo Wx Wlo H2 H1) as Ha.
  pose proof (sub_of_equals lo x Wlo Wx H1 H2) as Hb.
  pose proof (div_zero_or_nan _ (of_size_t n) Hw) as Hcell.
  rewrite (div_of_zeros_is_nan _ _ Ha Hcell), (div_of_zeros_is_nan _ _ Hb Hcell).
  split; reflexivity.
Qed.

(** X14: a raster of no width (x_min = x_max) or no height (y_min =
    y_max) cannot be read: for every point inside its extent the quotient by
    the cell size is NaN, the conversion of which to [std::size_t] is
    undefined, in [no_throw_value_at_xy_of] and in [value_at_xy_of]. *)
Theorem raster_of_no_width_or_height_cannot_be_read {T : Type}
    (values : list T) (num_rows num_cols : Z)
    (x_min x_max y_min y_max : coordinate_t) (p : point_3d_t) :
  let r := Raster.new values num_rows num_cols x_min x_max y_min y_max in
  well_formed x_min -> well_formed y_min ->
  well_formed (get_x p) -> well_formed (get_y p) ->
  x_min = x_max \/ y_min = y_max ->
  Raster.has_value_at_xy_of r p = true ->
  Raster.no_throw_value_at_xy_of r p = Undefined /\
  Raster.value_at_xy_of r p = Undefined.
Proof.
  intros r Wx0 Wy0 Wx Wy Hflat Hin.
  assert (Raster.no_throw_value_at_xy_of r p = Undefined) as Hread.
  { apply has_value_at_xy_of_spec in Hin as (Hx0 & Hx1 & Hy0 & Hy1).
    cbn [r Raster.new Raster._x_min Raster._x_max Raster._y_min Raster._y_max] in *.
    unfold Raster.no_throw_value_at_xy_of, Raster._flat_index, Raster._cell_of.
    cbn [r Raster.new Raster._x_min Raster._y_max Raster._row_height
         Raster._col_width Raster._num_rows Raster._num_cols].
    destruct Hflat as [<-|<-].
    - destruct (degenerate_axis x_min (get_x p) num_cols Wx0 Wx Hx0 Hx1) as [-> _].
      destruct (to_size_t _); reflexivity.
    - destruct (degenerate_axis y_min (get_y p) num_rows Wy0 Wy Hy0 Hy1) as [_ ->].
      reflexivity. }
  split; [exact Hread|].
  unfold Raster.value_at_xy_of. rewrite Hin.
  apply has_value_at_xy_of_spec in Hin as (Hx0 & _ & Hy0 & _).
  apply le_not_nan_r in Hx0, Hy0.
  destruct (get_x p), (get_y p); try congruence; exact Hread.
Qed.

Lemma raster_of_no_width_or_height_cannot_be_read_witness :
  Raster.no_throw_value_at_xy_of (Raster.new [one] 1 1 one one zero two)
                                 (a_point one half zero) = Undefined /\
  Raster.value_at_xy_of (Raster.new [one] 1 1 one one zero two)
                        (a_point one half zero) = Undefined.
Proof.
  apply (raster_of_no_width_or_height_cannot_be_read [one] 1 1 one one zero two
           (a_point one half zero)); try reflexivity.
  left. reflexivity.
Defined.

(** *** Reads and copies *)

Lemma at_index_in {A : Type} (v : list A) (i : Z) (a : A) :
  at_index v i = Returns a -> In a v.
Proof.
  unfold at_index. destruct (i <? 0); [discriminate|].
  destruct (nth_error v (Z.to_nat i)) eqn:E; [|discriminate].
  intros [= <-]. eapply nth_error_In. exact E.
Qed.

(** X15: a read of a raster returns one of its values only; a raster
    constructed with no values returns nowhere. *)
Theorem reads_return_stored_values {T : Type} (r : Raster.t T)
    (p : point_3d_t) (v : T) :
  (Raster.no_throw_value_at_xy_of r p = Returns v -> In v (Raster.values r)) /\
  (Raster.value_at_xy_of r p = Returns v -> In v (Raster.values r)) /\
  (Raster.values r = [] ->
     Raster.no_throw_value_at_xy_of r p <> Returns v /\
     Raster.value_at_xy_of r p <> Returns v).
Proof.
  assert (Raster.no_throw_value_at_xy_of r p = Returns v -> In v (Raster.values r)) as H1.
  { unfold Raster.no_throw_value_at_xy_of. intros H.
    apply bind_returns in H as (i & _ & H). exact (at_index_in _ _ _ H). }
  assert (Raster.value_at_xy_of r p = Returns v -> In v (Raster.values r)) as H2.
  { unfold Raster.value_at_xy_of.
    destruct (isnan (get_x p) || isnan (get_y p)); [discriminate|].
    destruct (negb (Raster.has_value_at_xy_of r p)); [discriminate|exact H1]. }
  split; [exact H1|]. split; [exact H2|].
  intros Hempty. split; intros H; [apply H1 in H|apply H2 in H];
    rewrite Hempty in H; exact H.
Qed.

Lemma at_index_map {A B : Type} (f : A -> B) (v : list A) (i : Z) :
  at_index (map f v) i = (a <- at_index v i ;; Returns (f a)).
Proof.
  unfold at_index. destruct (i <? 0); [reflexivity|].
  rewrite nth_error_map. destruct (nth_error v (Z.to_nat i)); reflexivity.
Qed.

(** X16: [copy_w_new_values] with the values of the raster gives the
    raster back; with as many new values, the copy has a value at the same
    points, computes the same position for every point, and reads the new
    value at that position. *)
Theorem copy_reads_the_same_cells {T : Type} (values new_values : list T)
    (num_rows num_cols : Z) (x_min x_max y_min y_max : coordinate_t) :
  let r := Raster.new values num_rows num_cols x_min x_max y_min y_max in
  Raster.copy_w_new_values r values = Returns r /\
  (size new_values = size values ->
   exists r',
     Raster.copy_w_new_values r new_values = Returns r' /\
     forall p,
       Raster.has_value_at_xy_of r' p = Raster.has_value_at_xy_of r p /\
       Raster._flat_index r' p = Raster._flat_index r p /\
       Raster.no_throw_value_at_xy_of r' p
         = (i <- Raster._flat_index r p ;; at_index new_values i)).
Proof.
  intros r. split.
  - unfold Raster.copy_w_new_values. cbn [r Raster.new Raster._values].
    rewrite Z.eqb_refl. reflexivity.
  - intros Hsize. unfold Raster.copy_w_new_values. cbn [r Raster.new Raster._values].
    rewrite Hsize, Z.eqb_refl. cbn [negb].
    eexists. split; [reflexivity|]. intros p. repeat split.
Qed.

(** X17: reading the raster [bottom_height_above_ground_grid_with]
    returns at a point gives [bottom_height_above_ground_with] of what the
    raster of ratios holds at that point, and is undefined where reading the
    raster of ratios is. *)
Theorem bottom_height_grid_reads_pointwise (h : coordinate_t) :
  (forall (values : list double) (num_rows num_cols : Z)
          (x_min x_max y_min y_max : coordinate_t),
      let g := Raster.new values num_rows num_cols x_min x_max y_min y_max in
      exists g',
        ams3d._Kernel.bottom_height_above_ground_grid_with h (Grid g)
          = Returns (Grid g') /\
        forall p,
          Raster.has_value_at_xy_of g' p = Raster.has_value_at_xy_of g p /\
          Raster.no_throw_value_at_xy_of g' p
            = (ratio <- Raster.no_throw_value_at_xy_of g p ;;
               Returns (ams3d._Kernel.bottom_height_above_ground_with h ratio))) /\
  (forall ratio : double,
      exists g',
        ams3d._Kernel.bottom_height_above_ground_grid_with h
          (Constant (Single_value_pseudo_raster.new ratio)) = Returns (Constant g') /\
        forall p,
          Single_value_pseudo_raster.no_throw_value_at_xy_of g' p
            = Returns (ams3d._Kernel.bottom_height_above_ground_with h ratio)).
Proof.
  split.
  - intros values num_rows num_cols x_min x_max y_min y_max g.
    unfold ams3d._Kernel.bottom_height_above_ground_grid_with.
    cbn [I_Raster_calls.values I_Raster_calls.copy_w_new_values].
    unfold Raster.copy_w_new_values, Raster.values.
    cbn [g Raster.new Raster._values Raster._num_rows Raster._num_cols
         Raster._x_min Raster._x_max Raster._y_min Raster._y_max].
    unfold size. rewrite length_map, Z.eqb_refl. cbn [negb bind].
    eexists. split; [reflexivity|]. intros p. split; [reflexivity|].
    unfold Raster.no_throw_value_at_xy_of.
    change (Raster._flat_index (Raster.new _ num_rows num_cols x_min x_max y_min y_max) p)
      with (Raster._flat_index g p).
    cbn [Raster.new Raster._values].
    destruct (Raster._flat_index g p) as [i| |]; cbn [bind]; try reflexivity.
    rewrite at_index_map. reflexivity.
  - intros ratio. eexists. split; [reflexivity|]. intros p. reflexivity.
Qed.

(** *** The cells at the edges of the extent *)

(** A quotient that is a normal number is at most 2^-51 of the exact
    quotient above it. *)
Lemma div_normal_upper (mx my m : positive) (ex ey e : Z) :
  Double.div (S754_finite false mx ex) (S754_finite false my ey)
    = S754_finite false m e ->
  2 ^ 52 <= Z.pos m ->
  (positive_value m e
   <= positive_value mx ex / positive_value my ey * (1 + 2 * eps))%R.
Proof.
  intros Hdiv Hnormal.
  destruct (div_core_spec mx my ex ey) as (q & e' & l & Hcore & Hq & He' & B1 & B2).
  unfold Double.div, SFdiv in Hdiv. rewrite Hcore in Hdiv. cbn [xorb] in Hdiv.
  destruct (binary_round_aux_value false q e' l Hq)
    as (m2 & m3 & e3 & Hm2 & _ & Hsecond & He1 & _ & Hv & Hres).
  destruct (binary_round_aux_stages q e' m2 Hq Hm2)
    as (S1 & S2 & _ & _ & _ & Hm1 & _).
  set (m1 := q / 2 ^ shift_of q e') in *. set (e1 := e' + shift_of q e') in *.
  rewrite Hres in Hdiv.
  assert (m3 = Z.pos m /\ e3 = e) as [-> ->].
  { destruct m3 as [|p|p]; try discriminate Hdiv.
    destruct (e3 <=? emax - prec); [|discriminate Hdiv].
    injection Hdiv as -> ->. split; reflexivity. }
  assert (2 ^ 52 <= m2) as Hm2n.
  { destruct Hsecond as [(E & _ & _)|(_ & _ & E)]; [rewrite <- E; assumption|].
    rewrite E. lia. }
  assert (2 ^ 51 <= m1) as Hm1n by lia.
  unfold positive_value at 1. rewrite Hv.
  pose proof (pow2_pos e1) as P1. pose proof eps_pos as Heps.
  assert (IZR m2 <= IZR m1 + 1)%R as C.
  { rewrite <- plus_IZR. apply IZR_le. lia. }
  assert (IZR m2 * pow2 e1 <= (IZR m1 + 1) * pow2 e1)%R as C'
    by (apply Rmult_le_compat_r; lra).
  assert (pow2 e1 <= IZR m1 * pow2 e1 * (2 * eps))%R as Hulp.
  { apply IZR_le in Hm1n. rewrite <- (pow2_IZR 51) in Hm1n by lia.
    pose proof pow2_52_eps as H52. pose proof (pow2_double 51) as Hd.
    change (51 + 1) with 52 in Hd.
    assert (pow2 51 * (2 * eps) = 1)%R as Hone by nra.
    assert (pow2 e1 * (pow2 51 * (2 * eps)) <= pow2 e1 * (IZR m1 * (2 * eps)))%R;
      [|nra].
    apply Rmult_le_compat_l; [lra|]. apply Rmult_le_compat_r; lra. }
  set (r := (positive_value mx ex / positive_value my ey)%R) in *.
  assert (IZR m1 * pow2 e1 <= r)%R as Har by lra.
  assert (IZR m1 * pow2 e1 * (2 * eps) <= r * (2 * eps))%R
    by (apply Rmult_le_compat_r; lra).
  lra.
Qed.

(** The width of an axis divided by the width of its cells: the index is
    the number of cells, or one less. *)
Lemma axis_last_cell (lo hi : double) (n : Z) :
  well_formed lo -> well_formed hi -> le lo hi -> 1 <= n <= 2 ^ 48 ->
  positive_normal (Double.div (Double.sub hi lo) (of_size_t n)) ->
  exists c,
    to_size_t (Double.div (Double.sub hi lo)
                          (Double.div (Double.sub hi lo) (of_size_t n))) = Some c /\
    n - 1 <= c <= n.
Proof.
  intros Wlo Whi Hle Hn (mW & eW & HW & Hnormal).
  pose proof eps_pos as Heps. pose proof eps_small as Heps8.
  destruct (of_size_t_value n ltac:(lia)) as (mN & eN & HN & HvN).
  rewrite HN in HW.
  destruct (Double.sub hi lo) as [s|s| |s mD eD] eqn:HD;
    try (cbn [Double.div SFdiv] in HW; discriminate HW).
  assert (s = false) as ->.
  { pose proof HW as HW'. unfold Double.div, SFdiv in HW'.
    destruct (SFdiv_core_binary prec emax (Z.pos mD) eD (Z.pos mN) eN) as [[q e'] l].
    destruct (binary_round_aux_cases (xorb s false) q e' l) as [H|[H|[H|(m & e & H)]]];
      rewrite H in HW'; try discriminate HW'.
    injection HW' as Hs _ _. destruct s; [discriminate Hs|reflexivity]. }
  rewrite HN, HW.
  pose proof (div_normal_lower mD mN mW eD eN eW HW Hnormal) as Hlo.
  pose proof (div_normal_upper mD mN mW eD eN eW HW Hnormal) as Hup.
  fold (positive_value mN eN) in HvN. rewrite HvN in Hlo, Hup.
  pose proof (positive_value_pos mW eW) as PW.
  pose proof (positive_value_pos mD eD) as PD.
  assert (1 <= IZR n <= pow2 48)%R as [Hn1 Hn48].
  { split; [apply IZR_le; lia|]. rewrite (pow2_IZR 48) by lia. apply IZR_le. lia. }
  set (W := positive_value mW eW) in *. set (D := positive_value mD eD) in *.
  set (r := (D / W)%R).
  assert (r * W = D)%R as Hr by (unfold r; field; lra).
  assert (D / IZR n * IZR n = D)%R as Hq by (field; lra).
  assert (0 < r)%R as Hrpos by (unfold r; apply Rdiv_lt_0_compat; assumption).
  (* n / (1 + 2 eps) <= r <= n (1 + eps) *)
  assert (r <= IZR n * (1 + eps))%R as Hr_up.
  { assert (D <= W * (1 + eps) * IZR n)%R as H.
    { rewrite <- Hq at 1. apply Rmult_le_compat_r; lra. }
    rewrite <- Hr in H.
    assert (r * W <= IZR n * (1 + eps) * W)%R as H' by lra.
    apply Rmult_le_reg_r in H'; assumption. }
  assert (IZR n <= r * (1 + 2 * eps))%R as Hr_lo.
  { assert (W * IZR n <= D / IZR n * (1 + 2 * eps) * IZR n)%R as H
      by (apply Rmult_le_compat_r; lra).
    replace (D / IZR n * (1 + 2 * eps) * IZR n)%R
      with (D / IZR n * IZR n * (1 + 2 * eps))%R in H by ring.
    rewrite Hq, <- Hr in H.
    assert (IZR n * W <= r * (1 + 2 * eps) * W)%R as H' by lra.
    apply Rmult_le_reg_r in H'; assumption. }
  assert (IZR n * eps <= pow2 (-4))%R as Hneps.
  { assert (pow2 48 * eps = pow2 (-4))%R as H.
    { unfold eps. rewrite <- pow2_add. reflexivity. }
    rewrite <- H. apply Rmult_le_compat_r; lra. }
  pose proof (pow2_double (-4)) as Hd4. change (-4 + 1) with (-3) in Hd4.
  pose proof (pow2_double (-3)) as Hd3. change (-3 + 1) with (-2) in Hd3.
  pose proof (pow2_double (-2)) as Hd2. change (-2 + 1) with (-1) in Hd2.
  pose proof (pow2_double (-1)) as Hd1. change (-1 + 1) with 0 in Hd1.
  assert (pow2 0 = 1)%R as H0 by reflexivity.
  pose proof (pow2_pos (-4)) as P4.
  assert (r < pow2 49)%R as Hr49.
  { pose proof (pow2_double 48) as H48. change (48 + 1) with 49 in H48. lra. }
  destruct (div_to_size_t_bracket mD mW eD eW Hr49) as (c & Hc & Hcu & Hcl).
  fold D W r in Hcu, Hcl.
  exists c. split; [exact Hc|].
  assert (r * (2 * eps) <= pow2 (-2))%R as Hreps.
  { assert (r * (2 * eps) <= IZR n * (1 + eps) * (2 * eps))%R
      by (apply Rmult_le_compat_r; lra).
    assert (IZR n * eps * eps <= pow2 (-4) * eps)%R
      by (apply Rmult_le_compat_r; lra).
    nra. }
  split.
  - assert (IZR (n - 1) < IZR (c + 1))%R as Hlt.
    { rewrite minus_IZR, plus_IZR. lra. }
    apply lt_IZR in Hlt. lia.
  - assert (IZR c < IZR (n + 1))%R as Hlt by (rewrite plus_IZR; lra).
    apply lt_IZR in Hlt. lia.
Qed.

(** The position of the lower bound of an axis has the index 0. *)
Lemma axis_first_cell (lo w : double) :
  well_formed lo -> finite lo -> positive_normal w ->
  to_size_t (Double.div (Double.sub lo lo) w) = Some 0.
Proof.
  intros Wlo Flo (m & e & -> & _).
  assert (le lo lo) as Hrefl.
  { right. apply compare_refl. apply finite_not_nan. exact Flo. }
  destruct (sub_of_equal_finite lo lo Wlo Wlo Flo Flo Hrefl Hrefl) as [s ->].
  reflexivity.
Qed.

(** The cell of a point inside the extent: its row and column are below
    the numbers of rows and columns, and the points on the four edges of the
    extent lie in the outer rows and columns. *)
Lemma cell_of_in_extent {T : Type}
    (values : list T) (num_rows num_cols : Z)
    (x_min x_max y_min y_max : coordinate_t) (p : point_3d_t) :
  let r := Raster.new values num_rows num_cols x_min x_max y_min y_max in
  well_formed x_min -> well_formed x_max ->
  well_formed y_min -> well_formed y_max ->
  well_formed (get_x p) -> well_formed (get_y p) ->
  1 <= num_rows <= 2 ^ 48 -> 1 <= num_cols <= 2 ^ 48 ->
  positive_normal (Raster._row_height r) ->
  positive_normal (Raster._col_width r) ->
  Raster.has_value_at_xy_of r p = true ->
  exists row col,
    Raster._cell_of r p = Returns (row, col) /\
    0 <= row < num_rows /\ 0 <= col < num_cols /\
    (get_y p = y_max -> row = 0) /\
    (get_y p = y_min -> row = num_rows - 1) /\
    (get_x p = x_min -> col = 0) /\
    (get_x p = x_max -> col = num_cols - 1).
Proof.
  intros r Wx0 Wx1 Wy0 Wy1 Wx Wy Hrows Hcols Nrow Ncol Hin.
  apply has_value_at_xy_of_spec in Hin as (Hx0 & Hx1 & Hy0 & Hy1).
  cbn [r Raster.new Raster._x_min Raster._x_max Raster._y_min Raster._y_max
       Raster._row_height Raster._col_width] in *.
  destruct (axis_index_from_hi y_min (get_y p) y_max num_rows Wy0 Wy Wy1 Hy0 Hy1
              Hrows Nrow) as (row0 & Hrow & Hrowle).
  destruct (axis_index_from_lo x_min (get_x p) x_max num_cols Wx0 Wx Wx1 Hx0 Hx1
              Hcols Ncol) as (col0 & Hcol & Hcolle).
  destruct (axis_finite y_min (get_y p) y_max num_rows Hy0 Hy1 Hrows Nrow)
    as (Fy0 & Fy & Fy1).
  destruct (axis_finite x_min (get_x p) x_max num_cols Hx0 Hx1 Hcols Ncol)
    as (Fx0 & Fx & Fx1).
  pose proof (to_size_t_nonneg _ _ Hrow) as Hrow0.
  pose proof (to_size_t_nonneg _ _ Hcol) as Hcol0.
  pose proof (clamped_index_below row0 num_rows ltac:(lia) (conj Hrow0 Hrowle)) as Br.
  pose proof (clamped_index_below col0 num_cols ltac:(lia) (conj Hcol0 Hcolle)) as Bc.
  assert (forall n, 1 <= n <= 2 ^ 48 -> size_t_wrap (n - 1) = n - 1) as Hwrap.
  { intros n Hn. apply size_t_wrap_id. unfold is_size_t, size_t_modulus.
    assert (2 ^ 48 < 2 ^ 64) by (apply Z.pow_lt_mono_r; lia). lia. }
  unfold Raster._cell_of, r.
  cbn [Raster.new Raster._x_min Raster._y_max Raster._row_height Raster._col_width
       Raster._num_rows Raster._num_cols].
  rewrite Hrow, Hcol. cbn [of_option bind].
  eexists _, _. split; [reflexivity|].
  split; [lia|]. split; [lia|].
  split; [|split; [|split]].
  - intros E. rewrite E in Hrow.
    rewrite (axis_first_cell y_max _ Wy1 Fy1 Nrow) in Hrow. injection Hrow as <-.
    destruct (Z.eqb_spec 0 num_rows); [lia|reflexivity].
  - intros E. rewrite E in Hrow.
    destruct (axis_last_cell y_min y_max num_rows Wy0 Wy1
                (le_trans_wf _ _ _ Wy0 Wy Wy1 Hy0 Hy1) Hrows Nrow) as (c & Hc & Hcn).
    rewrite Hc in Hrow. injection Hrow as <-.
    destruct (Z.eqb_spec c num_rows) as [->|Hne]; [apply Hwrap; assumption|lia].
  - intros E. rewrite E in Hcol.
    rewrite (axis_first_cell x_min _ Wx0 Fx0 Ncol) in Hcol. injection Hcol as <-.
    destruct (Z.eqb_spec 0 num_cols); [lia|reflexivity].
  - intros E. rewrite E in Hcol.
    destruct (axis_last_cell x_min x_max num_cols Wx0 Wx1
                (le_trans_wf _ _ _ Wx0 Wx Wx1 Hx0 Hx1) Hcols Ncol) as (c & Hc & Hcn).
    rewrite Hc in Hcol. injection Hcol as <-.
    destruct (Z.eqb_spec c num_cols) as [->|Hne]; [apply Hwrap; assumption|lia].
Qed.

Lemma value_at_xy_of_in_extent {T : Type} (r : Raster.t T) (p : point_3d_t) :
  Raster.has_value_at_xy_of r p = true ->
  Raster.value_at_xy_of r p = Raster.no_throw_value_at_xy_of r p.
Proof.
  intros Hin. unfold Raster.value_at_xy_of. rewrite Hin.
  apply has_value_at_xy_of_spec in Hin as (Hx0 & _ & Hy0 & _).
  apply le_not_nan_r in Hx0, Hy0.
  destruct (get_x p), (get_y p); try congruence; reflexivity.
Qed.

Lemma read_of_cell {T : Type} (r : Raster.t T) (p : point_3d_t) (row col : Z) :
  Raster._cell_of r p = Returns (row, col) ->
  0 <= row < Raster._num_rows r -> 0 <= col < Raster._num_cols r ->
  is_size_t (Raster._num_rows r * Raster._num_cols r) ->
  Raster.no_throw_value_at_xy_of r p
    = at_index (Raster._values r) (Raster._num_cols r * row + col).
Proof.
  intros Hcell Hrow Hcol Hsize.
  unfold Raster.no_throw_value_at_xy_of, Raster._flat_index.
  rewrite Hcell. cbn [bind fst snd].
  rewrite size_t_wrap_id; [reflexivity|].
  unfold is_size_t in *. nia.
Qed.

(** X19: for a raster with between 1 and 2^48 rows and columns, fewer
    than 2^64 cells and positive normal cell sizes, [value_at_xy_of] reads at
    a point inside the extent the position num_cols * row + col with a row
    below num_rows and a column below num_cols; the points with y = y_max
    lie in row 0, those with y = y_min in the last row, those with x = x_min
    in column 0 and those with x = x_max in the last column. *)
Theorem edges_map_to_boundary_cells {T : Type}
    (values : list T) (num_rows num_cols : Z)
    (x_min x_max y_min y_max : coordinate_t) (p : point_3d_t) :
  let r := Raster.new values num_rows num_cols x_min x_max y_min y_max in
  well_formed x_min -> well_formed x_max ->
  well_formed y_min -> well_formed y_max ->
  well_formed (get_x p) -> well_formed (get_y p) ->
  1 <= num_rows <= 2 ^ 48 -> 1 <= num_cols <= 2 ^ 48 ->
  is_size_t (num_rows * num_cols) ->
  positive_normal (Raster._row_height r) ->
  positive_normal (Raster._col_width r) ->
  Raster.has_value_at_xy_of r p = true ->
  exists row col,
    Raster.value_at_xy_of r p = at_index values (num_cols * row + col) /\
    0 <= row < num_rows /\ 0 <= col < num_cols /\
    (get_y p = y_max -> row = 0) /\
    (get_y p = y_min -> row = num_rows - 1) /\
    (get_x p = x_min -> col = 0) /\
    (get_x p = x_max -> col = num_cols - 1).
Proof.
  intros r Wx0 Wx1 Wy0 Wy1 Wx Wy Hrows Hcols Hsize Nrow Ncol Hin.
  destruct (cell_of_in_extent values num_rows num_cols x_min x_max y_min y_max p
              Wx0 Wx1 Wy0 Wy1 Wx Wy Hrows Hcols Nrow Ncol Hin)
    as (row & col & Hcell & Hrow & Hcol & Hedges).
  exists row, col. split; [|split; [exact Hrow|split; [exact Hcol|exact Hedges]]].
  rewrite (value_at_xy_of_in_extent r p Hin).
  exact (read_of_cell r p row col Hcell Hrow Hcol Hsize).
Qed.

Lemma edges_map_to_boundary_cells_witness :
  exists row col,
    Raster.value_at_xy_of (Raster.new [one; two; half; quarter] 2 2 zero two zero two)
                          (a_point two half zero)
      = at_index [one; two; half; quarter] (2 * row + col) /\
    0 <= row < 2 /\ 0 <= col < 2.
Proof.
  destruct (edges_map_to_boundary_cells [one; two; half; quarter] 2 2
              zero two zero two (a_point two half zero)
              eq_refl eq_refl eq_refl eq_refl eq_refl eq_refl
              ltac:(lia) ltac:(lia) ltac:(unfold is_size_t, size_t_modulus; lia)
              ltac:(eexists _, _; split; [reflexivity|lia])
              ltac:(eexists _, _; split; [reflexivity|lia])
              eq_refl)
    as (row & col & H1 & H2 & H3 & _).
  exists row, col. split; [exact H1|]. split; assumption.
Defined.

(** X20: for such a raster with ordered bounds, [value_at_xy_of] reads at
    the four corners of the extent the first value, the last value of the
    first row, the first value of the last row and the last value. *)
Theorem corners_read_the_outer_values {T : Type}
    (values : list T) (num_rows num_cols : Z)
    (x_min x_max y_min y_max z : coordinate_t) :
  let r := Raster.new values num_rows num_cols x_min x_max y_min y_max in
  well_formed x_min -> well_formed x_max ->
  well_formed y_min -> well_formed y_max ->
  le x_min x_max -> le y_min y_max ->
  1 <= num_rows <= 2 ^ 48 -> 1 <= num_cols <= 2 ^ 48 ->
  is_size_t (num_rows * num_cols) ->
  positive_normal (Raster._row_height r) ->
  positive_normal (Raster._col_width r) ->
  Raster.value_at_xy_of r (a_point x_min y_max z) = at_index values 0 /\
  Raster.value_at_xy_of r (a_point x_max y_max z) = at_index values (num_cols - 1) /\
  Raster.value_at_xy_of r (a_point x_min y_min z)
    = at_index values (num_rows * num_cols - num_cols) /\
  Raster.value_at_xy_of r (a_point x_max y_min z)
    = at_index values (num_rows * num_cols - 1).
Proof.
  intros r Wx0 Wx1 Wy0 Wy1 Hx Hy Hrows Hcols Hsize Nrow Ncol.
  assert (le x_min x_min /\ le x_max x_max /\ le y_min y_min /\ le y_max y_max)
    as (Rx0 & Rx1 & Ry0 & Ry1).
  { repeat split; right; apply compare_refl;
      eauto using le_not_nan_l, le_not_nan_r. }
  assert (forall x y, (x = x_min \/ x = x_max) -> (y = y_min \/ y = y_max) ->
            exists row col,
              Raster.value_at_xy_of r (a_point x y z)
                = at_index values (num_cols * row + col) /\
              (y = y_max -> row = 0) /\ (y = y_min -> row = num_rows - 1) /\
              (x = x_min -> col = 0) /\ (x = x_max -> col = num_cols - 1)) as Hcorner.
  { intros x y Ex Ey.
    assert (well_formed x) as Wx by (destruct Ex as [->| ->]; assumption).
    assert (well_formed y) as Wy by (destruct Ey as [->| ->]; assumption).
    assert (Raster.has_value_at_xy_of r (a_point x y z) = true) as Hin.
    { apply has_value_at_xy_of_spec. unfold in_closed_extent.
      cbn [r Raster.new Raster._x_min Raster._x_max Raster._y_min Raster._y_max
           a_point get_x get_y].
      destruct Ex as [->| ->], Ey as [->| ->]; repeat split; assumption. }
    destruct (cell_of_in_extent values num_rows num_cols x_min x_max y_min y_max
                (a_point x y z) Wx0 Wx1 Wy0 Wy1 Wx Wy Hrows Hcols Nrow Ncol Hin)
      as (row & col & Hcell & Hrow & Hcol & Hedges).
    exists row, col. split; [|exact Hedges].
    rewrite (value_at_xy_of_in_extent r _ Hin).
    exact (read_of_cell r _ row col Hcell Hrow Hcol Hsize). }
  repeat split.
  - destruct (Hcorner x_min y_max (or_introl eq_refl) (or_intror eq_refl))
      as (row & col & -> & Hr & _ & Hc & _).
    rewrite (Hr eq_refl), (Hc eq_refl). f_equal. lia.
  - destruct (Hcorner x_max y_max (or_intror eq_refl) (or_intror eq_refl))
      as (row & col & -> & Hr & _ & _ & Hc).
    rewrite (Hr eq_refl), (Hc eq_refl). f_equal. lia.
  - destruct (Hcorner x_min y_min (or_introl eq_refl) (or_introl eq_refl))
      as (row & col & -> & _ & Hr & Hc & _).
    rewrite (Hr eq_refl), (Hc eq_refl). f_equal. lia.
  - destruct (Hcorner x_max y_min (or_intror eq_refl) (or_introl eq_refl))
      as (row & col & -> & _ & Hr & _ & Hc).
    rewrite (Hr eq_refl), (Hc eq_refl). f_equal. lia.
Qed.

Lemma corners_read_the_outer_values_witness :
  Raster.value_at_xy_of (Raster.new [one; two; half; quarter] 2 2 zero two zero two)
                        (a_point zero two one) = Returns one /\
  Raster.value_at_xy_of (Raster.new [one; two; half; quarter] 2 2 zero two zero two)
                        (a_point two zero one) = Returns quarter.
Proof.
  destruct (corners_read_the_outer_values [one; two; half; quarter] 2 2
              zero two zero two one
              eq_refl eq_refl eq_refl eq_refl
              (or_introl eq_refl) (or_introl eq_refl)
              ltac:(lia) ltac:(lia) ltac:(unfold is_size_t, size_t_modulus; lia)
              ltac:(eexists _, _; split; [reflexivity|lia])
              ltac:(eexists _, _; split; [reflexivity|lia]))
    as (H1 & _ & _ & H4).
  split; [exact H1|exact H4].
Defined.

(** *** Point clouds over a ground grid *)




(** X22: on a vector with a point of three finite coordinates, a null
    raster pointer is dereferenced: [create_index_of_above_ground] with a
    null ground grid, and its overload for grids with a null grid of either
    kind, have undefined behaviour. *)
Theorem null_raster_pointer_is_undefined
    (points : list point_3d_t) :
  (exists p, In p points /\ all_finite p) ->
  (forall min_height_above_ground,
      create_index_of_above_ground points min_height_above_ground None = Undefined) /\
  (forall min_height_above_ground_grid_ptr,
      create_index_of_above_ground_grid points min_height_above_ground_grid_ptr None
        = Undefined) /\
  (forall ground_height_grid_ptr,
      create_index_of_above_ground_grid points None ground_height_grid_ptr
        = Undefined).
Proof.
  intros (p & Hp & Hfin).
  apply has_non_finite_coordinate_value_spec in Hfin.
  split; [|split]; intros.
  - rewrite create_index_of_above_ground_filters.
    apply (filtered_index_undefined _ _ p); [|exact Hp|].
    + intros a e. apply above_ground_test_never_throws.
    + unfold kept, above_ground_skip_test. rewrite Hfin. reflexivity.
  - rewrite create_index_of_above_ground_grid_filters.
    apply (filtered_index_undefined _ _ p); [|exact Hp|].
    + intros a e. apply above_height_grid_test_never_throws.
    + unfold kept, above_height_grid_skip_test. rewrite Hfin. reflexivity.
  - rewrite create_index_of_above_ground_grid_filters.
    apply (filtered_index_undefined _ _ p); [|exact Hp|].
    + intros a e. apply above_height_grid_test_never_throws.
    + unfold kept, above_height_grid_skip_test. rewrite Hfin.
      destruct ground_height_grid_ptr as [g|]; cbn [shared_ptr_deref of_option bind];
        [|reflexivity].
      destruct (I_Raster_calls.no_throw_value_at_xy_of g p) as [v|e|] eqn:E;
        cbn [bind]; try reflexivity.
      exfalso. exact (i_raster_no_throw_never_throws g p e E).
Qed.

Lemma null_raster_pointer_is_undefined_witness :
  create_index_of_above_ground [nan_point; a_point zero zero one] one None = Undefined.
Proof.
  apply (null_raster_pointer_is_undefined
           [nan_point; a_point zero zero one]).
  exists (a_point zero zero one). split; [right; left; reflexivity|].
  repeat split.
Defined.

(** *** The distance functor at its edges *)

Lemma functor_comparable_distance (c : point_2d_t) (rho : distance_t) :
  _within_xy_distance_functor._comparable_distance
    (_within_xy_distance_functor.new c rho) = Double.mul rho rho.
Proof.
  unfold _within_xy_distance_functor.new.
  cbn [_within_xy_distance_functor._comparable_distance].
  rewrite comparable_distance_symmetric_sum. cbn [x_of y_of].
  change (Double.sub zero zero) with zero.
  change (Double.mul zero zero) with zero.
  rewrite add_comm, add_zero_r by apply mul_self_not_negative_zero.
  destruct (sub_zero_l rho) as [H| ->].
  - rewrite H. apply mul_opp_opp.
  - reflexivity.
Qed.

(** A square is not below zero. *)
Lemma zero_le_square (s : bool) (x : double) :
  x <> S754_nan -> le (S754_zero s) (Double.mul x x).
Proof.
  intros Hx. destruct x as [sx|sx| |sx m e]; try congruence.
  - right. destruct s, sx; reflexivity.
  - left. destruct s, sx; reflexivity.
  - unfold Double.mul, SFmul. rewrite xorb_nilpotent.
    destruct (binary_round_aux_value false (Z.pos (m * m)) (e + e) loc_Exact ltac:(lia))
      as (m2 & m3 & e3 & Hm2 & _ & Hsecond & _ & _ & _ & ->).
    assert (0 <= Z.pos (m * m) / 2 ^ shift_of (Z.pos (m * m)) (e + e)) as Hm1.
    { apply Z.div_pos; [lia|]. apply Z.pow_pos_nonneg; [lia|apply shift_of_nonneg]. }
    assert (0 <= m3) as Hm3 by (destruct Hsecond as [(-> & _)|(-> & _)]; lia).
    destruct m3 as [|p|p]; [right; destruct s; reflexivity| |lia].
    destruct (e3 <=? emax - prec); left; destruct s; reflexivity.
Qed.

Lemma sub_self (x : double) : finite x -> exists s, Double.sub x x = S754_zero s.
Proof.
  destruct x as [s|s| |s m e]; try discriminate; intros _.
  - destruct s; eexists; reflexivity.
  - unfold Double.sub. cbn [SFsub]. rewrite Z.sub_diag. eexists; reflexivity.
Qed.

Lemma leb_nan_r (x : double) : Double.leb x S754_nan = false.
Proof. destruct x; reflexivity. Qed.

Lemma sub_nan_r (x : double) : Double.sub x S754_nan = S754_nan.
Proof. destruct x; reflexivity. Qed.

Lemma add_nan_r (x : double) : Double.add x S754_nan = S754_nan.
Proof. destruct x; reflexivity. Qed.

(** X23: the functor rejects every point when its radius, a coordinate
    of its center or the x or y of the point is NaN; it accepts the same
    points for a radius and for its negation; and for a radius that is not
    NaN, zero included, it accepts the points above and below its finite
    center. *)
Theorem within_xy_distance_functor_edge_cases
    (cx cy : coordinate_t) (rho : distance_t) (p : point_3d_t) :
  let c := {| x_of := cx; y_of := cy |} in
  let f := _within_xy_distance_functor.new c rho in
  (rho = S754_nan \/ nan_xy p \/ cx = S754_nan \/ cy = S754_nan ->
     _within_xy_distance_functor.call f p = false) /\
  _within_xy_distance_functor.call
    (_within_xy_distance_functor.new c (SFopp rho)) p
    = _within_xy_distance_functor.call f p /\
  (finite cx -> finite cy -> rho <> S754_nan ->
   get_x p = cx -> get_y p = cy ->
     _within_xy_distance_functor.call f p = true).
Proof.
  intros c f. unfold _within_xy_distance_functor.call, f.
  rewrite !functor_comparable_distance.
  cbn [_within_xy_distance_functor.new _within_xy_distance_functor._xy_point].
  split; [|split].
  - intros [->|[[Hx|Hy]|[->| ->]]].
    + apply leb_nan_r.
    + rewrite comparable_distance_symmetric_sum. cbn [get_xy_point x_of y_of c].
      rewrite Hx. reflexivity.
    + rewrite comparable_distance_symmetric_sum. cbn [get_xy_point x_of y_of c].
      rewrite Hy. change (Double.sub S754_nan cy) with S754_nan.
      change (Double.mul S754_nan S754_nan) with S754_nan.
      rewrite add_nan_r. reflexivity.
    + rewrite comparable_distance_symmetric_sum. cbn [get_xy_point x_of y_of c].
      rewrite sub_nan_r. reflexivity.
    + rewrite comparable_distance_symmetric_sum. cbn [get_xy_point x_of y_of c].
      rewrite sub_nan_r. change (Double.mul S754_nan S754_nan) with S754_nan.
      rewrite add_nan_r. reflexivity.
  - rewrite mul_opp_opp. reflexivity.
  - intros Fx Fy Hrho Ex Ey. apply leb_le.
    rewrite comparable_distance_symmetric_sum. cbn [get_xy_point x_of y_of c].
    rewrite Ex, Ey.
    destruct (sub_self cx Fx) as [sx ->]. destruct (sub_self cy Fy) as [sy ->].
    assert (exists s, Double.add (Double.mul (S754_zero sx) (S754_zero sx))
                                 (Double.mul (S754_zero sy) (S754_zero sy))
                      = S754_zero s) as [s ->]
      by (destruct sx, sy; eexists; reflexivity).
    apply zero_le_square. exact Hrho.
Qed.

(** *** The bottom of a kernel *)

(** The order of two finite binary64 values is the order of the real
    numbers they stand for. *)
Lemma value_le (x y : double) :
  well_formed x -> well_formed y -> finite x -> finite y ->
  (value x <= value y)%R -> le x y.
Proof.
  intros Wx Wy Fx Fy H.
  rewrite (value_scaled x Wx Fx), (value_scaled y Wy Fy) in H.
  pose proof (pow2_pos emin) as P.
  apply Rmult_le_reg_r in H; [|exact P]. apply le_IZR in H.
  unfold le. rewrite (compare_scaled x y Wx Wy (finite_not_nan _ Fx) (finite_not_nan _ Fy)).
  destruct (Z.compare_spec (scaled x) (scaled y)); auto. lia.
Qed.

Lemma digits_53 (m : positive) :
  2 ^ 52 <= Z.pos m < 2 ^ 53 -> Z.pos (digits2_pos m) = 53.
Proof.
  intros [Hlo Hhi]. pose proof (digits2_pos_bounds m) as [Dlo Dhi].
  assert (Z.pos (digits2_pos m) - 1 < 53) as H1.
  { apply (Z.pow_lt_mono_r_iff 2); lia. }
  assert (52 < Z.pos (digits2_pos m)) as H2.
  { apply (Z.pow_lt_mono_r_iff 2); lia. }
  lia.
Qed.

Lemma digits_at_most_53 (m : positive) :
  Z.pos m < 2 ^ 53 -> Z.pos (digits2_pos m) <= 53.
Proof.
  intros Hhi. pose proof (digits2_pos_bounds m) as [Dlo _].
  assert (Z.pos (digits2_pos m) - 1 < 53); [|lia].
  apply (Z.pow_lt_mono_r_iff 2); lia.
Qed.

(** The converse of [bounded_spec]. *)
Lemma bounded_of_spec (m : positive) (e : Z) :
  emin <= e <= 971 -> Z.pos m < 2 ^ 53 -> (emin < e -> 2 ^ 52 <= Z.pos m) ->
  SpecFloat.bounded prec emax m e = true.
Proof.
  intros He Hm Hn. unfold SpecFloat.bounded, canonical_mantissa.
  apply andb_true_iff. split; [|apply Z.leb_le; unfold emax, prec; lia].
  apply Z.eqb_eq. rewrite fexp_eq.
  destruct (Z.eq_dec e emin) as [->|Hne].
  - pose proof (digits_at_most_53 m Hm). lia.
  - rewrite (digits_53 m) by (split; [apply Hn|]; lia). unfold emin in *. lia.
Qed.

(** The number of digits plus the exponent is fixed by the value. *)
Lemma digits_by_value (m1 m2 : positive) (e1 e2 : Z) :
  (IZR (Z.pos m1) * pow2 e1 <= IZR (Z.pos m2) * pow2 e2)%R ->
  Z.pos (digits2_pos m1) + e1 <= Z.pos (digits2_pos m2) + e2.
Proof.
  intros H. pose proof (digits_pow2 m1 e1) as [L1 _].
  pose proof (digits_pow2 m2 e2) as [_ U2].
  assert (pow2 (Z.pos (digits2_pos m1) - 1 + e1) < pow2 (Z.pos (digits2_pos m2) + e2))%R
    as Hlt by lra.
  apply pow2_lt_inv in Hlt. lia.
Qed.

(** An input whose exponent is not above the exponent of its result is
    shifted to a mantissa that is normal above the smallest exponent. *)
Lemma aligned_shift (mz : positive) (ez : Z) :
  ez <= fexp prec emax (Z.pos (digits2_pos mz) + ez) ->
  let k := shift_of (Z.pos mz) ez in
  0 <= k /\ ez + k = fexp prec emax (Z.pos (digits2_pos mz) + ez) /\
  (emin <= ez -> 0 < Z.pos mz / 2 ^ k) /\
  (emin < ez + k -> 2 ^ 52 <= Z.pos mz / 2 ^ k).
Proof.
  intros Ha k.
  assert (k = fexp prec emax (Z.pos (digits2_pos mz) + ez) - ez) as Hk.
  { unfold k, shift_of. cbn [Zdigits2]. lia. }
  assert (emin < ez + k -> 2 ^ 52 <= Z.pos mz / 2 ^ k) as Hn.
  { intros Hgt. rewrite fexp_eq in Hk, Ha.
    pose proof (digits2_pos_bounds mz) as [Hlo _].
    set (d := Z.pos (digits2_pos mz)) in *.
    assert (k = d - 53) as Hkd by lia.
    replace (d - 1) with (52 + k) in Hlo by lia.
    rewrite Z.pow_add_r in Hlo by lia.
    apply Z.div_le_lower_bound; [apply Z.pow_pos_nonneg; lia|]. lia. }
  split; [lia|]. split; [lia|]. split; [|exact Hn].
  intros Hez. destruct (Z.eq_dec k 0) as [Hz|Hnz].
  - rewrite Hz. change (2 ^ 0) with 1. rewrite Z.div_1_r. lia.
  - assert (2 ^ 52 <= Z.pos mz / 2 ^ k); [|lia]. apply Hn.
    rewrite fexp_eq in Hk, Ha. lia.
Qed.

(** A positive exact value below a binary64 number does not round above
    it. *)
Lemma round_below_representable (s : bool) (mz mh : positive) (ez eh : Z) :
  emin <= ez -> ez <= fexp prec emax (Z.pos (digits2_pos mz) + ez) ->
  SpecFloat.bounded prec emax mh eh = true ->
  (IZR (Z.pos mz) * pow2 ez <= IZR (Z.pos mh) * pow2 eh)%R ->
  exists m e,
    binary_round_aux prec emax s (Z.pos mz) ez loc_Exact = S754_finite s m e /\
    SpecFloat.bounded prec emax m e = true /\
    (IZR (Z.pos m) * pow2 e <= IZR (Z.pos mh) * pow2 eh)%R.
Proof.
  intros Hez Haligned Hh Hle.
  pose proof (digits_by_value mz mh ez eh Hle) as Hdig.
  pose proof Hh as Hcanon. unfold SpecFloat.bounded, canonical_mantissa in Hcanon.
  apply andb_true_iff in Hcanon as [Hcanon _]. apply Z.eqb_eq in Hcanon.
  apply bounded_spec in Hh as (Heh & Hmh & Hnh).
  destruct (binary_round_aux_value s (Z.pos mz) ez loc_Exact ltac:(lia))
    as (m2 & m3 & e3 & Hr & Hdir & Hsecond & He1 & Hb1 & Hv & Hres).
  destruct (Hdir eq_refl) as (rem & Hdec & Hrem & Hup & _). clear Hdir.
  destruct (binary_round_aux_stages (Z.pos mz) ez m2 ltac:(lia) Hr)
    as (S1 & _ & _ & _ & _ & Hm1 & _).
  assert (shift_of (Z.pos mz) ez
          = fexp prec emax (Z.pos (digits2_pos mz) + ez) - ez) as Hk.
  { unfold shift_of. cbn [Zdigits2]. lia. }
  set (k := shift_of (Z.pos mz) ez) in *.
  set (m1 := Z.pos mz / 2 ^ k) in *. set (e1 := ez + k) in *.
  assert (0 <= k) as Hk0 by lia.
  assert (e1 = fexp prec emax (Z.pos (digits2_pos mz) + ez)) as He1eq
    by (unfold e1; lia).
  assert (e1 <= eh) as He1h.
  { rewrite He1eq, <- Hcanon, !fexp_eq. lia. }
  destruct (aligned_shift mz ez Haligned) as (_ & _ & Hm1pos & Hnormal).
  specialize (Hm1pos Hez).
  fold k in Hm1pos, Hnormal. fold m1 e1 in Hm1pos, Hnormal.
  (* the bound as a multiple of the unit of the result *)
  set (H := Z.pos mh * 2 ^ (eh - e1)).
  assert (IZR (Z.pos mh) * pow2 eh = IZR H * pow2 e1)%R as HH.
  { unfold H. rewrite mult_IZR, <- (pow2_IZR (eh - e1)) by lia.
    rewrite Rmult_assoc, <- pow2_add. f_equal. f_equal. lia. }
  pose proof (pow2_pos e1) as P1. pose proof (pow2_pos ez) as Pz.
  assert (m1 <= H) as Hm1H.
  { apply le_IZR. apply Rmult_le_reg_r with (pow2 e1); [exact P1|]. lra. }
  assert (m2 <= H) as Hm2H.
  { destruct (Z.eq_dec m1 H) as [E|Hne]; [|lia].
    assert (rem = 0) as Hrem0.
    { assert (IZR (Z.pos mz) * pow2 ez = IZR m1 * pow2 e1 + IZR rem * pow2 ez)%R as Hsplit.
      { unfold e1. rewrite Hdec, plus_IZR, mult_IZR, pow2_add, (pow2_IZR k) by lia. ring. }
      assert (IZR rem * pow2 ez <= 0)%R as Hr0 by (rewrite E in Hsplit; lra).
      assert (IZR rem <= 0)%R as Hr1.
      { apply Rmult_le_reg_r with (pow2 ez); [exact Pz|]. lra. }
      apply le_IZR in Hr1. lia. }
    destruct (Z.eq_dec m2 m1) as [->|Hne2]; [lia|].
    assert (m2 = m1 + 1) as E2 by lia. specialize (Hup E2).
    assert (0 < 2 ^ k) by (apply Z.pow_pos_nonneg; lia). lia. }
  assert (IZR m3 * pow2 e3 <= IZR (Z.pos mh) * pow2 eh)%R as Hval.
  { rewrite Hv, HH. apply Rmult_le_compat_r; [lra|]. apply IZR_le. exact Hm2H. }
  assert (0 < m3 < 2 ^ 53 /\ (emin < e3 -> 2 ^ 52 <= m3) /\ emin <= e3) as (Hm3 & Hn3 & He3).
  { destruct Hsecond as [(-> & -> & Hlt)|(-> & -> & ->)].
    - split; [lia|]. split; [|lia]. intros Hgt. specialize (Hnormal Hgt). lia.
    - split; [lia|]. split; [lia|lia]. }
  assert (e3 <= 971) as He3hi.
  { destruct (Z.le_gt_cases e3 971) as [|Hgt]; [assumption|exfalso].
    assert (2 ^ 52 <= m3) as Hn by (apply Hn3; unfold emin; lia).
    apply IZR_le in Hn. rewrite <- (pow2_IZR 52) in Hn by lia.
    assert (pow2 972 <= pow2 e3)%R by (apply pow2_le; lia).
    assert (pow2 1024 <= IZR m3 * pow2 e3)%R as Hbig.
    { replace 1024 with (52 + 972) by reflexivity. rewrite pow2_add.
      pose proof (pow2_pos 972). pose proof (pow2_pos 52).
      apply Rmult_le_compat; lra. }
    assert (IZR (Z.pos mh) * pow2 eh < pow2 1024)%R as Hsmall.
    { replace 1024 with (53 + 971) by reflexivity. rewrite pow2_add.
      apply IZR_lt in Hmh. rewrite <- (pow2_IZR 53) in Hmh by lia.
      assert (pow2 eh <= pow2 971)%R by (apply pow2_le; lia).
      pose proof (pow2_pos eh). pose proof (pow2_pos 53).
      assert (IZR (Z.pos mh) * pow2 eh < pow2 53 * pow2 eh)%R
        by (apply Rmult_lt_compat_r; lra).
      assert (pow2 53 * pow2 eh <= pow2 53 * pow2 971)%R
        by (apply Rmult_le_compat_l; lra).
      lra. }
    lra. }
  destruct m3 as [|m|m]; try lia.
  exists m, e3. rewrite Hres.
  destruct (Z.leb_spec e3 (emax - prec)) as [_|Hgt]; [|unfold emax, prec in Hgt; lia].
  split; [reflexivity|]. split; [|exact Hval].
  apply bounded_of_spec; [lia|lia|exact Hn3].
Qed.

(** Rounding an aligned input gives a binary64 value of the sign asked
    for. *)
Lemma round_aligned_valid (s : bool) (mz : positive) (ez : Z) (lx : location) :
  ez <= fexp prec emax (Z.pos (digits2_pos mz) + ez) ->
  let u := binary_round_aux prec emax s (Z.pos mz) ez lx in
  well_formed u /\
  (u = S754_zero s \/ u = S754_infinity s \/ exists m e, u = S754_finite s m e).
Proof.
  intros Ha u. unfold u.
  destruct (binary_round_aux_value s (Z.pos mz) ez lx ltac:(lia))
    as (m2 & m3 & e3 & Hr & _ & Hsecond & He1 & Hb1 & _ & Hres).
  destruct (aligned_shift mz ez Ha) as (Hk & _ & _ & Hnormal).
  destruct (binary_round_aux_stages (Z.pos mz) ez m2 ltac:(lia) Hr)
    as (_ & _ & _ & _ & _ & Hm1 & _).
  rewrite Hres.
  destruct m3 as [|m|m].
  - split; [reflexivity|]. left; reflexivity.
  - destruct (Z.leb_spec e3 (emax - prec)) as [Hle|Hgt].
    + split; [|right; right; eauto].
      unfold well_formed. cbn [valid_binary].
      unfold emax, prec in Hle.
      apply bounded_of_spec.
      * destruct Hsecond as [(_ & -> & _)|(_ & -> & _)]; lia.
      * destruct Hsecond as [(-> & _ & Hlt)|(-> & _ & _)]; lia.
      * intros Hgt. destruct Hsecond as [(E & -> & Hlt)|(E & -> & _)]; [|lia].
        specialize (Hnormal Hgt). lia.
    + split; [reflexivity|]. right; left; reflexivity.
  - exfalso. destruct Hsecond as [(E & _ & _)|(E & _ & _)]; lia.
Qed.

(** What [binary_round] hands to [binary_round_aux] is aligned, and
    stands for the same number. *)
Lemma binary_round_aligned (p : positive) (e : Z) :
  let mz := fst (shl_align p e (fexp prec emax (Z.pos (digits2_pos p) + e))) in
  let ez := snd (shl_align p e (fexp prec emax (Z.pos (digits2_pos p) + e))) in
  ez <= fexp prec emax (Z.pos (digits2_pos mz) + ez) /\
  (emin <= e -> emin <= ez) /\
  (IZR (Z.pos mz) * pow2 ez = IZR (Z.pos p) * pow2 e)%R.
Proof.
  intros mz ez.
  destruct (shl_align_value p e (fexp prec emax (Z.pos (digits2_pos p) + e)))
    as (Hs & _ & Hval).
  fold mz ez in Hs, Hval.
  assert (Z.pos (digits2_pos mz) + ez = Z.pos (digits2_pos p) + e) as Hd.
  { apply Z.le_antisymm; apply digits_by_value; lra. }
  rewrite Hd. split; [lia|]. split; [|exact Hval].
  rewrite Hs, fexp_eq. lia.
Qed.

(** The product of the mantissas of two binary64 values is aligned. *)
Lemma mul_aligned (mx my : positive) (ex ey : Z) :
  SpecFloat.bounded prec emax mx ex = true ->
  SpecFloat.bounded prec emax my ey = true ->
  ex + ey <= fexp prec emax (Z.pos (digits2_pos (mx * my)) + (ex + ey)).
Proof.
  intros Hx Hy.
  pose proof Hx as Cx. pose proof Hy as Cy.
  unfold SpecFloat.bounded, canonical_mantissa in Cx, Cy.
  apply andb_true_iff in Cx as [Cx _]. apply andb_true_iff in Cy as [Cy _].
  apply Z.eqb_eq in Cx, Cy. rewrite fexp_eq in *.
  pose proof (digits2_pos_bounds mx) as [Lx _].
  pose proof (digits2_pos_bounds my) as [Ly _].
  pose proof (digits2_pos_bounds (mx * my)) as [_ U].
  set (dx := Z.pos (digits2_pos mx)) in *.
  set (dy := Z.pos (digits2_pos my)) in *.
  set (d := Z.pos (digits2_pos (mx * my))) in *.
  assert (0 < dx) by (unfold dx; lia). assert (0 < dy) by (unfold dy; lia).
  assert (dx + dy - 2 < d) as Hd.
  { apply (Z.pow_lt_mono_r_iff 2); [lia|unfold d; lia|].
    replace (dx + dy - 2) with ((dx - 1) + (dy - 1)) by lia.
    rewrite Z.pow_add_r by lia.
    eapply Z.le_lt_trans; [|exact U]. rewrite Pos2Z.inj_mul.
    apply Z.mul_le_mono_nonneg; try assumption; apply Z.pow_nonneg; lia. }
  unfold emin in *. lia.
Qed.

(** The product of two finite binary64 values that are not negative is a
    binary64 value that is not negative. *)
Lemma mul_not_negative (x y : double) :
  well_formed x -> well_formed y -> not_negative x -> not_negative y ->
  (finite x \/ exists s m e, y = S754_finite s m e) -> finite y ->
  well_formed (Double.mul x y) /\ not_negative (Double.mul x y).
Proof.
  intros Wx Wy Nx Ny Fx Fy.
  destruct y as [sy|sy| |sy my ey]; try discriminate Fy;
    destruct x as [sx|sx| |sx mx ex]; try contradiction;
    cbn [Double.mul SFmul]; cbn [not_negative] in *.
  - split; [reflexivity|exact I].
  - exfalso. destruct Fx as [Fx|(s & m & e & E)]; discriminate.
  - split; [reflexivity|exact I].
  - split; [reflexivity|exact I].
  - subst. split; reflexivity.
  - subst. unfold Double.mul, SFmul. cbn [xorb].
    destruct (round_aligned_valid false (mx * my) (ex + ey) loc_Exact
                (mul_aligned mx my ex ey Wx Wy)) as [W [E|[E|(m & e & E)]]];
      cbv zeta in W, E; split; try exact W; rewrite E; cbn; auto.
Qed.

Lemma le_zero_not_negative (x : double) :
  finite x -> le zero x -> not_negative x.
Proof.
  intros F H. destruct x as [s|s| |s m e]; try discriminate F; cbn [not_negative]; auto.
  destruct s; [|reflexivity]. destruct H as [H|H]; discriminate H.
Qed.

(** Taking a number that is not negative from a finite number that is not
    negative gives a negative number or a finite one that is not above
    the first. *)
Lemma sub_not_above (h t : double) :
  well_formed h -> well_formed t -> finite h -> not_negative h -> not_negative t ->
  let u := Double.sub h t in
  lt u zero \/ (well_formed u /\ finite u /\ le u h).
Proof.
  intros Wh Wt Fh Nh Nt u. unfold u.
  destruct h as [sh|sh| |sh mh eh]; try discriminate Fh;
    destruct t as [st|st| |st mt et]; try contradiction;
    cbn [not_negative] in *; subst.
  - right. unfold Double.sub, SFsub.
    destruct sh, st; cbn; repeat split; auto; right; reflexivity.
  - left. reflexivity.
  - left. reflexivity.
  - right. cbn. repeat split; auto. right. apply compare_refl. discriminate.
  - left. reflexivity.
  - unfold Double.sub, SFsub. cbn [cond_Zopp].
    set (ez := Z.min eh et).
    set (d := Z.pos (fst (shl_align mh eh ez)) - Z.pos (fst (shl_align mt et ez))).
    assert ((IZR d * pow2 ez)%R
            = (IZR (Z.pos mh) * pow2 eh - IZR (Z.pos mt) * pow2 et)%R) as Hd.
    { unfold d. rewrite minus_IZR, Rmult_minus_distr_r.
      pose proof (aligned_value false mh eh ez ltac:(unfold ez; lia)) as A1.
      pose proof (aligned_value false mt et ez ltac:(unfold ez; lia)) as A2.
      cbn [cond_Zopp value] in A1, A2. rewrite A1, A2. reflexivity. }
    assert (emin <= ez) as Hez.
    { apply bounded_spec in Wh as (? & _). apply bounded_spec in Wt as (? & _).
      unfold ez. lia. }
    destruct d as [|p|p] eqn:Ed; cbn [binary_normalize].
    + right. repeat split; auto. left. reflexivity.
    + right. unfold binary_round.
      destruct (binary_round_aligned p ez) as (Ha & He & Hval). cbv zeta in Ha, He, Hval.
      destruct (shl_align p ez _) as [mz ez']. cbn [fst snd] in Ha, He, Hval.
      assert (0 < IZR (Z.pos mt) * pow2 et)%R as Ht.
      { apply Rmult_lt_0_compat; [apply IZR_lt; lia|apply pow2_pos]. }
      destruct (round_below_representable false mz mh ez' eh (He Hez) Ha Wh
                  ltac:(lra)) as (m & e & E & B & V).
      rewrite E. split; [exact B|]. split; [reflexivity|].
      apply value_le; [exact B|exact Wh|reflexivity|reflexivity|exact V].
    + unfold binary_round.
      destruct (binary_round_aligned p ez) as (Ha & _ & _). cbv zeta in Ha.
      destruct (shl_align p ez _) as [mz ez']. cbn [fst snd] in Ha.
      destruct (round_aligned_valid true mz ez' loc_Exact Ha) as [W [E|[E|(m & e & E)]]];
        cbv zeta in W, E; rewrite E in *.
      * right. repeat split; auto. left. reflexivity.
      * left. reflexivity.
      * left. reflexivity.
Qed.

(** X24: the bottom of the kernel of a point at a finite height [h] that is
    not negative, for a finite ratio that is not negative, is a finite
    binary64 value between the ground level 0 and [h], whatever the
    rounding of the product and of the difference does. *)
Theorem kernel_bottom_between_ground_and_point (h ratio : double) :
  well_formed h -> well_formed ratio -> finite h -> finite ratio ->
  le zero h -> le zero ratio ->
  let bottom := ams3d._Kernel.bottom_height_above_ground_with h ratio in
  well_formed bottom /\ finite bottom /\ le zero bottom /\ le bottom h.
Proof.
  intros Wh Wr Fh Fr Hh Hr bottom.
  pose proof (le_zero_not_negative h Fh Hh) as Nh.
  pose proof (le_zero_not_negative ratio Fr Hr) as Nr.
  destruct (mul_not_negative h ratio Wh Wr Nh Nr (or_introl Fh) Fr) as [W1 N1].
  destruct (mul_not_negative (Double.mul h ratio) quarter W1 eq_refl N1 eq_refl
              ltac:(right; unfold quarter; eauto) eq_refl) as [W2 N2].
  destruct (sub_not_above h _ Wh W2 Fh Nh N2) as [Hneg|(Wu & Fu & Hu)];
    cbv zeta in *;
    unfold bottom, ams3d._Kernel.bottom_height_above_ground_with.
  - apply ltb_lt in Hneg. rewrite Hneg.
    repeat split; auto. right. reflexivity.
  - destruct (Double.ltb _ zero) eqn:Hlt.
    + repeat split; auto. right. reflexivity.
    + repeat split; auto.
      apply not_lt_le; [apply finite_not_nan; assumption|discriminate|].
      intros H. apply ltb_lt in H. congruence.
Qed.

Lemma kernel_bottom_between_ground_and_point_witness :
  well_formed (ams3d._Kernel.bottom_height_above_ground_with two one) /\
  finite (ams3d._Kernel.bottom_height_above_ground_with two one) /\
  le zero (ams3d._Kernel.bottom_height_above_ground_with two one) /\
  le (ams3d._Kernel.bottom_height_above_ground_with two one) two.
Proof.
  apply (kernel_bottom_between_ground_and_point two one);
    try reflexivity; left; reflexivity.
Defined.
